(** * Comparison engine of the IRIS migration checklist extension

    A shallow embedding of [core/compare.js], [core/registry.js],
    [core/strategies/entityCompare.js] and [core/strategies/flatCompare.js],
    with the properties of the engine stated and proved over it; and, around
    the engine, of [core/bootstrap.js], of [getActiveTabOrigin] of
    [popup.js] and of the rendering of [report/report.js].

    Modelling conventions.
    - A JSON-compatible value is a term of [value].  Numbers are the
      integer-valued ones ([Z]), printed in decimal as [JSON.stringify] and
      [String] print them below 1e21.  A string is a sequence of code units
      below 256, so that the order of [Array.prototype.sort] (code unit by
      code unit) is [String.le].
    - An object is the list of its own properties in insertion order; a
      well-formed object has no repeated key ([wf_value]).  Every object
      inherits the names of [Object.prototype]
      ([Object_prototype_names]): where the engine tests or reads a property
      under a name taken from the data, the test and the read see them
      ([has_prop], [read_prop]).  The names a descriptor gives, its key and
      its identity field, and the names [id] and [name] that the page reads
      are read among the own properties ([get_prop]): none of the registry is
      an inherited one ([registry_names_own]).
    - [undefined], the result of reading a property that is absent, is [None].
    - [String(v)], and the conversion of [v] to the text of a DOM node, throw
      on an object with a [toString] property of its own
      ([String_throws]).  [to_String], [indexById] and [entityCompare] give
      the result when no conversion throws; [index_throws] says when one
      does, and [compareSection] and the page then give [None].
    - A JS [Map] is an association list in insertion order: [Map.set] on a key
      already present replaces the value and keeps the key's position.
    - Where the engine iterates a collection with [for ... of] and reads a
      property of each item, the value must be an array of objects (the
      [object[]] of the JSDoc); on any other value the model returns [None],
      as it does where the code throws.
    - The clock read by [compare] is a parameter.
    - An [async] function is a tree of the calls it awaits ([Prog]); it is run
      against surroundings that answer each call, whatever happened before,
      and the run records the calls with their answers.  A callback that is
      given is one of the calls.
    - The report page is the tree of the DOM nodes it builds ([Node]);
      rendering that throws gives [None].  Where the page enumerates the
      properties of an object, the order is that of the list. *)

From Stdlib Require Import ZArith NArith Ascii String List.
From Stdlib Require Import DecimalString DecimalZ.
From stdpp Require Import base option list sorting strings.

Local Open Scope Z_scope.
Local Open Scope nat_scope.

(** ** JSON values *)

#[warnings="-register-all"]
Inductive value : Type :=
| VNull
| VBool (b : bool)
| VNum (n : Z)
| VStr (s : string)
| VArr (items : list value)
| VObj (props : list (string * value)).

(** A record is the property list of a plain object. *)
Definition record : Type := list (string * value).

(** [Object.keys(o)]. *)
Definition Object_keys (o : record) : list string := map fst o.

(** The first binding of [k] in an association list. *)
Fixpoint assoc {A : Type} (l : list (string * A)) (k : string) : option A :=
  match l with
  | [] => None
  | (k', v) :: l' => if String.eqb k k' then Some v else assoc l' k
  end.

(** [o[k]] for a name [k] that no object inherits: [None] stands for
    [undefined] (the property is absent). *)
Definition get_prop (o : record) (k : string) : option value := assoc o k.

(** The names every object inherits from [Object.prototype]. *)
Definition Object_prototype_names : list string :=
  [ "constructor"; "__defineGetter__"; "__defineSetter__"; "hasOwnProperty";
    "__lookupGetter__"; "__lookupSetter__"; "isPrototypeOf";
    "propertyIsEnumerable"; "toString"; "valueOf"; "__proto__"; "toLocaleString" ].

Definition inherited (k : string) : bool :=
  bool_decide (k ∈ Object_prototype_names).

(** [k in o]: [k] names an own property of [o], or one that [o] inherits. *)
Definition has_prop (o : record) (k : string) : bool :=
  match get_prop o k with Some _ => true | None => inherited k end.

(** What a property holds: the value of an own property, or, under a name
    that is inherited and not overridden, the member of [Object.prototype]
    of that name, which is a function, or [Object.prototype] itself under
    [__proto__]. *)
Inductive member : Type :=
| Data (v : value)
| Inherited (name : string).

(** [o[k]] for any name [k]; [None] stands for [undefined]. *)
Definition read_prop (o : record) (k : string) : option member :=
  match get_prop o k with
  | Some v => Some (Data v)
  | None => if inherited k then Some (Inherited k) else None
  end.

(** Objects parsed from JSON carry each key once, at every depth. *)
Fixpoint wf_value (v : value) : Prop :=
  match v with
  | VArr items => (fix all (l : list value) : Prop :=
                     match l with [] => True | x :: l' => wf_value x /\ all l' end) items
  | VObj props => NoDup (map fst props) /\
                  (fix all (l : list (string * value)) : Prop :=
                     match l with [] => True | (_, x) :: l' => wf_value x /\ all l' end) props
  | _ => True
  end.

(** Induction on values, with the hypothesis on every item of an array
    and on every property value of an object. *)
Section value_induction.
Variable P : value → Prop.
Hypothesis Hnull : P VNull.
Hypothesis Hbool : ∀ b, P (VBool b).
Hypothesis Hnum : ∀ n, P (VNum n).
Hypothesis Hstr : ∀ s, P (VStr s).
Hypothesis Harr : ∀ items, Forall P items → P (VArr items).
Hypothesis Hobj : ∀ props, Forall (λ p, P p.2) props → P (VObj props).

Fixpoint value_nested_ind (v : value) : P v :=
  match v with
  | VNull => Hnull
  | VBool b => Hbool b
  | VNum n => Hnum n
  | VStr s => Hstr s
  | VArr items =>
      Harr items
        ((fix go (l : list value) : Forall P l :=
            match l with
            | [] => List.Forall_nil _
            | x :: l' => @List.Forall_cons _ P x l' (value_nested_ind x) (go l')
            end) items)
  | VObj props =>
      Hobj props
        ((fix go (l : list (string * value)) : Forall (λ p, P p.2) l :=
            match l with
            | [] => List.Forall_nil _
            | p :: l' => @List.Forall_cons _ (λ p, P p.2) p l' (value_nested_ind p.2) (go l')
            end) props)
  end.
End value_induction.

(** ** [JSON.stringify] on primitives *)

Definition dquote : ascii := "034"%char.
Definition backslash : ascii := "092"%char.

Definition str1 (c : ascii) : string := String c EmptyString.
Definition str2 (c d : ascii) : string := String c (String d EmptyString).

Definition hex_digit (n : N) : ascii :=
  match n with
  | 0 => "0" | 1 => "1" | 2 => "2" | 3 => "3" | 4 => "4" | 5 => "5"
  | 6 => "6" | 7 => "7" | 8 => "8" | 9 => "9" | 10 => "a" | 11 => "b"
  | 12 => "c" | 13 => "d" | 14 => "e" | _ => "f"
  end%N%char.

(** One code unit of a quoted JSON string (QuoteJSONString). *)
Definition json_escape_char (c : ascii) : string :=
  let n := N_of_ascii c in
  if (n =? 34)%N then str2 backslash dquote
  else if (n =? 92)%N then str2 backslash backslash
  else if (n =? 8)%N then str2 backslash "b"
  else if (n =? 9)%N then str2 backslash "t"
  else if (n =? 10)%N then str2 backslash "n"
  else if (n =? 12)%N then str2 backslash "f"
  else if (n =? 13)%N then str2 backslash "r"
  else if (n <? 32)%N then
    String backslash (String "u" (String "0" (String "0"
      (str2 (hex_digit (n / 16)) (hex_digit (n mod 16))))))
  else str1 c.

Fixpoint json_escape (s : string) : string :=
  match s with
  | EmptyString => EmptyString
  | String c s' => json_escape_char c +:+ json_escape s'
  end.

(** [JSON.stringify(s)] for a string [s]. *)
Definition json_quote (s : string) : string :=
  String dquote (json_escape s +:+ str1 dquote).

(** The decimal text of an integer-valued number. *)
Definition number_to_string (n : Z) : string :=
  NilEmpty.string_of_int (Z.to_int n).

(** [JSON.stringify(v)] when [v === null || typeof v !== 'object']. *)
Definition JSON_stringify_prim (v : value) : string :=
  match v with
  | VNull => "null"
  | VBool true => "true"
  | VBool false => "false"
  | VNum n => number_to_string n
  | VStr s => json_quote s
  | _ => EmptyString
  end.

(** ** Canonical serialisation *)

(** [Array.prototype.sort()] on strings, and [join]. *)
Definition sort_strings (l : list string) : list string := merge_sort String.le l.

Definition join (sep : string) (l : list string) : string := String.concat sep l.

(** One [key:value] pair of a canonical object, the property values being
    already canonicalized. *)
Definition canonical_pair (cprops : list (string * string)) (k : string) : string :=
  json_quote k +:+ ":" +:+
  match assoc cprops k with
  | Some c => c
  | None => EmptyString
  end.

(** [canonicalize(value)], the same function in both strategy modules. *)
Fixpoint canonicalize (v : value) : string :=
  match v with
  | VArr items =>
      let items' := sort_strings (map canonicalize items) in
      "[" +:+ join "," items' +:+ "]"
  | VObj props =>
      let keys := sort_strings (Object_keys props) in
      let cprops := map (fun p => (p.1, canonicalize p.2)) props in
      "{" +:+ join "," (map (canonical_pair cprops) keys) +:+ "}"
  | _ => JSON_stringify_prim v
  end.

(** ** Strict equality, [typeof] and [valuesEqual] *)

Inductive js_type : Type := TBoolean | TNumber | TString | TObject.

Definition typeof (v : value) : js_type :=
  match v with
  | VBool _ => TBoolean
  | VNum _ => TNumber
  | VStr _ => TString
  | VNull | VArr _ | VObj _ => TObject
  end.

Definition js_type_eqb (s t : js_type) : bool :=
  match s, t with
  | TBoolean, TBoolean | TNumber, TNumber | TString, TString | TObject, TObject => true
  | _, _ => false
  end.

Definition is_null (v : value) : bool :=
  match v with VNull => true | _ => false end.

(** [a === b].  On two arrays or objects [===] is identity of reference, which
    a value does not carry: the model answers [false] there, and
    [valuesEqual] then compares the canonical forms, which agree whenever
    the two references are the same. *)
Definition strict_equal (a b : value) : bool :=
  match a, b with
  | VNull, VNull => true
  | VBool x, VBool y => Bool.eqb x y
  | VNum x, VNum y => Z.eqb x y
  | VStr x, VStr y => String.eqb x y
  | _, _ => false
  end.

Definition valuesEqual (a b : value) : bool :=
  if strict_equal a b then true
  else if is_null a || is_null b then false
  else if negb (js_type_eqb (typeof a) (typeof b)) then false
  else if js_type_eqb (typeof a) TObject
       then String.eqb (canonicalize a) (canonicalize b)
  else false.

(** ** Insertion-ordered maps ([Map]) *)

Definition jsmap (V : Type) : Type := list (string * V).

Definition map_get {V : Type} (m : jsmap V) (k : string) : option V := assoc m k.

Definition map_has {V : Type} (m : jsmap V) (k : string) : bool :=
  match assoc m k with Some _ => true | None => false end.

(** [m.set(k, v)]: a key already present keeps its position. *)
Fixpoint map_set {V : Type} (m : jsmap V) (k : string) (v : V) : jsmap V :=
  match m with
  | [] => [(k, v)]
  | (k', v') :: m' =>
      if String.eqb k k' then (k', v) :: m' else (k', v') :: map_set m' k v
  end.

(** ** [String(v)] *)

(** [String(v)] throws a [TypeError]: the conversion of an object calls its
    [toString], and an own property of that name, which holds a value and no
    function, hides the inherited one; the conversion of an array converts
    its items, [null] apart. *)
Fixpoint String_throws (v : value) : bool :=
  match v with
  | VObj props => bool_decide ("toString" ∈ map fst props)
  | VArr items => existsb String_throws items
  | _ => false
  end.

(** [String(v)], for a value on which the conversion does not throw. *)
Fixpoint to_String (v : value) : string :=
  match v with
  | VNull => "null"
  | VBool true => "true"
  | VBool false => "false"
  | VNum n => number_to_string n
  | VStr s => s
  | VArr items =>
      join "," (map (fun x => match x with VNull => EmptyString | _ => to_String x end) items)
  | VObj _ => "[object Object]"
  end.

(** ** Entity strategy *)

Record PropertyDiff : Type := mkPropertyDiff {
  property : string;
  pd_saved : option member;
  pd_current : option member }.

Record MatchedEntity : Type := mkMatched {
  m_id : string;
  differences : list PropertyDiff }.

Record IdEntity : Type := mkIdEntity {
  e_id : string;
  e_entity : record }.

Record EntitySummary : Type := mkEntitySummary {
  sum_missing : nat;
  sum_extra : nat;
  sum_changed : nat;
  sum_inSync : nat }.

Record EntityDiffResult : Type := mkEntityResult {
  r_missing : list IdEntity;
  r_extra : list IdEntity;
  r_matched : list MatchedEntity;
  r_summary : EntitySummary }.

(** The body of the loop of [indexById]. *)
Definition index_step (idField : string) (m : jsmap record) (item : record) : jsmap record :=
  match get_prop item idField with
  | None | Some VNull => m
  | Some id => map_set m (to_String id) item
  end.

Definition indexById (arr : list record) (idField : string) : jsmap record :=
  fold_left (index_step idField) arr [].

(** The loop of [indexById] throws: [String(id)] throws for the id of some
    item.  [indexById] above is the index when the loop does not throw. *)
Definition index_throws (idField : string) (arr : list record) : bool :=
  existsb (λ item, match get_prop item idField with
                   | Some id => String_throws id
                   | None => false
                   end) arr.

(** [new Set(xs)]: [add] keeps the first occurrence of each element. *)
Definition set_add (s : list string) (x : string) : list string :=
  if bool_decide (x ∈ s) then s else s ++ [x].

Definition Set_from (xs : list string) : list string := fold_left set_add xs [].

Definition set_has (s : list string) (x : string) : bool := bool_decide (x ∈ s).

(** [valuesEqual(a, b)] on what two property reads give.  [typeof],
    identity and the canonical form of what a read gives: a function has
    the type [function] and [Object.prototype], an object without
    enumerable property, the canonical form of the empty object. *)
Definition read_typeof (x : option member) : string :=
  match x with
  | None => "undefined"
  | Some (Data v) =>
      match typeof v with
      | TBoolean => "boolean"
      | TNumber => "number"
      | TString => "string"
      | TObject => "object"
      end
  | Some (Inherited name) => if String.eqb name "__proto__" then "object" else "function"
  end.

Definition read_identical (a b : option member) : bool :=
  match a, b with
  | None, None => true
  | Some (Data x), Some (Data y) => strict_equal x y
  | Some (Inherited m), Some (Inherited n) => String.eqb m n
  | _, _ => false
  end.

Definition read_is_null (x : option member) : bool :=
  match x with Some (Data VNull) => true | _ => false end.

Definition read_canonicalize (x : option member) : string :=
  match x with
  | Some (Data v) => canonicalize v
  | _ => "{}"
  end.

Definition valuesEqual_read (a b : option member) : bool :=
  if read_identical a b then true
  else if read_is_null a || read_is_null b then false
  else if negb (String.eqb (read_typeof a) (read_typeof b)) then false
  else if String.eqb (read_typeof a) "object"
       then String.eqb (read_canonicalize a) (read_canonicalize b)
  else false.

(** The body of the loop of [diffProperties]. *)
Definition diff_step (saved current : record) (idField : string)
    (excludeKeys : list string) (diffs : list PropertyDiff) (key : string)
    : list PropertyDiff :=
  if String.eqb key idField || set_has excludeKeys key then diffs
  else
    let inSaved := has_prop saved key in
    let inCurrent := has_prop current key in
    if inSaved && negb inCurrent
    then diffs ++ [mkPropertyDiff key (read_prop saved key) None]
    else if negb inSaved && inCurrent
    then diffs ++ [mkPropertyDiff key None (read_prop current key)]
    else if negb (valuesEqual_read (read_prop saved key) (read_prop current key))
    then diffs ++ [mkPropertyDiff key (read_prop saved key) (read_prop current key)]
    else diffs.

Definition diffProperties (saved current : record) (idField : string)
    (excludeKeys : list string) : list PropertyDiff :=
  let allKeys := sort_strings (Set_from (Object_keys saved ++ Object_keys current)) in
  fold_left (diff_step saved current idField excludeKeys) allKeys [].

(** Phase 1: the entries of [m] whose id the other index lacks. *)
Definition presence_step (other : jsmap record) (out : list IdEntity)
    (entry : string * record) : list IdEntity :=
  if negb (map_has other entry.1) then out ++ [mkIdEntity entry.1 entry.2] else out.

(** Phase 2: the state is [(matched, changedCount, inSyncCount)]. *)
Definition match_step (currentMap : jsmap record) (idField : string)
    (excludeKeys : list string) (st : list MatchedEntity * nat * nat)
    (entry : string * record) : list MatchedEntity * nat * nat :=
  let '(matched, changedCount, inSyncCount) := st in
  match map_get currentMap entry.1 with
  | None => st
  | Some currentEntity =>
      let differences := diffProperties entry.2 currentEntity idField excludeKeys in
      if 0 <? length differences
      then (matched ++ [mkMatched entry.1 differences], S changedCount, inSyncCount)
      else (matched ++ [mkMatched entry.1 differences], changedCount, S inSyncCount)
  end.

Definition entityCompare (savedArr currentArr : list record) (idField : string)
    (excludeKeys : list string) : EntityDiffResult :=
  let savedMap := indexById savedArr idField in
  let currentMap := indexById currentArr idField in
  let missing := fold_left (presence_step currentMap) savedMap [] in
  let extra := fold_left (presence_step savedMap) currentMap [] in
  let '(matched, changedCount, inSyncCount) :=
    fold_left (match_step currentMap idField excludeKeys) savedMap ([], 0, 0) in
  {| r_missing := missing;
     r_extra := extra;
     r_matched := matched;
     r_summary := {| sum_missing := length missing;
                     sum_extra := length extra;
                     sum_changed := changedCount;
                     sum_inSync := inSyncCount |} |}.

(** Building the two indexes, the first thing [entityCompare] and
    [compareChildren] do, throws; [entityCompare] above is the result when it
    does not. *)
Definition indexes_throw (savedArr currentArr : list record) (idField : string) : bool :=
  index_throws idField savedArr || index_throws idField currentArr.

(** ** Flat strategy *)

Record bucket : Type := mkBucket {
  count : nat;
  b_value : value }.

Record FlatSummary : Type := mkFlatSummary {
  fsum_missing : nat;
  fsum_extra : nat }.

Record FlatDiffResult : Type := mkFlatResult {
  f_missing : list value;
  f_extra : list value;
  f_summary : FlatSummary }.

(** [map.get(key).count++]. *)
Fixpoint map_bump (m : jsmap bucket) (k : string) : jsmap bucket :=
  match m with
  | [] => []
  | (k', b) :: m' =>
      if String.eqb k k' then (k', mkBucket (S (count b)) (b_value b)) :: m'
      else (k', b) :: map_bump m' k
  end.

Definition multiset_step (m : jsmap bucket) (item : value) : jsmap bucket :=
  let key := canonicalize item in
  if map_has m key then map_bump m key else map_set m key (mkBucket 1 item).

Definition buildMultiset (arr : list value) : jsmap bucket :=
  fold_left multiset_step arr [].

(** One round of either loop of [flatCompare]: [count - otherCount] copies of
    the representative, none when the difference is not positive. *)
Definition surplus_step (other : jsmap bucket) (out : list value)
    (entry : string * bucket) : list value :=
  let otherCount := match map_get other entry.1 with
                    | Some b => count b
                    | None => 0
                    end in
  out ++ replicate (count entry.2 - otherCount) (b_value entry.2).

Definition flatCompare (savedArr currentArr : list value) : FlatDiffResult :=
  let savedMultiset := buildMultiset savedArr in
  let currentMultiset := buildMultiset currentArr in
  let missing := fold_left (surplus_step currentMultiset) savedMultiset [] in
  let extra := fold_left (surplus_step savedMultiset) currentMultiset [] in
  {| f_missing := missing;
     f_extra := extra;
     f_summary := {| fsum_missing := length missing; fsum_extra := length extra |} |}.

(** ** Registry *)

Inductive strategy : Type := Entity | Flat.

(** An [EntityConfig]; [children] absent is the empty list, which the engine
    does not tell apart. *)
#[warnings="-register-all"]
Inductive EntityConfig : Type := mkConfig {
  key : string;
  label : string;
  strat : strategy;
  idField : option string;
  children : list EntityConfig }.

(** Induction on descriptors, with the hypothesis on every child. *)

Section config_induction.
Variable P : EntityConfig → Prop.
Hypothesis Hcfg : ∀ k l s i cs, Forall P cs → P (mkConfig k l s i cs).

Fixpoint config_nested_ind (c : EntityConfig) : P c :=
  match c with
  | mkConfig k l s i cs =>
      Hcfg k l s i cs
        ((fix go (l : list EntityConfig) : Forall P l :=
            match l with
            | [] => List.Forall_nil _
            | x :: l' => @List.Forall_cons _ P x l' (config_nested_ind x) (go l')
            end) cs)
  end.
End config_induction.

Definition entity (k l : string) (cs : list EntityConfig) : EntityConfig :=
  mkConfig k l Entity (Some "id") cs.

Definition registry : list EntityConfig :=
  [ entity "namespaceConfig" "Namespace Configuration" [];
    entity "tasks" "Scheduled Tasks" [];
    entity "webApplications" "Web Applications" [];
    entity "sqlConnections" "SQL Gateway Connections" [];
    entity "users" "Users" [];
    entity "roles" "Roles" [];
    entity "resources" "Resources" [];
    entity "ssl" "Ssl Configurations" [];
    entity "namespaces" "Namespaces"
      [ entity "classes" "Classes" [];
        entity "globals" "Globals" [];
        entity "credentials" "Credentials" [];
        entity "productionItems" "Production Items" [];
        mkConfig "lookups" "Lookup Tables" Flat None [] ] ].

(** ** Sections and the report *)

Inductive SectionData : Type :=
| EntityData (r : EntityDiffResult)
| FlatData (r : FlatDiffResult).

(** A section: [sec_data] holds the [summary], [missing], [extra] (and
    [matched]) copied from the strategy's result; the strategy tag is its
    constructor.  [childSections] is [None] for [null] and for a flat
    section, which has no such field. *)
#[warnings="-register-all"]
Inductive Section : Type := mkSection {
  sec_key : string;
  sec_label : string;
  sec_data : SectionData;
  childSections : option (list Section);
  totalDifferences : nat;
  parentId : option string;
  parentLabel : option string }.

Record Report : Type := mkReport {
  timestamp : string;
  rep_totalDifferences : nat;
  sections : list Section }.

(** ** Reading a collection *)

Definition truthy (v : value) : bool :=
  match v with
  | VNull => false
  | VBool b => b
  | VNum n => negb (n =? 0)%Z
  | VStr EmptyString => false
  | _ => true
  end.

(** [x || []], for [x] a property that may be absent. *)
Definition or_empty_array (x : option value) : value :=
  match x with
  | Some v => if truthy v then v else VArr []
  | None => VArr []
  end.

(** The items of an array; no other value is iterated. *)
Definition as_array (v : value) : option (list value) :=
  match v with VArr items => Some items | _ => None end.

Definition as_object (v : value) : option record :=
  match v with VObj o => Some o | _ => None end.

(** An array of objects, as the entity strategy reads it. *)
Definition as_records (v : value) : option (list record) :=
  items ← as_array v; mapM as_object items.

(** A loop whose body may stop the computation. *)
Definition fold_leftM {A B : Type} (f : A → B → option A) : list B → A → option A :=
  fix go (l : list B) (a : A) : option A :=
    match l with
    | [] => Some a
    | b :: l' => a' ← f a b; go l' a'
    end.

(** ** The engine *)

Definition getChildKeys (config : EntityConfig) : list string :=
  match children config with
  | [] => []
  | cs => Set_from (map key cs)
  end.

Definition buildFlatSection (config : EntityConfig) (savedArr currentArr : list value)
    : Section :=
  let result := flatCompare savedArr currentArr in
  let sectionDiffs := fsum_missing (f_summary result) + fsum_extra (f_summary result) in
  {| sec_key := key config;
     sec_label := label config;
     sec_data := FlatData result;
     childSections := None;
     totalDifferences := sectionDiffs;
     parentId := None;
     parentLabel := None |}.

(** [indexBy(arr, field)] of the engine, which throws as [indexById] does;
    an absent [field] reads the property named by the text of [undefined]. *)
Definition indexBy (arr : list record) (field : option string) : jsmap record :=
  fold_left (index_step (default "undefined" field)) arr [].

Definition tag_parent (s : Section) (pid plabel : string) : Section :=
  {| sec_key := sec_key s;
     sec_label := sec_label s;
     sec_data := sec_data s;
     childSections := childSections s;
     totalDifferences := totalDifferences s;
     parentId := Some pid;
     parentLabel := Some plabel |}.

(** The inner loop of [compareChildren], over the child descriptors, for one
    matched parent; the state is [(sections, totalChildDifferences)].  [rec]
    stands for [compareSection], which calls [compareChildren] and is called
    back here. *)
Definition child_step (rec : EntityConfig → value → value → option Section)
    (parentConfig : EntityConfig) (parentId : string) (savedParent currentParent : record)
    (st : list Section * nat) (childConfig : EntityConfig) : option (list Section * nat) :=
  let savedChildArr := or_empty_array (get_prop savedParent (key childConfig)) in
  let currentChildArr := or_empty_array (get_prop currentParent (key childConfig)) in
  childSection ← rec childConfig savedChildArr currentChildArr;
  let childSection := tag_parent childSection parentId (label parentConfig) in
  Some (st.1 ++ [childSection], st.2 + totalDifferences childSection).

(** The outer loop, over the matched parents. *)
Definition parent_step (rec : EntityConfig → value → value → option Section)
    (parentConfig : EntityConfig) (savedIndex currentIndex : jsmap record)
    (st : list Section * nat) (m : MatchedEntity) : option (list Section * nat) :=
  let parentId := m_id m in
  let savedParent := default [] (map_get savedIndex parentId) in
  let currentParent := default [] (map_get currentIndex parentId) in
  fold_leftM (child_step rec parentConfig parentId savedParent currentParent)
    (children parentConfig) st.

Definition compareChildren (rec : EntityConfig → value → value → option Section)
    (parentConfig : EntityConfig) (parentResult : EntityDiffResult)
    (savedArr currentArr : list record) : option (list Section * nat) :=
  if indexes_throw savedArr currentArr (default "undefined" (idField parentConfig))
  then None
  else
    let savedIndex := indexBy savedArr (idField parentConfig) in
    let currentIndex := indexBy currentArr (idField parentConfig) in
    fold_leftM (parent_step rec parentConfig savedIndex currentIndex)
      (r_matched parentResult) ([], 0).

Fixpoint compareSection (config : EntityConfig) (savedArr currentArr : value)
    {struct config} : option Section :=
  match strat config with
  | Flat =>
      savedItems ← as_array savedArr;
      currentItems ← as_array currentArr;
      Some (buildFlatSection config savedItems currentItems)
  | Entity =>
      savedRecs ← as_records savedArr;
      currentRecs ← as_records currentArr;
      if indexes_throw savedRecs currentRecs (default "id" (idField config))
      then None
      else
        let result := entityCompare savedRecs currentRecs
                        (default "id" (idField config)) (getChildKeys config) in
        childSections ←
          match children config with
          | [] => Some None
          | _ :: _ =>
              Some <$> compareChildren compareSection config result savedRecs currentRecs
          end;
        let sectionDiffs :=
          sum_missing (r_summary result) + sum_extra (r_summary result)
          + sum_changed (r_summary result)
          + match childSections with Some c => c.2 | None => 0 end in
        Some {| sec_key := key config;
                sec_label := label config;
                sec_data := EntityData result;
                childSections := fst <$> childSections;
                totalDifferences := sectionDiffs;
                parentId := None;
                parentLabel := None |}
  end.

(** The body of the loop of [compare]; the state is
    [(sections, totalDifferences)]. *)
Definition compare_step (saved current : record) (st : list Section * nat)
    (config : EntityConfig) : option (list Section * nat) :=
  let savedArr := or_empty_array (get_prop saved (key config)) in
  let currentArr := or_empty_array (get_prop current (key config)) in
  section ← compareSection config savedArr currentArr;
  Some (st.1 ++ [section], st.2 + totalDifferences section).

(** [compare] over a given registry; [now] is the text of the clock reading
    [new Date().toISOString()]. *)
Definition compare_in (reg : list EntityConfig) (now : string) (saved current : record)
    : option Report :=
  st ← fold_leftM (compare_step saved current) reg ([], 0);
  Some {| timestamp := now; rep_totalDifferences := st.2; sections := st.1 |}.

Definition compare (now : string) (saved current : record) : option Report :=
  compare_in registry now saved current.

(** An object with an id and nothing else. *)
Definition obj_id (i : string) : value := VObj [("id", VStr i)].

(** * Vocabulary of the specification *)

(** The stringified id of a record that carries a non-null [idField]. *)
Definition record_id (idField : string) (item : record) : option string :=
  match get_prop item idField with
  | None | Some VNull => None
  | Some id => Some (to_String id)
  end.

(** The ids that occur in an array, in array order, with repetitions. *)
Definition ids_of (idField : string) (arr : list record) : list string :=
  omap (record_id idField) arr.

(** What [diffProperties] reports for one property name, if anything. *)
Definition diff_of (saved current : record) (idField : string)
    (excludeKeys : list string) (key : string) : option PropertyDiff :=
  if String.eqb key idField || set_has excludeKeys key then None
  else
    match read_prop saved key, read_prop current key with
    | Some vs, None => Some (mkPropertyDiff key (Some vs) None)
    | None, Some vc => Some (mkPropertyDiff key None (Some vc))
    | Some vs, Some vc =>
        if valuesEqual_read (Some vs) (Some vc) then None
        else Some (mkPropertyDiff key (Some vs) (Some vc))
    | None, None => None
    end.

(** The entry of [matched] for one entry of the saved index, if its id is in
    the current index too. *)
Definition matched_of (currentMap : jsmap record) (idField : string)
    (excludeKeys : list string) (entry : string * record) : option MatchedEntity :=
  match map_get currentMap entry.1 with
  | Some currentEntity =>
      Some (mkMatched entry.1 (diffProperties entry.2 currentEntity idField excludeKeys))
  | None => None
  end.

(** A matched entity is changed when it has at least one difference. *)
Definition is_changed (m : MatchedEntity) : bool := 0 <? length (differences m).

Definition count_changed (ms : list MatchedEntity) : nat :=
  length (List.filter is_changed ms).

Definition count_inSync (ms : list MatchedEntity) : nat :=
  length (List.filter (λ m, negb (is_changed m)) ms).

(** The entries of [m] whose key the map [other] lacks. *)
Definition absent_from {V : Type} (other : jsmap V) (m : jsmap record) : list IdEntity :=
  map (λ e, mkIdEntity e.1 e.2) (List.filter (λ e, negb (map_has other e.1)) m).

(** The position of the first, and of the last, entry [Some k] of a list. *)
Fixpoint first_index (os : list (option string)) (k : string) : option nat :=
  match os with
  | [] => None
  | o :: os' => if bool_decide (o = Some k) then Some 0 else S <$> first_index os' k
  end.

Fixpoint last_index (os : list (option string)) (k : string) : option nat :=
  match os with
  | [] => None
  | o :: os' =>
      match last_index os' k with
      | Some i => Some (S i)
      | None => if bool_decide (o = Some k) then Some 0 else None
      end
  end.

(** The position in [arr] of the first, and of the last, record with id [k]. *)
Definition first_position (idField : string) (arr : list record) (k : string)
    : option nat :=
  first_index (map (record_id idField) arr) k.

Definition last_position (idField : string) (arr : list record) (k : string)
    : option nat :=
  last_index (map (record_id idField) arr) k.

(** [ks] lists ids by increasing position. *)
Definition pos_lt (pos : string → option nat) (k1 k2 : string) : Prop :=
  ∃ p1 p2, pos k1 = Some p1 ∧ pos k2 = Some p2 ∧ p1 < p2.

Definition ordered_by (pos : string → option nat) (ks : list string) : Prop :=
  StronglySorted (pos_lt pos) ks.

(** How many items of [arr] have the canonical form [k], and the first of
    them. *)
Definition key_count (k : string) (arr : list value) : nat :=
  length (filter (λ x, canonicalize x = k) arr).

Definition representative (k : string) (arr : list value) : option value :=
  head (filter (λ x, canonicalize x = k) arr).

(** What one entry of a multiset contributes to [missing] or [extra]. *)
Definition surplus_of (other : jsmap bucket) (entry : string * bucket) : list value :=
  replicate
    (count entry.2 - match map_get other entry.1 with Some b => count b | None => 0 end)
    (b_value entry.2).

(** The differences a section counts for itself. *)
Definition direct_differences (s : Section) : nat :=
  match sec_data s with
  | EntityData r => length (r_missing r) + length (r_extra r) + count_changed (r_matched r)
  | FlatData r => length (f_missing r) + length (f_extra r)
  end.

Definition sum_totals (ss : list Section) : nat := sum_list_with totalDifferences ss.

(** [totalDifferences] is the section's own count plus the totals of its
    child sections, at every depth. *)
Fixpoint total_consistent (s : Section) : Prop :=
  match childSections s with
  | Some cs =>
      totalDifferences s = direct_differences s + sum_totals cs
      ∧ (fix all (l : list Section) : Prop :=
           match l with [] => True | c :: l' => total_consistent c ∧ all l' end) cs
  | None => totalDifferences s = direct_differences s
  end.

(** The child section of one matched parent for one child descriptor. *)
Definition child_section (rec : EntityConfig → value → value → option Section)
    (parentConfig : EntityConfig) (savedIndex currentIndex : jsmap record)
    (m : MatchedEntity) (childConfig : EntityConfig) : option Section :=
  let savedParent := default [] (map_get savedIndex (m_id m)) in
  let currentParent := default [] (map_get currentIndex (m_id m)) in
  s ← rec childConfig (or_empty_array (get_prop savedParent (key childConfig)))
                      (or_empty_array (get_prop currentParent (key childConfig)));
  Some (tag_parent s (m_id m) (label parentConfig)).

(** The names under which the records of a descriptor are indexed: the id
    field, [id] when the descriptor has none; and, when the descriptor has
    children, the name [compareChildren] indexes the parents by. *)
Definition indexed_fields (config : EntityConfig) : list string :=
  default "id" (idField config)
  :: match children config with
     | [] => []
     | _ :: _ => [default "undefined" (idField config)]
     end.

(** A collection is well formed for a descriptor: an array for the flat
    strategy; for the entity strategy an array of objects whose ids can be
    stringified, in each of which the collection under every child key, when
    there is one, is well formed for the child descriptor. *)
Fixpoint well_formed (config : EntityConfig) (v : value) : bool :=
  match strat config with
  | Flat => match as_array v with Some _ => true | None => false end
  | Entity =>
      match as_records v with
      | Some recs =>
          forallb (λ f, negb (index_throws f recs)) (indexed_fields config)
          && forallb (λ r,
               forallb (λ c, well_formed c (or_empty_array (get_prop r (key c))))
                 (children config)) recs
      | None => false
      end
  end.

(** A snapshot is well formed when the collection under every key of the
    registry, when there is one, is well formed. *)
Definition wf_snapshot (reg : list EntityConfig) (snapshot : record) : bool :=
  forallb (λ c, well_formed c (or_empty_array (get_prop snapshot (key c)))) reg.

(** Two results that report the same entities, in whatever order. *)
Definition same_entities (R R' : EntityDiffResult) : Prop :=
  r_missing R ≡ₚ r_missing R' ∧ r_extra R ≡ₚ r_extra R'
  ∧ r_matched R ≡ₚ r_matched R' ∧ r_summary R = r_summary R'.

(** [reorder a b]: [b] is [a] with the elements of any array within it
    permuted and the properties of any object within it listed in another
    order. *)
#[warnings="-register-all"]
Inductive reorder : value → value → Prop :=
| reorder_same v : reorder v v
| reorder_arr l l1 l2 :
    Forall2 reorder l l1 → l1 ≡ₚ l2 → reorder (VArr l) (VArr l2)
| reorder_obj p p1 p2 :
    Forall2 (λ a b, a.1 = b.1 ∧ reorder a.2 b.2) p p1 → p1 ≡ₚ p2 →
    reorder (VObj p) (VObj p2).

(** A value that is neither [null], nor an array, nor an object. *)
Definition is_primitive (v : value) : bool :=
  match v with VBool _ | VNum _ | VStr _ => true | _ => false end.

(** Devices for reading a quoted string and a number back. *)
Definition unhex (c : ascii) : N :=
  match c with
  | "0" => 0 | "1" => 1 | "2" => 2 | "3" => 3 | "4" => 4 | "5" => 5
  | "6" => 6 | "7" => 7 | "8" => 8 | "9" => 9 | "a" => 10 | "b" => 11
  | "c" => 12 | "d" => 13 | "e" => 14 | _ => 15
  end%char%N.

(** Reads back the first code unit of an escaped string and what follows it. *)
Definition unescape_head (s : string) : option (ascii * string) :=
  match s with
  | EmptyString => None
  | String c t =>
      if Ascii.eqb c dquote then None
      else if Ascii.eqb c backslash then
        match t with
        | String d t' =>
            if Ascii.eqb d dquote then Some (dquote, t')
            else if Ascii.eqb d backslash then Some (backslash, t')
            else if Ascii.eqb d "b" then Some ("008"%char, t')
            else if Ascii.eqb d "t" then Some ("009"%char, t')
            else if Ascii.eqb d "n" then Some ("010"%char, t')
            else if Ascii.eqb d "f" then Some ("012"%char, t')
            else if Ascii.eqb d "r" then Some ("013"%char, t')
            else
              match t' with
              | String _ (String _ (String h (String l t''))) =>
                  Some (ascii_of_N (16 * unhex h + unhex l), t'')
              | _ => None
              end
        | EmptyString => None
        end
      else Some (c, t)
  end.

Definition numeric_head (c : ascii) : bool :=
  match c with
  | "-" | "0" | "1" | "2" | "3" | "4" | "5" | "6" | "7" | "8" | "9" => true
  | _ => false
  end%char.

(** * Vocabulary for the further properties *)

(** A difference read from the other side. *)
Definition swap_diff (d : PropertyDiff) : PropertyDiff :=
  mkPropertyDiff (property d) (pd_current d) (pd_saved d).

Definition swap_matched (m : MatchedEntity) : MatchedEntity :=
  mkMatched (m_id m) (map swap_diff (differences m)).

(** Two records agree on a property: both lack it, or both hold values with
    the same canonical form under it; a name that objects inherit, and that
    one of the records alone holds as its own, they agree on only when it
    is [__proto__] and the value held is the empty object. *)
Definition agree_on (a b : record) (k : string) : Prop :=
  match read_prop a k, read_prop b k with
  | Some (Data x), Some (Data y) => canonicalize x = canonicalize y
  | Some (Data x), Some (Inherited n) | Some (Inherited n), Some (Data x) =>
      n = "__proto__" ∧ x = VObj []
  | Some (Inherited _), Some (Inherited _) => True
  | None, None => True
  | _, _ => False
  end.

(** Induction on sections, with the hypothesis on every child section. *)
Section section_induction.
Variable P : Section → Prop.
Hypothesis Hsec : ∀ k l d cs t pi pl,
  match cs with Some l => Forall P l | None => True end →
  P (mkSection k l d cs t pi pl).

Fixpoint section_nested_ind (s : Section) : P s :=
  match s with
  | mkSection k l d cs t pi pl =>
      Hsec k l d cs t pi pl
        match cs as o return match o with Some l => Forall P l | None => True end with
        | Some l =>
            (fix go (l : list Section) : Forall P l :=
               match l with
               | [] => List.Forall_nil _
               | x :: l' => @List.Forall_cons _ P x l' (section_nested_ind x) (go l')
               end) l
        | None => I
        end
  end.
End section_induction.

(** A section reports nothing: its lists are empty, no matched entity has a
    difference, and its child sections, at every depth, report nothing. *)
Fixpoint no_differences (s : Section) : Prop :=
  match sec_data s with
  | EntityData r =>
      r_missing r = [] ∧ r_extra r = [] ∧ Forall (λ m, differences m = []) (r_matched r)
  | FlatData r => f_missing r = [] ∧ f_extra r = []
  end
  ∧ match childSections s with
    | Some cs =>
        (fix all (l : list Section) : Prop :=
           match l with [] => True | c :: l' => no_differences c ∧ all l' end) cs
    | None => True
    end.

(** The strategy a section was built by, and what a section takes from its
    descriptor. *)
Definition section_strategy (s : Section) : strategy :=
  match sec_data s with EntityData _ => Entity | FlatData _ => Flat end.

Definition heads (c : EntityConfig) (s : Section) : Prop :=
  sec_key s = key c ∧ sec_label s = label c ∧ section_strategy s = strat c
  ∧ (childSections s = None ↔ strat c = Flat ∨ children c = []).

(** Where a child section hangs: the id and label of its parent, and its key. *)
Definition placement (s : Section) : option string * option string * string :=
  (parentId s, parentLabel s, sec_key s).

(** ** The report page: [groupBy] *)

(** [groupBy(arr, key)] of the report page: a [Map] from the value read
    under [key] to the array of the items that read it.  [A] is the type of
    the items, [read] the reading of [item[key]] and [K] the type of the
    values read, which the [Map] tells apart by identity. *)
Definition groups_has {A K : Type} `{EqDecision K} (m : list (K * list A)) (k : K) : bool :=
  bool_decide (k ∈ map fst m).

(** [map.get(k).push(item)]: the array under [k] grows in place. *)
Definition groups_push {A K : Type} `{EqDecision K} (m : list (K * list A)) (k : K)
    (item : A) : list (K * list A) :=
  map (λ e, if bool_decide (e.1 = k) then (e.1, e.2 ++ [item]) else e) m.

Definition group_step {A K : Type} `{EqDecision K} (read : A → K)
    (m : list (K * list A)) (item : A) : list (K * list A) :=
  let k := read item in
  let m := if negb (groups_has m k) then m ++ [(k, [])] else m in
  groups_push m k item.

Definition groupBy {A K : Type} `{EqDecision K} (arr : list A) (read : A → K)
    : list (K * list A) :=
  fold_left (group_step read) arr [].

(** The distinct elements of a list, each at its first occurrence. *)
Fixpoint distinct {K : Type} `{EqDecision K} (l : list K) : list K :=
  match l with
  | [] => []
  | x :: l' => x :: filter (λ y, y ≠ x) (distinct l')
  end.

(** ** Bootstrap: making sure the export API is there *)

(** What [tryFetchExport] resolves with, and an [Error], which may carry a
    [webAppUrl]. *)
Record ProbeResult : Type := mkProbe { probe_ok : bool; probe_status : Z }.

Record JsError : Type := mkError { message : string; webAppUrl : option string }.

(** The calls [ensureExportApiAvailable] makes to what surrounds it: its two
    callbacks and the helpers of [api.js].  [tryFetchExport] never rejects; a
    helper that may reject answers with the error it rejects with, if any. *)
Inductive Call : Type → Type :=
| OnStatus (msg : string) : Call unit
| TryFetchExport (baseUrl : string) : Call ProbeResult
| OnRequestConsent : Call bool
| UploadClass (baseUrl : string) : Call (option JsError)
| CompileClass (baseUrl : string) : Call (option JsError)
| ExecuteSetupProcedure (baseUrl : string) : Call (option JsError).

(** An [async] function: it returns, throws, or awaits a call and goes on
    with the answer. *)
Inductive Prog (A : Type) : Type :=
| Ret (a : A)
| Throw (e : JsError)
| Do {X : Type} (c : Call X) (k : X → Prog A).

Arguments Ret {A} a.
Arguments Throw {A} e.
Arguments Do {A X} c k.

Fixpoint prog_bind {A B : Type} (m : Prog A) (f : A → Prog B) : Prog B :=
  match m with
  | Ret a => f a
  | Throw e => Throw e
  | Do c k => Do c (λ x, prog_bind (k x) f)
  end.

#[global] Instance prog_ret : MRet Prog := @Ret.
#[global] Instance prog_mbind : MBind Prog := λ A B f m, prog_bind m f.

Definition call {X : Type} (c : Call X) : Prog X := Do c Ret.

(** [await helper(baseUrl)] for a helper that may reject. *)
Definition await (c : Call (option JsError)) : Prog unit :=
  Do c (λ r, match r with Some e => Throw e | None => Ret tt end).

(** [installFramework(baseUrl, status)].  The texts are in their UTF-8
    bytes. *)
Definition installFramework (baseUrl : string) (status : string → Prog unit) : Prog unit :=
  status "Step 1/3 — Uploading backend class…";;
  await (UploadClass baseUrl);;
  status "Step 2/3 — Compiling backend class…";;
  await (CompileClass baseUrl);;
  status "Step 3/3 — Executing setup procedure…";;
  await (ExecuteSetupProcedure baseUrl);;
  status "Backend framework installation complete.".

(** [ensureExportApiAvailable(baseUrl, onStatus, onRequestConsent)]; the two
    booleans say whether the callback is given.  A callback that is given
    belongs to the surroundings; one that is left out is replaced by the
    default of the source, which does nothing, respectively consents. *)
Definition ensureExportApiAvailable (baseUrl : string)
    (onStatus onRequestConsent : bool) : Prog unit :=
  let status := if onStatus then λ msg, call (OnStatus msg) else λ _, Ret tt in
  let requestConsent := if onRequestConsent then call OnRequestConsent else Ret true in
  status "Checking export API availability…";;
  probeResult ← call (TryFetchExport baseUrl);
  if probe_ok probeResult then Ret tt
  else
    userConsented ← requestConsent;
    if negb userConsented then
      Throw (mkError "Installation cancelled. The export API is required to proceed." None)
    else
      status "Installing backend framework…";;
      installFramework baseUrl status;;
      status "Verifying export API after installation…";;
      retryResult ← call (TryFetchExport baseUrl);
      if negb (probe_ok retryResult) then
        let webAppUrl :=
          baseUrl +:+ "/csp/sys/sec/%25CSP.UI.Portal.Applications.Web.zen"
                  +:+ "?PID=%2Fapi%2Fv1%2Fmigration%2Fframework" in
        Throw (mkError
                 ("Export API still unavailable after installation (HTTP "
                    +:+ number_to_string (probe_status retryResult) +:+ "). "
                    +:+ "Open the web application config page, click Save, then try again.")
                 (Some webAppUrl))
      else Ret tt.

(** A call together with its answer, and the surroundings: what they answer
    to a call, given all that happened before. *)
Inductive Event : Type :=
| EStatus (msg : string)
| EProbe (baseUrl : string) (r : ProbeResult)
| EConsent (b : bool)
| EUpload (baseUrl : string) (r : option JsError)
| ECompile (baseUrl : string) (r : option JsError)
| ESetup (baseUrl : string) (r : option JsError).

Definition event_of {X : Type} (c : Call X) : X → Event :=
  match c with
  | OnStatus msg => λ _, EStatus msg
  | TryFetchExport u => EProbe u
  | OnRequestConsent => EConsent
  | UploadClass u => EUpload u
  | CompileClass u => ECompile u
  | ExecuteSetupProcedure u => ESetup u
  end.

Definition Env : Type := list Event → ∀ X : Type, Call X → X.

Inductive outcome (A : Type) : Type :=
| Returned (a : A)
| Thrown (e : JsError).

Arguments Returned {A} a.
Arguments Thrown {A} e.

(** Running an [async] function in given surroundings: the calls made, with
    their answers, in order, and how the function ends. *)
Fixpoint run {A : Type} (p : Prog A) (env : Env) (tr : list Event)
    : list Event * outcome A :=
  match p with
  | Ret a => (tr, Returned a)
  | Throw e => (tr, Thrown e)
  | Do c k => let x := env tr _ c in run (k x) env (tr ++ [event_of c x])
  end.

(** The helpers that install something, and the error a helper rejected
    with. *)
Definition is_install (e : Event) : bool :=
  match e with
  | EUpload _ _ | ECompile _ _ | ESetup _ _ => true
  | _ => false
  end.

Definition rejected (e : Event) : option JsError :=
  match e with
  | EUpload _ r | ECompile _ r | ESetup _ r => r
  | _ => None
  end.

Definition is_probe (e : Event) : bool :=
  match e with EProbe _ _ => true | _ => false end.

(** The installation steps of a run, in order. *)
Inductive step_kind : Type := Upload | Compile | Setup.

Definition step_of (e : Event) : option step_kind :=
  match e with
  | EUpload _ _ => Some Upload
  | ECompile _ _ => Some Compile
  | ESetup _ _ => Some Setup
  | _ => None
  end.

(** The two errors [ensureExportApiAvailable] throws of its own. *)
Definition cancelled : JsError :=
  mkError "Installation cancelled. The export API is required to proceed." None.

Definition still_unavailable (baseUrl : string) (status : Z) : JsError :=
  mkError
    ("Export API still unavailable after installation (HTTP "
       +:+ number_to_string status +:+ "). "
       +:+ "Open the web application config page, click Save, then try again.")
    (Some (baseUrl +:+ "/csp/sys/sec/%25CSP.UI.Portal.Applications.Web.zen"
                   +:+ "?PID=%2Fapi%2Fv1%2Fmigration%2Fframework")).

(** The server a call goes to, if it goes to one. *)
Definition target (e : Event) : option string :=
  match e with
  | EProbe u _ | EUpload u _ | ECompile u _ | ESetup u _ => Some u
  | _ => None
  end.

(** A server on which the export API answers once the setup procedure has
    run, every helper resolving, and a user who answers [consents]. *)
Definition fresh_server (consents : bool) : Env :=
  λ tr X c,
    match c in Call X return X with
    | OnStatus _ => tt
    | TryFetchExport _ =>
        if existsb (λ e, match e with ESetup _ None => true | _ => false end) tr
        then mkProbe true 200 else mkProbe false 404
    | OnRequestConsent => consents
    | UploadClass _ | CompileClass _ | ExecuteSetupProcedure _ => None
    end.

Definition is_consent (e : Event) : bool :=
  match e with EConsent _ => true | _ => false end.

(** ** The popup: the server of the active tab *)

(** A parsed URL, as [new URL(tab.url)] gives it: the two parts that
    [getActiveTabOrigin] reads. *)
Record URL : Type := mkURL { origin : string; pathname : string }.

(** [s.indexOf(pattern)]. *)
Definition indexOf (s pattern : string) : Z :=
  match index 0 pattern s with
  | Some n => Z.of_nat n
  | None => (-1)%Z
  end.

(** [getActiveTabOrigin()], from the URL of the active tab on; [None] is a
    tab without URL, or no tab. *)
Definition getActiveTabOrigin (tab : option URL) : outcome string :=
  match tab with
  | None => Thrown (mkError "Cannot access the current tab URL." None)
  | Some url =>
      let cspIndex := indexOf (pathname url) "/csp" in
      if (0 <? cspIndex)%Z then
        Returned (origin url +:+ substring 0 (Z.to_nat cspIndex) (pathname url))
      else Returned (origin url)
  end.

(** [pattern] occurs in [s] at position [m]. *)
Definition occurs_at (pattern s : string) (m : nat) : Prop :=
  substring m (String.length pattern) s = pattern.

(** ** The report page: rendering *)

(** A DOM node as the page builds it: an element with its tag, its class
    name, the [open] flag of a [details] element and its children, or a
    text. *)
#[warnings="-register-all"]
Inductive Node : Type :=
| Elem (tag className : string) (is_open : option bool) (children : list Node)
| TextNode (data : string).

(** [document.createElement(tag)] with its [className] and the children
    appended to it. *)
Definition el (tag className : string) (children : list Node) : Node :=
  Elem tag className None children.

(** [node.textContent = s] on a node without children: one text, unless [s]
    is empty. *)
Definition textContent (s : string) : list Node :=
  match s with
  | EmptyString => []
  | _ => [TextNode s]
  end.

Definition newline : string := String "010"%char EmptyString.

(** [JSON.stringify(v)]: the properties of an object come in the order in
    which the object enumerates them, which is the order of the list. *)
Fixpoint JSON_stringify (v : value) : string :=
  match v with
  | VArr items => "[" +:+ join "," (map JSON_stringify items) +:+ "]"
  | VObj props =>
      "{" +:+ join "," (map (fun p => json_quote p.1 +:+ ":" +:+ JSON_stringify p.2) props)
          +:+ "}"
  | _ => JSON_stringify_prim v
  end.

(** [JSON.stringify(v, null, 2)], within the indentation [stepback]. *)
Fixpoint JSON_stringify_indented (stepback : string) (v : value) : string :=
  let indent := stepback +:+ "  " in
  let separator := "," +:+ newline +:+ indent in
  match v with
  | VArr [] => "[]"
  | VArr items =>
      "[" +:+ newline +:+ indent
          +:+ join separator (map (JSON_stringify_indented indent) items)
          +:+ newline +:+ stepback +:+ "]"
  | VObj [] => "{}"
  | VObj props =>
      "{" +:+ newline +:+ indent
          +:+ join separator
                (map (fun p => json_quote p.1 +:+ ": " +:+ JSON_stringify_indented indent p.2)
                   props)
          +:+ newline +:+ stepback +:+ "}"
  | _ => JSON_stringify_prim v
  end.

(** The text of a function of the browser, as [String] gives it in Chrome;
    the name of the function under [constructor] is [Object]. *)
Definition native_function_text (name : string) : string :=
  "function " +:+ (if String.eqb name "constructor" then "Object" else name)
              +:+ "() { [native code] }".

(** [appendValueCell(container, value)]: the children of the cell. *)
Definition appendValueCell (value : option member) : list Node :=
  match value with
  | None => [el "span" "empty" (textContent "—")]
  | Some (Data VNull) => [el "span" "null" (textContent "null")]
  | Some (Data v) =>
      match typeof v with
      | TObject => [el "pre" "" (textContent (JSON_stringify_indented "" v))]
      | _ => textContent (to_String v)
      end
  | Some (Inherited name) =>
      if String.eqb name "__proto__"
      then [el "pre" "" (textContent "{}")]
      else textContent (native_function_text name)
  end.

(** [formatPropValue(value)], for the value of a property that is there. *)
Definition formatPropValue (value : value) : string :=
  match value with
  | VNull => "—"
  | _ =>
      match typeof value with
      | TObject => JSON_stringify value
      | _ => to_String value
      end
  end.

(** [v.k] for a name [k] that no prototype defines: the outer [None] is the
    [TypeError] of reading a property of [null]. *)
Definition read_member (v : value) (k : string) : option (option value) :=
  match v with
  | VNull => None
  | VObj o => Some (get_prop o k)
  | _ => Some None
  end.

Definition truthy_read (x : option value) : bool :=
  match x with
  | Some v => truthy v
  | None => false
  end.

(** [Object.entries(v)] for a value other than [null]: the properties of an
    object, the items of an array and the code units of a string under
    their indices, and nothing for a number or a boolean. *)
Definition Object_entries (v : value) : list (string * value) :=
  match v with
  | VObj o => o
  | VArr items => imap (fun i x => (number_to_string (Z.of_nat i), x)) items
  | VStr s =>
      imap (fun i c => (number_to_string (Z.of_nat i), VStr (str1 c)))
        (list_ascii_of_string s)
  | _ => []
  end.

(** The body of the loop of [renderEntityList]: one card.  Setting
    [textContent] converts the id to a string, and throws where [String]
    does. *)
Definition renderCard (type : string) (idOnly : bool) (entity : value) : option Node :=
  entity_id ← read_member entity "id";
  entity_name ← read_member entity "name";
  let id := if truthy_read entity_id then entity_id
            else if truthy_read entity_name then entity_name
            else Some (VStr "") in
  idEl ←
    (if truthy_read id
     then
       if String_throws (default VNull id) then None
       else Some [el "div" "entity-card-id" (textContent (to_String (default VNull id)))]
     else Some []);
  let propsEl :=
    if idOnly then []
    else [el "dl" "entity-card-props"
            (flat_map (fun kv =>
                         if String.eqb kv.1 "id" then []
                         else [el "dt" "" (textContent kv.1);
                               el "dd" "" (textContent (formatPropValue kv.2))])
               (Object_entries entity))] in
  Some (el "div" ("entity-card " +:+ type) (idEl ++ propsEl)).

(** [renderEntityList(title, type, entities, idOnly)]. *)
Definition renderEntityList (title type : string) (entities : list value) (idOnly : bool)
    : option Node :=
  cards ← mapM (renderCard type idOnly) entities;
  Some (el "div" ("diff-group " +:+ type)
          [ el "h4" ""
              (textContent (title +:+ " (" +:+ number_to_string (Z.of_nat (length entities))
                                  +:+ ")"));
            el "div" "entity-card-list" cards ]).

(** [renderPropertyDiffTable(entity)]. *)
Definition renderPropertyDiffTable (entity : MatchedEntity) : Node :=
  el "div" "prop-diff-block"
    [ el "div" "prop-diff-header" (textContent (m_id entity));
      el "table" "prop-diff-table"
        [ el "thead" ""
            [ el "tr" ""
                (map (fun text => el "th" "" (textContent text))
                   ["Property"; "Saved Value"; "Current Value"]) ];
          el "tbody" ""
            (map (fun diff =>
                    el "tr" ""
                      [ el "td" "prop-name" (textContent (property diff));
                        el "td" "prop-value saved" (appendValueCell (pd_saved diff));
                        el "td" "prop-value current" (appendValueCell (pd_current diff)) ])
               (differences entity)) ] ].

(** [renderFlatBody(body, section)]: the children of the body. *)
Definition renderFlatBody (r : FlatDiffResult) : option (list Node) :=
  missing ←
    (if 0 <? length (f_missing r)
     then b ← renderEntityList "Missing in Current Server" "missing" (f_missing r) false;
          Some [b]
     else Some []);
  extra ←
    (if 0 <? length (f_extra r)
     then b ← renderEntityList "Extra in Current Server" "extra" (f_extra r) false;
          Some [b]
     else Some []);
  Some (missing ++ extra).

(** The block of the child sections in [renderEntityBody]; the child
    sections come with what [renderSection] makes of each.  Rendering being
    without effect, they can be rendered before they are grouped. *)
Definition renderChildSections (rendered : list (Section * option Node))
    : option (list Node) :=
  if 0 <? length rendered then
    blocks ← mapM (fun group : option string * list (Section * option Node) =>
                     children ← mapM snd group.2;
                     Some (el "div" "child-parent-block"
                             (el "h4" "child-parent-header"
                                (textContent ("Namespace: " +:+ default "undefined" group.1))
                              :: children)))
                (groupBy rendered (fun c => parentId c.1));
    Some [el "div" "child-sections" blocks]
  else Some [].

(** [renderEntityBody(body, section)]: the children of the body. *)
Definition renderEntityBody (r : EntityDiffResult)
    (rendered : list (Section * option Node)) : option (list Node) :=
  missing ←
    (if 0 <? length (r_missing r)
     then b ← renderEntityList "Missing in Current Server" "missing"
                (map (fun m => VObj (e_entity m)) (r_missing r)) true;
          Some [b]
     else Some []);
  extra ←
    (if 0 <? length (r_extra r)
     then b ← renderEntityList "Extra in Current Server" "extra"
                (map (fun e => VObj (e_entity e)) (r_extra r)) true;
          Some [b]
     else Some []);
  let changed := List.filter (fun m => 0 <? length (differences m)) (r_matched r) in
  let changedSection :=
    if 0 <? length changed
    then [el "div" "diff-group changed"
            (el "h4" "" (textContent "Changed Properties")
             :: map renderPropertyDiffTable changed)]
    else [] in
  let inSync := List.filter (fun m => length (differences m) =? 0) (r_matched r) in
  let syncEl :=
    if 0 <? length inSync
    then [el "p" "in-sync-msg"
            (textContent
               (number_to_string (Z.of_nat (length inSync)) +:+ " item"
                  +:+ (if negb (length inSync =? 1) then "s" else "")
                  +:+ " in sync: " +:+ join ", " (map m_id inSync)))]
    else [] in
  children ← renderChildSections rendered;
  Some (missing ++ extra ++ changedSection ++ syncEl ++ children).

(** [buildSectionHeader(container, section)]: the children of the header. *)
Definition buildSectionHeader (section : Section) : list Node :=
  [ el "span" "section-label" (textContent (sec_label section));
    TextNode " ";
    if 0 <? totalDifferences section
    then el "span" "section-badge diff"
           (textContent (number_to_string (Z.of_nat (totalDifferences section))))
    else el "span" "section-badge sync" (textContent "✓") ].

(** [renderSection(section)]; [None] when rendering throws. *)
Fixpoint renderSection (section : Section) : option Node :=
  let rendered :=
    match childSections section with
    | Some cs =>
        (fix go (l : list Section) : list (Section * option Node) :=
           match l with
           | [] => []
           | c :: l' => (c, renderSection c) :: go l'
           end) cs
    | None => []
    end in
  body ←
    (if totalDifferences section =? 0
     then Some [el "p" "in-sync-msg" (textContent "All items are in sync.")]
     else
       match sec_data section with
       | EntityData r => renderEntityBody r rendered
       | FlatData r => renderFlatBody r
       end);
  Some (el "section" "entity-section"
          [ Elem "details" "" (Some (0 <? totalDifferences section))
              [ el "summary" "" (buildSectionHeader section);
                el "div" "section-body" body ] ]).

(** The report as the popup stores it: the report of [compare] with the two
    servers and the time of the saved snapshot added. *)
Record StoredReport : Type := mkStoredReport {
  report : Report;
  savedServer : option string;
  currentServer : option string;
  savedTimestamp : option string }.

(** [formatTimestamp(iso)]; [toLocaleString] stands for
    [new Date(iso).toLocaleString()], which depends on the browser. *)
Definition formatTimestamp (toLocaleString : string → string) (iso : option string)
    : string :=
  match iso with
  | None | Some EmptyString => "—"
  | Some iso => toLocaleString iso
  end.

(** [renderReport(container, report)]: the children of the container. *)
Definition renderReport (toLocaleString : string → string) (stored : StoredReport)
    : option (list Node) :=
  let total := rep_totalDifferences (report stored) in
  let metaItems :=
    [ ("Saved Server", default "" (savedServer stored));
      ("Current Server", default "" (currentServer stored));
      ("Saved At", formatTimestamp toLocaleString (savedTimestamp stored));
      ("Compared At", formatTimestamp toLocaleString (Some (timestamp (report stored)))) ] in
  let header :=
    el "header" ""
      [ el "h1" "" (textContent "Migration Comparison Report");
        el "dl" "meta"
          (flat_map (fun item : string * string =>
                       [el "dt" "" (textContent item.1); el "dd" "" (textContent item.2)])
             metaItems) ] in
  if total =? 0 then
    Some [ header;
           el "p" "success banner"
             (textContent "No differences found — servers are in sync.") ]
  else
    sectionEls ← mapM renderSection (sections (report stored));
    Some (header
          :: el "section" "global-summary"
               [ el "h2" ""
                   (textContent (number_to_string (Z.of_nat total) +:+ " difference"
                                   +:+ (if negb (total =? 1) then "s" else "")
                                   +:+ " found")) ]
          :: sectionEls).

(** The number of elements of a page that stand for one difference each:
    the cards of the missing and of the extra items and the tables of the
    changed entities. *)
Definition is_difference_class (className : string) : bool :=
  String.eqb className "entity-card missing"
  || String.eqb className "entity-card extra"
  || String.eqb className "prop-diff-block".

Fixpoint differences_shown (n : Node) : nat :=
  match n with
  | Elem _ className _ children =>
      (if is_difference_class className then 1 else 0)
      + (fix sum (l : list Node) : nat :=
           match l with
           | [] => 0
           | c :: l' => differences_shown c + sum l'
           end) children
  | TextNode _ => 0
  end.

Arguments differences_shown : simpl never.

(** The card of an entity cannot be made: the entity is [null], of which
    no property can be read, or it is an object and the first truthy value
    among its [id] and its [name] cannot be converted to a string. *)
Definition card_throws (entity : value) : bool :=
  match entity with
  | VNull => true
  | VObj o =>
      match List.filter truthy (omap (get_prop o) ["id"; "name"]) with
      | v :: _ => String_throws v
      | [] => false
      end
  | _ => false
  end.

(** A section that is rendered with a card that cannot be made, at any
    depth: among the missing or the extra items of a flat section, or the
    missing or the extra entities of an entity section. *)
Fixpoint rendering_throws (s : Section) : Prop :=
  totalDifferences s ≠ 0
  ∧ match sec_data s with
    | FlatData r => ∃ x, x ∈ f_missing r ++ f_extra r ∧ card_throws x = true
    | EntityData r =>
        (∃ e, e ∈ r_missing r ++ r_extra r ∧ card_throws (VObj (e_entity e)) = true)
        ∨ match childSections s with
          | Some cs =>
              (fix any (l : list Section) : Prop :=
                 match l with
                 | [] => False
                 | c :: l' => rendering_throws c ∨ any l'
                 end) cs
          | None => False
          end
    end.

(** * Properties *)

(** ** The model on the examples of the specification *)

Example canon_arr :
  canonicalize (VArr [VNum 2; VNum 1]) = "[1,2]".
Proof. vm_compute. reflexivity. Qed.

Example canon_obj :
  canonicalize (VObj [("b", VNum 2); ("a", VStr "x")]) =
  "{" +:+ json_quote "a" +:+ ":" +:+ json_quote "x" +:+ "," +:+ json_quote "b" +:+ ":2}".
Proof. vm_compute. reflexivity. Qed.

Example number_texts :
  number_to_string 0 = "0" ∧ number_to_string (-12) = "-12"
  ∧ to_String (VArr [VNum 1; VNull; VArr [VStr "a"; VNum 2]]) = "1,,a,2".
Proof. by vm_compute. Qed.

Example escaped_text :
  json_escape (String "009" (String backslash (String "001" "z")))
  = String backslash (String "t" (String backslash (String backslash
      (String backslash "u0001z")))).
Proof. by vm_compute. Qed.

(** Every entity descriptor of the registry, at either level, names its
    identity field. *)
Example registry_idFields :
  Forall (λ c, strat c = Entity → idField c = Some "id")
    (registry ++ flat_map children registry).
Proof. repeat constructor; done. Qed.

(** No key and no identity field of the registry is a name that objects
    inherit. *)
Example registry_names_own :
  Forall (λ c, inherited (key c) = false ∧ inherited (default "id" (idField c)) = false)
    (registry ++ flat_map children registry).
Proof. repeat constructor; done. Qed.

(** The examples of [String]: an object converts to a fixed text unless it
    has a [toString] of its own, which is no function. *)
Example String_examples :
  String_throws (VObj [("toString", VNum 1)]) = true
  ∧ String_throws (VArr [VNum 1; VObj [("toString", VNum 1)]]) = true
  ∧ String_throws (VObj [("valueOf", VNum 1)]) = false
  ∧ to_String (VObj [("valueOf", VNum 1)]) = "[object Object]".
Proof. by vm_compute. Qed.

(** An id that cannot be converted to a string makes the comparison throw,
    and so does the card of an entity whose id is shown. *)
Example throwing_ids :
  compareSection (entity "users" "Users" [])
    (VArr [VObj [("id", VObj [("toString", VNum 1)])]]) (VArr []) = None
  ∧ renderCard "missing" true (VObj [("id", VNum 0); ("name", VObj [("toString", VNum 1)])])
    = None.
Proof. by vm_compute. Qed.

Example scenario1 :
  compareSection (entity "users" "Users" [])
    (VArr [VObj [("id", VStr "u1"); ("name", VStr "Ann")]])
    (VArr [VObj [("id", VStr "u1"); ("name", VStr "Ann2")]])
  = Some (mkSection "users" "Users"
      (EntityData (mkEntityResult [] []
         [mkMatched "u1" [mkPropertyDiff "name" (Some (Data (VStr "Ann"))) (Some (Data (VStr "Ann2")))]]
         (mkEntitySummary 0 0 1 0)))
      None 1 None None).
Proof. vm_compute. reflexivity. Qed.

Example scenario2 :
  compareSection (entity "roles" "Roles" []) (VArr [obj_id "r1"]) (VArr [])
  = Some (mkSection "roles" "Roles"
      (EntityData (mkEntityResult [mkIdEntity "r1" [("id", VStr "r1")]] [] []
         (mkEntitySummary 1 0 0 0)))
      None 1 None None).
Proof. vm_compute. reflexivity. Qed.

Example scenario3 :
  let a := VObj [("k", VStr "a"); ("v", VNum 1)] in
  flatCompare [a; a] [a] = mkFlatResult [a] [] (mkFlatSummary 1 0).
Proof. vm_compute. reflexivity. Qed.

Example scenario4 :
  compareSection (entity "namespaces" "Namespaces" [entity "classes" "Classes" []])
    (VArr [VObj [("id", VStr "ns1"); ("classes", VArr [obj_id "c1"])]])
    (VArr [VObj [("id", VStr "ns1"); ("classes", VArr [])]])
  = Some (mkSection "namespaces" "Namespaces"
      (EntityData (mkEntityResult [] [] [mkMatched "ns1" []] (mkEntitySummary 0 0 0 1)))
      (Some [mkSection "classes" "Classes"
         (EntityData (mkEntityResult [mkIdEntity "c1" [("id", VStr "c1")]] [] []
            (mkEntitySummary 1 0 0 0)))
         None 1 (Some "ns1") (Some "Namespaces")])
      1 None None).
Proof. vm_compute. reflexivity. Qed.

Example scenario5 :
  diffProperties [("id", VStr "x"); ("note", VStr "hi")] [("id", VStr "x")] "id" []
  = [mkPropertyDiff "note" (Some (Data (VStr "hi"))) None].
Proof. vm_compute. reflexivity. Qed.

(** ** Association lists *)

Section assoc_facts.
Context {A : Type}.
Implicit Types (l : list (string * A)) (k : string).

Lemma assoc_cons_eq l k v : assoc ((k, v) :: l) k = Some v.
Proof. simpl. by rewrite String.eqb_refl. Qed.

Lemma assoc_cons_ne l k k' v : k ≠ k' → assoc ((k', v) :: l) k = assoc l k.
Proof. intros Hne. simpl. by apply String.eqb_neq in Hne as ->. Qed.

Lemma assoc_Some_elem l k v : assoc l k = Some v → (k, v) ∈ l.
Proof.
  induction l as [|[k' v'] l IH]; simpl; [done|].
  destruct (String.eqb_spec k k') as [->|Hne].
  - intros [= ->]. left.
  - intros Hl. right. auto.
Qed.

Lemma assoc_None l k : assoc l k = None ↔ k ∉ map fst l.
Proof.
  induction l as [|[k' v'] l IH]; simpl.
  - split; [intros _ H; inv H | done].
  - rewrite not_elem_of_cons. destruct (String.eqb_spec k k') as [->|Hne].
    + split; [done | by intros [? _]].
    + rewrite IH. split; [by intros ? | by intros [_ ?]].
Qed.

Lemma assoc_is_Some l k : is_Some (assoc l k) ↔ k ∈ map fst l.
Proof.
  destruct (assoc l k) as [v|] eqn:E.
  - split; [intros _ | by eauto].
    apply assoc_Some_elem in E. change k with (fst (k, v)). by apply list_elem_of_fmap_2.
  - split; [by intros [? ?] | intros Hin]. by apply assoc_None in E.
Qed.

Lemma assoc_NoDup_elem l k v :
  NoDup (map fst l) → (k, v) ∈ l → assoc l k = Some v.
Proof.
  induction l as [|[k' v'] l IH]; simpl; intros Hnd Hin; [inv Hin|].
  apply NoDup_cons in Hnd as [Hk' Hnd].
  apply elem_of_cons in Hin as [[= -> ->]|Hin].
  - by rewrite String.eqb_refl.
  - destruct (String.eqb_spec k k') as [->|Hne]; [|by auto].
    exfalso. apply Hk'. change k' with (fst (k', v)). by apply list_elem_of_fmap_2.
Qed.

Lemma assoc_Permutation l l' k :
  NoDup (map fst l) → l ≡ₚ l' → assoc l k = assoc l' k.
Proof.
  intros Hnd Hp.
  assert (NoDup (map fst l')) as Hnd' by (by rewrite <- Hp).
  destruct (assoc l k) as [v|] eqn:E.
  - symmetry. apply assoc_NoDup_elem; [done|]. rewrite <- Hp. by apply assoc_Some_elem.
  - symmetry. apply assoc_None. rewrite <- Hp. by apply assoc_None.
Qed.

Lemma assoc_map {B : Type} (f : A → B) l k :
  assoc (map (λ p, (p.1, f p.2)) l) k = f <$> assoc l k.
Proof.
  induction l as [|[k' v'] l IH]; simpl; [done|].
  by destruct (String.eqb k k').
Qed.
End assoc_facts.

(** ** Sorting *)

Lemma sort_strings_Sorted l : Sorted String.le (sort_strings l).
Proof. apply (Sorted_merge_sort String.le). Qed.

Lemma sort_strings_Permutation l : sort_strings l ≡ₚ l.
Proof. apply (merge_sort_Permutation String.le). Qed.

(** The sorted list depends on the elements only, not on their order. *)
Lemma sort_strings_perm l l' : l ≡ₚ l' → sort_strings l = sort_strings l'.
Proof.
  intros Hp. apply (Sorted_unique String.le); try apply sort_strings_Sorted.
  by rewrite !sort_strings_Permutation.
Qed.

Lemma elem_of_sort_strings x l : x ∈ sort_strings l ↔ x ∈ l.
Proof. by rewrite sort_strings_Permutation. Qed.

Lemma wf_value_arr items : wf_value (VArr items) ↔ Forall wf_value items.
Proof.
  simpl. induction items as [|x l IH]; [by split|].
  rewrite Forall_cons, <- IH. done.
Qed.

Lemma wf_value_obj props :
  wf_value (VObj props) ↔ NoDup (map fst props) ∧ Forall (λ p, wf_value p.2) props.
Proof.
  simpl. apply and_iff_compat_l.
  induction props as [|[k x] l IH]; [by split|].
  rewrite Forall_cons, <- IH. done.
Qed.

(** ** [JSON.stringify] tells primitives apart *)

Lemma unescape_head_escape c t :
  unescape_head (json_escape_char c +:+ t) = Some (c, t).
Proof. destruct c as [[] [] [] [] [] [] [] []]; reflexivity. Qed.

Lemma string_app_assoc (s1 s2 s3 : string) : (s1 +:+ s2) +:+ s3 = s1 +:+ (s2 +:+ s3).
Proof.
  induction s1 as [|c s1 IH]; [done|].
  change (String c ((s1 +:+ s2) +:+ s3) = String c (s1 +:+ (s2 +:+ s3))).
  by rewrite IH.
Qed.

(** The escaped text followed by the closing quote is a prefix code. *)
Lemma json_escape_inj s :
  ∀ s' t t',
    json_escape s +:+ String dquote t = json_escape s' +:+ String dquote t' →
    s = s' ∧ t = t'.
Proof.
  induction s as [|c s IH]; intros [|c' s'] t t'; cbn [json_escape];
    rewrite ?string_app_assoc; intros E.
  - change (String dquote t = String dquote t') in E. by injection E.
  - apply (f_equal unescape_head) in E. by rewrite unescape_head_escape in E.
  - apply (f_equal unescape_head) in E. by rewrite unescape_head_escape in E.
  - apply (f_equal unescape_head) in E. rewrite !unescape_head_escape in E.
    injection E as -> E. by destruct (IH _ _ _ E) as [-> ->].
Qed.

Lemma json_quote_inj s s' : json_quote s = json_quote s' → s = s'.
Proof.
  unfold json_quote, str1. intros [= E]. by destruct (json_escape_inj _ _ _ _ E).
Qed.

Lemma number_to_string_head n :
  match number_to_string n with
  | EmptyString => True
  | String c _ => numeric_head c = true
  end.
Proof. unfold number_to_string. by destruct (Z.to_int n) as [[]|[]]. Qed.

Lemma number_to_string_inj n m : number_to_string n = number_to_string m → n = m.
Proof.
  unfold number_to_string. intros E.
  apply (f_equal NilEmpty.int_of_string) in E. rewrite !NilEmpty.isi in E.
  injection E. apply DecimalZ.to_int_inj.
Qed.

Lemma number_to_string_not c s n :
  numeric_head c = false → number_to_string n ≠ String c s.
Proof.
  intros Hc E. pose proof (number_to_string_head n) as H.
  rewrite E in H. congruence.
Qed.

(** ** [valuesEqual] and the canonical form *)

Lemma canonicalize_arr_head l :
  canonicalize (VArr l)
  = String "[" (join "," (sort_strings (map canonicalize l)) +:+ "]").
Proof. reflexivity. Qed.

Lemma canonicalize_obj_head p :
  canonicalize (VObj p)
  = String "{" (join ","
      (map (canonical_pair (map (λ q, (q.1, canonicalize q.2)) p))
         (sort_strings (Object_keys p))) +:+ "}").
Proof. reflexivity. Qed.

Lemma strict_equal_eq a b : strict_equal a b = true → a = b.
Proof.
  destruct a, b; simpl; try done.
  - intros ?%Bool.eqb_prop. by subst.
  - intros ?%Z.eqb_eq. by subst.
  - intros ?%String.eqb_eq. by subst.
Qed.

Lemma strict_equal_refl_prim a :
  is_primitive a || is_null a = true → strict_equal a a = true.
Proof.
  destruct a; simpl; try done; intros _.
  - apply Bool.eqb_reflx.
  - apply Z.eqb_refl.
  - apply String.eqb_refl.
Qed.

(** Two values one of which is a primitive or [null] have the same canonical
    form only when they are the same value. *)
Lemma canonicalize_prim_inj a b :
  is_primitive a || is_null a = true →
  canonicalize a = canonicalize b → a = b.
Proof.
  intros Ha E.
  destruct a as [|x|n|s|l|p]; try done;
    destruct b as [|y|m|s'|l'|p'];
    rewrite ?canonicalize_arr_head, ?canonicalize_obj_head in E;
    cbn [canonicalize JSON_stringify_prim] in E; unfold json_quote in E;
    try (destruct x); try (destruct y); try done;
    try (by eapply number_to_string_not in E);
    try (symmetry in E; by eapply number_to_string_not in E).
  - by apply number_to_string_inj in E as ->.
  - f_equal. by apply json_quote_inj.
Qed.

Lemma valuesEqual_canonicalize a b :
  valuesEqual a b = true ↔ canonicalize a = canonicalize b.
Proof.
  unfold valuesEqual.
  destruct (strict_equal a b) eqn:Hs.
  { apply strict_equal_eq in Hs as ->. done. }
  destruct (is_primitive a || is_null a) eqn:Ha.
  { transitivity False; [|split; [done|]].
    - destruct a; try done; destruct b; simpl in *; done.
    - intros E. apply canonicalize_prim_inj in E as <-; [|done].
      by rewrite strict_equal_refl_prim in Hs. }
  destruct (is_primitive b || is_null b) eqn:Hb.
  { transitivity False; [|split; [done|]].
    - destruct b; try done; destruct a; simpl in *; done.
    - intros E. symmetry in E. apply canonicalize_prim_inj in E as <-; [|done].
      by rewrite strict_equal_refl_prim in Hs. }
  assert (typeof a = TObject ∧ typeof b = TObject ∧ is_null a = false ∧ is_null b = false)
    as (-> & -> & -> & ->).
  { destruct a, b; simpl in *; done. }
  simpl. apply String.eqb_eq.
Qed.

(** ** Reordering leaves the canonical form unchanged *)

(** C5.  [canonicalize] is invariant under reordering: permuting the elements
    of any array inside a JSON value, or listing the properties of any object
    inside it in another insertion order, leaves the canonical string
    unchanged. *)
Theorem canonicalize_reorder_invariant (a b : value) :
  wf_value a → reorder a b → canonicalize a = canonicalize b.
Proof.
  revert b.
  induction a as [|x|n|s|items IH|props IH] using value_nested_ind;
    intros b Hwf Hr; inv Hr; try done.
  - (* arrays *)
    simpl. do 3 f_equal. apply sort_strings_perm.
    apply wf_value_arr in Hwf.
    match goal with H : _ ≡ₚ _ |- _ => rewrite <- H; clear H end.
    assert (map canonicalize items = map canonicalize l1) as ->; [|done].
    match goal with H : Forall2 _ _ _ |- _ => induction H as [|x y l l' Hxy _ IHl] end;
      [done|].
    apply Forall_cons in IH as [IHx IH]. apply Forall_cons in Hwf as [Hx Hwf].
    simpl. f_equal; auto.
  - (* objects *)
    apply wf_value_obj in Hwf as [Hnd Hwf].
    match goal with H : _ ≡ₚ _ |- _ => rename H into Hp end.
    match goal with H : Forall2 _ _ _ |- _ => rename H into HF end.
    assert (map fst props = map fst p1 ∧
            map (λ p, (p.1, canonicalize p.2)) props
            = map (λ p, (p.1, canonicalize p.2)) p1) as [Hk Hc].
    { clear Hp Hnd. induction HF as [|x y l l' [Hxy1 Hxy2] _ IHl]; [done|].
      apply Forall_cons in IH as [IHx IH]. apply Forall_cons in Hwf as [Hx Hwf].
      destruct (IHl IH Hwf) as [E1 E2]. simpl.
      rewrite E1, E2, Hxy1, (IHx _ Hx Hxy2). done. }
    simpl. unfold Object_keys. rewrite Hk, Hc.
    rewrite (sort_strings_perm (map fst p1) (map fst p2)) by (by apply Permutation_map).
    do 3 f_equal. apply map_ext. intros k. unfold canonical_pair.
    rewrite (assoc_Permutation _ (map (λ p, (p.1, canonicalize p.2)) p2)); [done| |].
    + rewrite map_map. change (NoDup (map fst p1)). by rewrite <- Hk.
    + by apply Permutation_map.
Qed.

(** The two instances named by the specification: [[1,2]] against [[2,1]] and
    [{a:1,b:2}] against [{b:2,a:1}]. *)
Lemma canonicalize_reorder_invariant_witness :
  canonicalize (VArr [VNum 1; VNum 2]) = canonicalize (VArr [VNum 2; VNum 1])
  ∧ canonicalize (VObj [("a", VNum 1); ("b", VNum 2)])
    = canonicalize (VObj [("b", VNum 2); ("a", VNum 1)]).
Proof.
  split; apply canonicalize_reorder_invariant.
  - simpl. tauto.
  - apply (reorder_arr _ [VNum 1; VNum 2]).
    + repeat constructor.
    + apply perm_swap.
  - simpl. split; [|tauto]. apply (bool_decide_unpack _). by vm_compute.
  - apply (reorder_obj _ [("a", VNum 1); ("b", VNum 2)]).
    + repeat constructor.
    + apply perm_swap.
Defined.

(** C6.  [valuesEqual a b] holds exactly when the canonical forms of [a] and
    [b] are the same string; on two primitives it is decided by [===] alone,
    and two values of different [typeof] are never equal. *)
Theorem valuesEqual_spec (a b : value) :
  (valuesEqual a b = true ↔ canonicalize a = canonicalize b)
  ∧ (is_primitive a && is_primitive b = true → valuesEqual a b = strict_equal a b)
  ∧ (js_type_eqb (typeof a) (typeof b) = false → valuesEqual a b = false).
Proof.
  split; [apply valuesEqual_canonicalize|]. split.
  - unfold valuesEqual. destruct a, b; try done; simpl; intros _.
    + by destruct (Bool.eqb _ _).
    + by destruct (Z.eqb _ _).
    + by destruct (String.eqb _ _).
  - unfold valuesEqual. intros Ht.
    destruct (strict_equal a b) eqn:E.
    + apply strict_equal_eq in E as ->. destruct b; done.
    + rewrite Ht. simpl. by destruct (is_null a || is_null b).
Qed.

(** The number 1 and the string 1 print the same text, and differ. *)
Lemma valuesEqual_spec_witness :
  to_String (VNum 1) = to_String (VStr "1")
  ∧ valuesEqual (VNum 1) (VStr "1") = false
  ∧ valuesEqual (VNum 1) (VNum 1) = strict_equal (VNum 1) (VNum 1).
Proof.
  split; [reflexivity|]. split.
  - apply (proj2 (proj2 (valuesEqual_spec (VNum 1) (VStr "1")))). reflexivity.
  - apply (proj1 (proj2 (valuesEqual_spec (VNum 1) (VNum 1)))). reflexivity.
Defined.

(** ** Sets and maps in insertion order *)

Lemma elem_of_set_add s x y : y ∈ set_add s x ↔ y ∈ s ∨ y = x.
Proof.
  unfold set_add. case_bool_decide as Hx.
  - split; [by left | intros [?| ->]; done].
  - rewrite elem_of_app, list_elem_of_singleton. done.
Qed.

Lemma NoDup_set_add s x : NoDup s → NoDup (set_add s x).
Proof.
  unfold set_add. intros Hs. case_bool_decide as Hx; [done|].
  apply NoDup_app. split; [done|]. split; [|apply NoDup_singleton].
  intros y Hy ->%list_elem_of_singleton. done.
Qed.

Lemma elem_of_fold_set_add xs s y :
  y ∈ fold_left set_add xs s ↔ y ∈ s ∨ y ∈ xs.
Proof.
  revert s. induction xs as [|x xs IH]; intros s; simpl.
  - split; [by left | intros [?|H]; [done | inv H]].
  - rewrite IH, elem_of_set_add, elem_of_cons. tauto.
Qed.

Lemma NoDup_fold_set_add xs s : NoDup s → NoDup (fold_left set_add xs s).
Proof.
  revert s. induction xs as [|x xs IH]; intros s Hs; simpl; [done|].
  by apply IH, NoDup_set_add.
Qed.

Lemma elem_of_Set_from xs y : y ∈ Set_from xs ↔ y ∈ xs.
Proof.
  unfold Set_from. rewrite elem_of_fold_set_add. split; [intros [H|?]; [inv H | done] | by right].
Qed.

Lemma NoDup_Set_from xs : NoDup (Set_from xs).
Proof. apply NoDup_fold_set_add, NoDup_nil_2. Qed.

Section jsmap_facts.
Context {V : Type}.
Implicit Types (m : jsmap V) (k : string) (v : V).

Lemma map_set_keys m k v : map fst (map_set m k v) = set_add (map fst m) k.
Proof.
  unfold set_add. induction m as [|[k' v'] m IH]; simpl; [done|].
  destruct (String.eqb_spec k k') as [->|Hne].
  - rewrite bool_decide_eq_true_2; [done | left].
  - simpl. rewrite IH. case_bool_decide as Hk.
    + rewrite bool_decide_eq_true_2; [done | by right].
    + rewrite bool_decide_eq_false_2; [done|]. by intros [?|?]%elem_of_cons.
Qed.

Lemma assoc_map_set m k v k' :
  assoc (map_set m k v) k' = if String.eqb k' k then Some v else assoc m k'.
Proof.
  induction m as [|[k0 v0] m IH]; simpl; [done|].
  destruct (String.eqb_spec k k0) as [->|Hne]; simpl.
  - by destruct (String.eqb_spec k' k0).
  - rewrite IH. destruct (String.eqb_spec k' k0) as [->|?]; [|done].
    by destruct (String.eqb_spec k0 k); [congruence|].
Qed.

(** Setting a key inside the first part of a map, or past it. *)
Lemma map_set_app m1 m2 k v :
  map_set (m1 ++ m2) k v
  = if bool_decide (k ∈ map fst m1) then map_set m1 k v ++ m2
    else m1 ++ map_set m2 k v.
Proof.
  induction m1 as [|[k' v'] m1 IH]; simpl.
  - done.
  - destruct (String.eqb_spec k k') as [->|Hne].
    + rewrite bool_decide_eq_true_2; [done | left].
    + rewrite IH. case_bool_decide as Hk.
      * rewrite bool_decide_eq_true_2; [done | by right].
      * rewrite bool_decide_eq_false_2; [done|]. by intros [?|?]%elem_of_cons.
Qed.
End jsmap_facts.

(** ** [diffProperties] *)

Lemma has_prop_read o k :
  has_prop o k = match read_prop o k with Some _ => true | None => false end.
Proof.
  unfold has_prop, read_prop. destruct (get_prop o k); [done|]. by destruct (inherited k).
Qed.

Lemma valuesEqual_read_Data x y :
  valuesEqual_read (Some (Data x)) (Some (Data y)) = valuesEqual x y.
Proof.
  unfold valuesEqual_read, valuesEqual. simpl.
  destruct (strict_equal x y); [done|].
  destruct (is_null x) eqn:Hx; [by destruct x|].
  destruct (is_null y) eqn:Hy; [by destruct x, y|].
  by destruct x, y.
Qed.

Lemma join_cons_nonempty sep (x : string) (l : list string) :
  x ≠ EmptyString → join sep (x :: l) ≠ EmptyString.
Proof. destruct x as [|c x]; [done|]. by destruct l. Qed.

(** Only the empty object has the canonical form of the empty object. *)
Lemma canonicalize_empty_object x : canonicalize x = "{}" ↔ x = VObj [].
Proof.
  split; [|by intros ->]. intros E. symmetry.
  destruct x as [|b|n|t|l|p]; try done.
  - by destruct b.
  - pose proof (number_to_string_head n) as H.
    cbn [canonicalize JSON_stringify_prim] in E. by rewrite E in H.
  - rewrite canonicalize_obj_head in E. injection E as E.
    destruct p as [|[k v] p]; [done|]. exfalso.
    assert (∃ k' ks, sort_strings (Object_keys ((k, v) :: p)) = k' :: ks) as (k' & ks & Hs).
    { destruct (sort_strings _) as [|k' ks] eqn:Hs; [|by eexists _, _].
      pose proof (sort_strings_Permutation (Object_keys ((k, v) :: p))) as Hp.
      rewrite Hs in Hp. by apply Permutation_nil_l in Hp. }
    rewrite Hs in E. cbn [map] in E.
    destruct (join _ _) as [|c j] eqn:Hj.
    + by apply join_cons_nonempty in Hj.
    + change (String c j +:+ "}") with (String c (j +:+ "}")) in E.
      injection E as _ E. by destruct j.
Qed.

(** An own value equals an inherited member only when both are empty
    objects: the member is [Object.prototype] itself, read under [__proto__]. *)
Lemma valuesEqual_read_Data_Inherited x n :
  valuesEqual_read (Some (Data x)) (Some (Inherited n)) = true
  ↔ n = "__proto__" ∧ x = VObj [].
Proof.
  split; [|by intros [-> ->]].
  unfold valuesEqual_read.
  cbn [read_identical read_is_null read_typeof read_canonicalize orb].
  destruct (String.eqb_spec n "__proto__") as [->|Hn].
  - destruct x as [|?|?|?|l|p]; try done; intros H.
    change (String.eqb (canonicalize (VObj p)) "{}" = true) in H.
    by apply String.eqb_eq, canonicalize_empty_object in H.
  - by destruct x.
Qed.

Lemma valuesEqual_read_Inherited_Data n y :
  valuesEqual_read (Some (Inherited n)) (Some (Data y)) = true
  ↔ n = "__proto__" ∧ y = VObj [].
Proof.
  split; [|by intros [-> ->]].
  unfold valuesEqual_read.
  cbn [read_identical read_is_null read_typeof read_canonicalize orb].
  destruct (String.eqb_spec n "__proto__") as [->|Hn].
  - destruct y as [|?|?|?|l|p]; try done; intros H.
    change (String.eqb "{}" (canonicalize (VObj p)) = true) in H.
    apply String.eqb_eq in H. symmetry in H.
    by apply canonicalize_empty_object in H.
  - by destruct y.
Qed.

Lemma valuesEqual_read_undefined_r x : valuesEqual_read (Some x) None = false.
Proof.
  unfold valuesEqual_read. destruct x as [[]|n]; try done.
  cbn. by destruct (String.eqb n "__proto__").
Qed.

Lemma valuesEqual_read_undefined_l y : valuesEqual_read None (Some y) = false.
Proof.
  unfold valuesEqual_read. destruct y as [[]|n]; try done.
  cbn. by destruct (String.eqb n "__proto__").
Qed.

(** [valuesEqual] of what two records read under a name says whether they
    agree on it. *)
Lemma valuesEqual_read_agree a b k :
  valuesEqual_read (read_prop a k) (read_prop b k) = true ↔ agree_on a b k.
Proof.
  unfold agree_on, read_prop.
  destruct (get_prop a k) as [x|], (get_prop b k) as [y|].
  - rewrite valuesEqual_read_Data. apply valuesEqual_canonicalize.
  - destruct (inherited k); [apply valuesEqual_read_Data_Inherited|].
    unfold valuesEqual_read. simpl. by destruct x.
  - destruct (inherited k); [apply valuesEqual_read_Inherited_Data|].
    unfold valuesEqual_read. simpl. by destruct y.
  - destruct (inherited k); [|done]. unfold valuesEqual_read. simpl.
    by rewrite String.eqb_refl.
Qed.

Lemma fold_diff_step saved current idField excludeKeys keys acc :
  fold_left (diff_step saved current idField excludeKeys) keys acc
  = acc ++ omap (diff_of saved current idField excludeKeys) keys.
Proof.
  revert acc. induction keys as [|k keys IH]; intros acc; simpl.
  - by rewrite app_nil_r.
  - rewrite IH. unfold diff_step, diff_of. rewrite !has_prop_read.
    destruct (String.eqb k idField || set_has excludeKeys k); [done|].
    destruct (read_prop saved k) as [vs|], (read_prop current k) as [vc|];
      simpl; try destruct (valuesEqual_read (Some vs) (Some vc)); simpl;
      by rewrite <- ?app_assoc.
Qed.

Lemma diffProperties_omap saved current idField excludeKeys :
  diffProperties saved current idField excludeKeys
  = omap (diff_of saved current idField excludeKeys)
      (sort_strings (Set_from (Object_keys saved ++ Object_keys current))).
Proof. unfold diffProperties. by rewrite fold_diff_step. Qed.

Lemma diff_of_property saved current idField excludeKeys k d :
  diff_of saved current idField excludeKeys k = Some d →
  property d = k ∧ k ≠ idField ∧ (k ∉ excludeKeys)
  ∧ pd_saved d = read_prop saved k ∧ pd_current d = read_prop current k.
Proof.
  unfold diff_of, set_has.
  destruct (String.eqb_spec k idField) as [->|Hne]; [done|]. simpl.
  case_bool_decide as Hex; [done|].
  destruct (read_prop saved k) as [vs|], (read_prop current k) as [vc|];
    try destruct (valuesEqual_read (Some vs) (Some vc)); intros [= <-]; done.
Qed.

Lemma diff_of_None saved current f ex k :
  diff_of saved current f ex k = None ↔
  k = f ∨ k ∈ ex ∨ agree_on saved current k.
Proof.
  rewrite <- valuesEqual_read_agree. unfold diff_of, set_has.
  destruct (String.eqb_spec k f) as [->|Hne]; [split; [by left | done]|]. simpl.
  case_bool_decide as Hex; [split; [by right; left | done]|].
  destruct (read_prop saved k) as [vs|], (read_prop current k) as [vc|].
  - destruct (valuesEqual_read (Some vs) (Some vc));
      [split; [by right; right | done]|].
    split; [done|]. by intros [?|[?|?]].
  - split; [done|]. intros [?|[?|H]]; try done.
    by rewrite valuesEqual_read_undefined_r in H.
  - split; [done|]. intros [?|[?|H]]; try done.
    by rewrite valuesEqual_read_undefined_l in H.
  - split; [by right; right | done].
Qed.

Lemma StronglySorted_strict (l : list string) :
  StronglySorted String.le l → NoDup l → StronglySorted (strict String.le) l.
Proof.
  induction 1 as [|x l Hl IH Hx]; intros Hnd; [constructor|].
  apply NoDup_cons in Hnd as [Hxl Hnd]. constructor; [by apply IH|].
  rewrite Forall_forall in Hx |- *. intros y Hy. split; [by apply Hx|].
  intros Hyx. apply Hxl. by rewrite (anti_symm String.le x y (Hx y Hy) Hyx).
Qed.

Lemma StronglySorted_omap_keys {A} (R : relation string) (g : string → option A)
    (proj : A → string) (l : list string) :
  (∀ k d, g k = Some d → proj d = k) →
  StronglySorted R l → StronglySorted R (map proj (omap g l)).
Proof.
  intros Hg. induction 1 as [|x l Hl IH Hx]; simpl; [constructor|].
  destruct (g x) as [d|] eqn:E; [|done]. simpl. constructor; [done|].
  rewrite (Hg _ _ E). rewrite Forall_forall in Hx |- *.
  intros y (d' & -> & Hd')%list_elem_of_fmap.
  apply list_elem_of_omap in Hd' as (k & Hk & E'). rewrite (Hg _ _ E'). auto.
Qed.

(** The differences of two records are listed by property name in
    strictly increasing order; every listed name is a property of one of the
    records other than [idField] and the names in [excludeKeys], and carries
    on each side what the record reads there, [None] (the absent marker,
    which is not [Some (Data VNull)]) when the record has nothing under the
    name; and a name is listed exactly when the records do not agree on it. *)
Lemma diffProperties_facts (saved current : record) (idField : string)
    (excludeKeys : list string) :
  let ds := diffProperties saved current idField excludeKeys in
  StronglySorted (strict String.le) (map property ds)
  ∧ (∀ d, d ∈ ds →
       (property d ∈ Object_keys saved ∨ property d ∈ Object_keys current)
       ∧ property d ≠ idField ∧ (property d ∉ excludeKeys)
       ∧ pd_saved d = read_prop saved (property d)
       ∧ pd_current d = read_prop current (property d))
  ∧ (∀ k, k ∈ Object_keys saved ∨ k ∈ Object_keys current →
       k ≠ idField → k ∉ excludeKeys →
       (k ∈ map property ds ↔ ¬ agree_on saved current k)).
Proof.
  intros ds. subst ds. rewrite diffProperties_omap.
  set (keys := sort_strings _).
  assert (∀ k, k ∈ keys ↔ k ∈ Object_keys saved ∨ k ∈ Object_keys current) as Hkeys.
  { intros k. unfold keys. by rewrite elem_of_sort_strings, elem_of_Set_from, elem_of_app. }
  split; [|split].
  - apply StronglySorted_omap_keys.
    + intros k d Hd. by apply diff_of_property in Hd as [? _].
    + apply StronglySorted_strict.
      * apply Sorted_StronglySorted; [apply _ | apply sort_strings_Sorted].
      * unfold keys. rewrite sort_strings_Permutation. apply NoDup_Set_from.
  - intros d (k & Hk & Hd)%list_elem_of_omap.
    apply diff_of_property in Hd as (Hp & ? & ? & ? & ?). rewrite Hp.
    split; [by apply Hkeys | done].
  - intros k Hk Hid Hex. rewrite list_elem_of_fmap. split.
    + intros (d & -> & (k' & Hk' & Hd)%list_elem_of_omap).
      pose proof (diff_of_property _ _ _ _ _ _ Hd) as (-> & _).
      intros Hagree.
      assert (diff_of saved current idField excludeKeys k' = None) as Hn
        by (apply diff_of_None; auto).
      congruence.
    + intros Hcond.
      destruct (diff_of saved current idField excludeKeys k) as [d|] eqn:Hd.
      * exists d. split; [by apply diff_of_property in Hd as [-> _]|].
        apply list_elem_of_omap. exists k. split; [by apply Hkeys | done].
      * apply diff_of_None in Hd as [?|[?|?]]; done.
Qed.

(** ** The index *)

Lemma index_step_record_id f m item :
  index_step f m item
  = match record_id f item with Some k => map_set m k item | None => m end.
Proof. unfold index_step, record_id. by destruct (get_prop item f) as [[]|]. Qed.

Lemma indexById_snoc arr x f :
  indexById (arr ++ [x]) f = index_step f (indexById arr f) x.
Proof. unfold indexById. by rewrite fold_left_app. Qed.

Lemma ids_of_snoc f arr x :
  ids_of f (arr ++ [x]) = ids_of f arr ++ option_list (record_id f x).
Proof. unfold ids_of. rewrite omap_app. simpl. by destruct (record_id f x). Qed.

Lemma elem_of_ids_of f arr k : k ∈ ids_of f arr ↔ Some k ∈ map (record_id f) arr.
Proof.
  unfold ids_of. rewrite list_elem_of_omap, list_elem_of_fmap.
  split; intros (r & ? & ?); exists r; done.
Qed.

(** The keys of the index are the ids of the array, each at the place of its
    first occurrence. *)
Lemma indexById_keys arr f : map fst (indexById arr f) = Set_from (ids_of f arr).
Proof.
  induction arr as [|x arr IH] using rev_ind; [done|].
  rewrite indexById_snoc, index_step_record_id, ids_of_snoc.
  unfold Set_from in *. rewrite fold_left_app, <- IH.
  destruct (record_id f x) as [k|]; simpl; [|done]. apply map_set_keys.
Qed.

Lemma indexById_NoDup arr f : NoDup (map fst (indexById arr f)).
Proof. rewrite indexById_keys. apply NoDup_Set_from. Qed.

Lemma elem_of_indexById_keys arr f k :
  k ∈ map fst (indexById arr f) ↔ k ∈ ids_of f arr.
Proof. by rewrite indexById_keys, elem_of_Set_from. Qed.

(** The index holds, for each id, the last record of the array with that id. *)
Lemma indexById_lookup arr f k :
  map_get (indexById arr f) k = last (filter (λ r, record_id f r = Some k) arr).
Proof.
  unfold map_get. induction arr as [|x arr IH] using rev_ind; [done|].
  rewrite indexById_snoc, index_step_record_id, filter_app.
  destruct (record_id f x) as [k'|] eqn:E.
  - rewrite assoc_map_set. destruct (String.eqb_spec k k') as [->|Hne].
    + rewrite filter_cons_True, filter_nil by done. by rewrite last_snoc.
    + rewrite filter_cons_False, filter_nil by congruence. by rewrite app_nil_r.
  - rewrite filter_cons_False, filter_nil by congruence. by rewrite app_nil_r.
Qed.

Lemma indexById_entry arr f k r :
  (k, r) ∈ indexById arr f → r ∈ arr ∧ record_id f r = Some k.
Proof.
  intros Hin. apply assoc_NoDup_elem in Hin; [|apply indexById_NoDup].
  change (map_get (indexById arr f) k = Some r) in Hin.
  rewrite indexById_lookup in Hin.
  apply last_Some_elem_of, list_elem_of_filter in Hin. tauto.
Qed.

Lemma indexById_has arr f k :
  map_has (indexById arr f) k = bool_decide (k ∈ ids_of f arr).
Proof.
  unfold map_has. symmetry. destruct (assoc _ k) eqn:E.
  - apply bool_decide_eq_true_2, elem_of_indexById_keys, assoc_is_Some. by rewrite E.
  - apply bool_decide_eq_false_2. rewrite <- elem_of_indexById_keys. by apply assoc_None.
Qed.

(** ** The loops of [entityCompare] *)

Lemma fold_presence_step (other m : jsmap record) acc :
  fold_left (presence_step other) m acc = acc ++ absent_from other m.
Proof.
  unfold absent_from. revert acc. induction m as [|e m IH]; intros acc; simpl.
  - by rewrite app_nil_r.
  - rewrite IH. unfold presence_step.
    destruct (negb (map_has other e.1)); simpl; by rewrite <- ?app_assoc.
Qed.

Lemma omap_cons_match {A B} (g : A → option B) x l :
  omap g (x :: l) = match g x with Some y => y :: omap g l | None => omap g l end.
Proof. reflexivity. Qed.

Lemma fold_match_step currentMap f ex (m : jsmap record) ms c i :
  fold_left (match_step currentMap f ex) m (ms, c, i)
  = let new := omap (matched_of currentMap f ex) m in
    (ms ++ new, c + count_changed new, i + count_inSync new).
Proof.
  revert ms c i. induction m as [|e m IH]; intros ms c i.
  - simpl. by rewrite app_nil_r, !Nat.add_0_r.
  - cbn [fold_left]. cbv zeta. rewrite omap_cons_match.
    assert (match_step currentMap f ex (ms, c, i) e
            = match matched_of currentMap f ex e with
              | Some me => (ms ++ [me],
                            c + (if is_changed me then 1 else 0),
                            i + (if is_changed me then 0 else 1))
              | None => (ms, c, i)
              end) as ->.
    { unfold match_step, matched_of, is_changed.
      destruct (map_get currentMap e.1) as [ce|]; [|done]. simpl.
      destruct (0 <? length _); (apply f_equal2; [apply f_equal2|]); try done; lia. }
    destruct (matched_of currentMap f ex e) as [me|]; [|apply IH].
    rewrite IH. unfold count_changed, count_inSync. simpl.
    destruct (is_changed me); simpl; rewrite <- app_assoc; simpl;
      (apply f_equal2; [apply f_equal2|]); try done; lia.
Qed.

Lemma entityCompare_unfold savedArr currentArr f ex :
  entityCompare savedArr currentArr f ex
  = let savedMap := indexById savedArr f in
    let currentMap := indexById currentArr f in
    let matched := omap (matched_of currentMap f ex) savedMap in
    {| r_missing := absent_from currentMap savedMap;
       r_extra := absent_from savedMap currentMap;
       r_matched := matched;
       r_summary := {| sum_missing := length (absent_from currentMap savedMap);
                       sum_extra := length (absent_from savedMap currentMap);
                       sum_changed := count_changed matched;
                       sum_inSync := count_inSync matched |} |}.
Proof.
  unfold entityCompare. rewrite !fold_presence_step, fold_match_step. done.
Qed.

Lemma entityCompare_summary savedArr currentArr f ex :
  let R := entityCompare savedArr currentArr f ex in
  sum_missing (r_summary R) = length (r_missing R)
  ∧ sum_extra (r_summary R) = length (r_extra R)
  ∧ sum_changed (r_summary R) = count_changed (r_matched R)
  ∧ sum_inSync (r_summary R) = count_inSync (r_matched R).
Proof. by rewrite entityCompare_unfold. Qed.

(** ** Presence classification *)

Lemma absent_from_ids {V} (other : jsmap V) (m : jsmap record) :
  map e_id (absent_from other m)
  = List.filter (λ k, negb (map_has other k)) (map fst m).
Proof.
  unfold absent_from. induction m as [|e m IH]; simpl; [done|].
  destruct (negb (map_has other e.1)); simpl; by rewrite IH.
Qed.

Lemma matched_ids currentMap f ex (m : jsmap record) :
  map m_id (omap (matched_of currentMap f ex) m)
  = List.filter (map_has currentMap) (map fst m).
Proof.
  induction m as [|e m IH]; [done|].
  rewrite omap_cons_match. simpl. unfold matched_of at 1, map_has at 1, map_get.
  destruct (assoc currentMap e.1); simpl; by rewrite IH.
Qed.

Lemma absent_from_entity {V} (other : jsmap V) (m : jsmap record) e :
  e ∈ absent_from other m → (e_id e, e_entity e) ∈ m.
Proof.
  unfold absent_from. intros (x & -> & Hx)%list_elem_of_fmap.
  apply list_elem_of_In, filter_In in Hx as [Hx _]. apply list_elem_of_In in Hx.
  by destruct x.
Qed.

Lemma elem_of_List_filter {A} (p : A → bool) l x :
  x ∈ List.filter p l ↔ x ∈ l ∧ p x = true.
Proof. by rewrite !list_elem_of_In, filter_In. Qed.

Lemma NoDup_List_filter {A} (p : A → bool) l : NoDup l → NoDup (List.filter p l).
Proof.
  induction 1 as [|x l Hx Hl IH]; simpl; [constructor|].
  destruct (p x); [|done]. constructor; [|done].
  rewrite elem_of_List_filter. tauto.
Qed.

(** Which ids land in which list. *)
Lemma entityCompare_ids savedArr currentArr f ex k :
  let R := entityCompare savedArr currentArr f ex in
  (k ∈ map e_id (r_missing R) ↔ k ∈ ids_of f savedArr ∧ k ∉ ids_of f currentArr)
  ∧ (k ∈ map e_id (r_extra R) ↔ k ∈ ids_of f currentArr ∧ k ∉ ids_of f savedArr)
  ∧ (k ∈ map m_id (r_matched R) ↔ k ∈ ids_of f savedArr ∧ k ∈ ids_of f currentArr).
Proof.
  rewrite entityCompare_unfold. cbv zeta. simpl.
  rewrite !absent_from_ids, matched_ids, !elem_of_List_filter, !indexById_has,
    !elem_of_indexById_keys, !negb_true_iff, !bool_decide_eq_false, bool_decide_eq_true.
  done.
Qed.

Lemma entityCompare_ids_NoDup savedArr currentArr f ex :
  let R := entityCompare savedArr currentArr f ex in
  NoDup (map e_id (r_missing R)) ∧ NoDup (map e_id (r_extra R))
  ∧ NoDup (map m_id (r_matched R)).
Proof.
  rewrite entityCompare_unfold. cbv zeta. simpl.
  rewrite !absent_from_ids, matched_ids.
  repeat split; apply NoDup_List_filter, indexById_NoDup.
Qed.

(** Records without an id leave the index as it is. *)
Lemma indexById_filter arr f :
  indexById (filter (λ r, is_Some (record_id f r)) arr) f = indexById arr f.
Proof.
  unfold indexById. generalize (@nil (string * record)).
  induction arr as [|x arr IH]; intros m; [done|].
  destruct (record_id f x) as [k|] eqn:E.
  - rewrite filter_cons_True by (by rewrite E). simpl. apply IH.
  - rewrite filter_cons_False by (rewrite E; by intros [? ?]). simpl.
    rewrite index_step_record_id, E. apply IH.
Qed.

(** C2.  Every id that occurs in the saved array is in exactly one of
    [missing] and [matched], every id that occurs in the current array in
    exactly one of [extra] and [matched], each once; a record without an id
    (the field absent or null) is the entity of no entry of [missing] or
    [extra], and dropping such records from the arrays changes nothing in the
    result, [matched] included. *)
Theorem entityCompare_partition (savedArr currentArr : list record) (f : string)
    (ex : list string) :
  let R := entityCompare savedArr currentArr f ex in
  let missing := map e_id (r_missing R) in
  let extra := map e_id (r_extra R) in
  let matched := map m_id (r_matched R) in
  (∀ k, k ∈ ids_of f savedArr →
     (k ∈ missing ∧ k ∉ matched) ∨ ((k ∉ missing) ∧ k ∈ matched))
  ∧ (∀ k, k ∈ ids_of f currentArr →
     (k ∈ extra ∧ k ∉ matched) ∨ ((k ∉ extra) ∧ k ∈ matched))
  ∧ (NoDup missing ∧ NoDup extra ∧ NoDup matched)
  ∧ (∀ r, record_id f r = None →
     (r ∉ map e_entity (r_missing R)) ∧ (r ∉ map e_entity (r_extra R)))
  ∧ R = entityCompare (filter (λ r, is_Some (record_id f r)) savedArr)
          (filter (λ r, is_Some (record_id f r)) currentArr) f ex.
Proof.
  intros R missing extra matched.
  assert (∀ k,
    (k ∈ missing ↔ k ∈ ids_of f savedArr ∧ k ∉ ids_of f currentArr)
    ∧ (k ∈ extra ↔ k ∈ ids_of f currentArr ∧ k ∉ ids_of f savedArr)
    ∧ (k ∈ matched ↔ k ∈ ids_of f savedArr ∧ k ∈ ids_of f currentArr)) as Hids.
  { intros k. apply entityCompare_ids. }
  split; [|split; [|split; [|split]]].
  - intros k Hk. destruct (Hids k) as (-> & _ & ->).
    destruct (decide (k ∈ ids_of f currentArr)); tauto.
  - intros k Hk. destruct (Hids k) as (_ & -> & ->).
    destruct (decide (k ∈ ids_of f savedArr)); tauto.
  - apply entityCompare_ids_NoDup.
  - intros r Hr. subst R. rewrite entityCompare_unfold. cbv zeta. simpl.
    split; intros (e & -> & He)%list_elem_of_fmap;
      apply absent_from_entity, indexById_entry in He as [_ He]; congruence.
  - subst R. rewrite !entityCompare_unfold, !indexById_filter. done.
Qed.

(** ** Duplicate ids *)

(** Setting a key leaves a map of the shape [pre ++ (k, v) :: post], with [k]
    not in [pre], whatever the value set. *)
Lemma map_set_split {V} (m : jsmap V) k :
  ∃ pre post, (k ∉ map fst pre) ∧ ∀ v', map_set m k v' = pre ++ (k, v') :: post.
Proof.
  induction m as [|[k0 v0] m (pre & post & Hpre & IH)].
  - exists [], []. split; [by intros ?%elem_of_nil | done].
  - destruct (String.eqb_spec k k0) as [->|Hne].
    + exists [], m. split; [by intros ?%elem_of_nil|].
      intros v'. simpl. by rewrite String.eqb_refl.
    + exists ((k0, v0) :: pre), post. split.
      * simpl. by intros [?|?]%elem_of_cons.
      * intros v'. simpl. apply String.eqb_neq in Hne as ->. by rewrite IH.
Qed.

(** Two maps that differ in the value held at [k] only become the same map
    once a later record with id [k] is indexed. *)
Lemma index_fold_overwrite f k (l : list record) pre post (v v' : record) :
  k ∉ map fst pre → k ∈ ids_of f l →
  fold_left (index_step f) l (pre ++ (k, v) :: post)
  = fold_left (index_step f) l (pre ++ (k, v') :: post).
Proof.
  revert pre post. induction l as [|x l IH]; intros pre post Hpre Hk.
  { by apply elem_of_nil in Hk. }
  simpl. rewrite !index_step_record_id. unfold ids_of in Hk.
  rewrite omap_cons_match in Hk.
  destruct (record_id f x) as [k1|] eqn:E; [|by apply IH].
  rewrite !map_set_app. destruct (decide (k1 = k)) as [->|Hne].
  - rewrite !bool_decide_eq_false_2 by done. simpl. by rewrite String.eqb_refl.
  - apply elem_of_cons in Hk as [?|Hk]; [congruence|].
    case_bool_decide as Hk1.
    + apply IH; [|done]. rewrite map_set_keys, elem_of_set_add. by intros [?|?].
    + simpl. apply String.eqb_neq in Hne as ->. by apply IH.
Qed.

Lemma indexById_overwrite f k l1 l2 r r' :
  record_id f r = Some k → record_id f r' = Some k → k ∈ ids_of f l2 →
  indexById (l1 ++ r :: l2) f = indexById (l1 ++ r' :: l2) f.
Proof.
  intros Hr Hr' Hk. unfold indexById. rewrite !fold_left_app. simpl.
  rewrite !index_step_record_id, Hr, Hr'.
  destruct (map_set_split (fold_left (index_step f) l1 []) k)
    as (pre & post & Hpre & Hset).
  rewrite !Hset. by apply index_fold_overwrite.
Qed.

(** Dropping the earlier record: the index reads the same at every id. *)
Lemma indexById_lookup_drop f k l1 l2 r k' :
  record_id f r = Some k → k ∈ ids_of f l2 →
  map_get (indexById (l1 ++ r :: l2) f) k' = map_get (indexById (l1 ++ l2) f) k'.
Proof.
  intros Hr Hk. rewrite !indexById_lookup, !filter_app.
  destruct (decide (record_id f r = Some k')) as [E|E].
  - rewrite filter_cons_True by done. rewrite !last_app, last_cons.
    assert (k' = k) as -> by congruence.
    apply elem_of_ids_of, list_elem_of_fmap in Hk as (x & Hx & Hin).
    assert (x ∈ filter (λ r0, record_id f r0 = Some k) l2) as Hf
      by (by apply list_elem_of_filter).
    destruct (filter (λ r0, record_id f r0 = Some k) l2) as [|y l] eqn:El;
      [by apply elem_of_nil in Hf|].
    by destruct (last (y :: l)) eqn:Ey; [|by apply last_None in Ey].
  - by rewrite filter_cons_False.
Qed.

Lemma elem_of_jsmap {V} (m : jsmap V) k v :
  NoDup (map fst m) → (k, v) ∈ m ↔ assoc m k = Some v.
Proof. intros Hnd. split; [by apply assoc_NoDup_elem | apply assoc_Some_elem]. Qed.

Lemma elem_of_absent_from {V} (other : jsmap V) (m : jsmap record) e :
  e ∈ absent_from other m ↔ (e_id e, e_entity e) ∈ m ∧ map_has other (e_id e) = false.
Proof.
  unfold absent_from. rewrite list_elem_of_fmap. split.
  - intros ([k r] & -> & [Hin Hk]%elem_of_List_filter). simpl in *.
    by apply negb_true_iff in Hk.
  - intros [Hin Hk]. exists (e_id e, e_entity e). split; [by destruct e|].
    apply elem_of_List_filter. simpl. by rewrite Hk.
Qed.

Lemma elem_of_matched currentMap f ex (m : jsmap record) x :
  x ∈ omap (matched_of currentMap f ex) m ↔
  ∃ se ce, (m_id x, se) ∈ m ∧ map_get currentMap (m_id x) = Some ce
           ∧ differences x = diffProperties se ce f ex.
Proof.
  rewrite list_elem_of_omap. unfold matched_of. split.
  - intros ([k se] & Hin & Hx). simpl in Hx.
    destruct (map_get currentMap k) as [ce|] eqn:E; [|done].
    injection Hx as <-. by exists se, ce.
  - intros (se & ce & Hin & Hc & Hd). exists (m_id x, se). split; [done|].
    simpl. rewrite Hc, <- Hd. by destruct x.
Qed.

Lemma List_filter_length_Permutation {A} (p : A → bool) l l' :
  l ≡ₚ l' → length (List.filter p l) = length (List.filter p l').
Proof.
  induction 1 as [|x l l' _ IH|x y l|l1 l2 l3 _ IH1 _ IH2]; simpl;
    [done | by destruct (p x); simpl; rewrite IH
     | by destruct (p x), (p y) | congruence].
Qed.

(** The result depends on the arrays through the indexes read as functions. *)
Lemma entityCompare_same_entities S S' C C' f ex :
  (∀ k, map_get (indexById S f) k = map_get (indexById S' f) k) →
  (∀ k, map_get (indexById C f) k = map_get (indexById C' f) k) →
  same_entities (entityCompare S C f ex) (entityCompare S' C' f ex).
Proof.
  intros HS HC.
  assert (r_missing (entityCompare S C f ex) ≡ₚ r_missing (entityCompare S' C' f ex)
          ∧ r_extra (entityCompare S C f ex) ≡ₚ r_extra (entityCompare S' C' f ex)
          ∧ r_matched (entityCompare S C f ex) ≡ₚ r_matched (entityCompare S' C' f ex))
    as (Hm & He & Hx).
  { destruct (entityCompare_ids_NoDup S C f ex) as (N1 & N2 & N3).
    destruct (entityCompare_ids_NoDup S' C' f ex) as (N1' & N2' & N3').
    apply NoDup_fmap_1 in N1, N2, N3, N1', N2', N3'.
    split; [|split]; (apply NoDup_Permutation; [done | done |]); intros x;
      rewrite !entityCompare_unfold; cbv zeta; simpl.
    - rewrite !elem_of_absent_from, !elem_of_jsmap by apply indexById_NoDup.
      unfold map_has, map_get in *. by rewrite HS, HC.
    - rewrite !elem_of_absent_from, !elem_of_jsmap by apply indexById_NoDup.
      unfold map_has, map_get in *. by rewrite HS, HC.
    - rewrite !elem_of_matched. split; intros (se & ce & Hin & Hc & Hd);
        exists se, ce; rewrite elem_of_jsmap in Hin |- * by apply indexById_NoDup;
        unfold map_get in *; [rewrite <- HS, <- HC | rewrite HS, HC]; done. }
  split; [done|]. split; [done|]. split; [done|].
  destruct (entityCompare_summary S C f ex) as (E1 & E2 & E3 & E4).
  destruct (entityCompare_summary S' C' f ex) as (E1' & E2' & E3' & E4').
  destruct (r_summary (entityCompare S C f ex)), (r_summary (entityCompare S' C' f ex)).
  simpl in *. subst. unfold count_changed, count_inSync.
  by rewrite (Permutation_length Hm), (Permutation_length He),
    !(List_filter_length_Permutation _ _ _ Hx).
Qed.

(** C9.  For each id the index holds the last record of the array with that
    id.  An earlier record with the same id plays no part: whatever it
    contains, the result of [entityCompare] is the same, on either side; and
    without it the result reports the same entities, with the same
    differences and the same summary. *)
Theorem indexById_last_write_wins (f : string) :
  (∀ arr k,
     map_get (indexById arr f) k = last (filter (λ r, record_id f r = Some k) arr))
  ∧ (∀ l1 l2 r r' k other ex,
       record_id f r = Some k → record_id f r' = Some k → k ∈ ids_of f l2 →
       entityCompare (l1 ++ r :: l2) other f ex = entityCompare (l1 ++ r' :: l2) other f ex
       ∧ entityCompare other (l1 ++ r :: l2) f ex
         = entityCompare other (l1 ++ r' :: l2) f ex)
  ∧ (∀ l1 l2 r k other ex,
       record_id f r = Some k → k ∈ ids_of f l2 →
       same_entities (entityCompare (l1 ++ r :: l2) other f ex)
         (entityCompare (l1 ++ l2) other f ex)
       ∧ same_entities (entityCompare other (l1 ++ r :: l2) f ex)
           (entityCompare other (l1 ++ l2) f ex)).
Proof.
  split; [intros; apply indexById_lookup|]. split.
  - intros l1 l2 r r' k other ex Hr Hr' Hk.
    rewrite !entityCompare_unfold, (indexById_overwrite f k l1 l2 r r') by done. done.
  - intros l1 l2 r k other ex Hr Hk.
    split; apply entityCompare_same_entities; intros k'; try done;
      by apply (indexById_lookup_drop f k).
Qed.

(** ** Order of the results *)

Lemma first_index_snoc os o k :
  first_index (os ++ [o]) k
  = match first_index os k with
    | Some p => Some p
    | None => if bool_decide (o = Some k) then Some (length os) else None
    end.
Proof.
  induction os as [|o' os IH]; simpl.
  - by case_bool_decide.
  - destruct (bool_decide (o' = Some k)); [done|]. rewrite IH.
    destruct (first_index os k); simpl; [done|].
    by destruct (bool_decide (o = Some k)).
Qed.

Lemma first_index_Some os k :
  Some k ∈ os → ∃ p, first_index os k = Some p ∧ p < length os.
Proof.
  induction os as [|o os IH]; simpl; [by intros ?%elem_of_nil|].
  intros Hin. case_bool_decide as Ho.
  - exists 0. split; [done | lia].
  - apply elem_of_cons in Hin as [?|Hin]; [congruence|].
    destruct (IH Hin) as (p & -> & Hp). exists (S p). split; [done | lia].
Qed.

Lemma first_index_None os k : Some k ∉ os → first_index os k = None.
Proof.
  induction os as [|o os IH]; simpl; [done|].
  intros Hin. apply not_elem_of_cons in Hin as [Ho Hin].
  rewrite bool_decide_eq_false_2 by congruence. by rewrite IH.
Qed.

Lemma StronglySorted_mono {A} (R R' : relation A) l :
  (∀ x y, x ∈ l → y ∈ l → R x y → R' x y) →
  StronglySorted R l → StronglySorted R' l.
Proof.
  intros HR. induction 1 as [|x l Hl IH Hx]; constructor.
  - apply IH. intros y z Hy Hz. apply HR; by right.
  - rewrite Forall_forall in Hx |- *. intros y Hy.
    apply HR; [left | by right | by apply Hx].
Qed.

Lemma StronglySorted_List_filter {A} (R : relation A) (p : A → bool) l :
  StronglySorted R l → StronglySorted R (List.filter p l).
Proof.
  induction 1 as [|x l Hl IH Hx]; simpl; [constructor|].
  destruct (p x); [|done]. constructor; [done|].
  rewrite Forall_forall in Hx |- *. intros y [Hy _]%elem_of_List_filter. auto.
Qed.

(** The keys of the index follow the first occurrences of the ids. *)
Lemma Set_from_ids_ordered f arr :
  ordered_by (first_position f arr) (Set_from (ids_of f arr)).
Proof.
  unfold ordered_by, first_position.
  induction arr as [|x arr IH] using rev_ind; [constructor|].
  assert (∀ k, k ∈ Set_from (ids_of f arr) →
               first_index (map (record_id f) (arr ++ [x])) k
               = first_index (map (record_id f) arr) k) as Hsame.
  { intros k Hk. rewrite map_app. simpl. rewrite first_index_snoc.
    apply elem_of_Set_from, elem_of_ids_of, first_index_Some in Hk as (p & -> & _).
    done. }
  assert (StronglySorted (pos_lt (first_index (map (record_id f) (arr ++ [x]))))
            (Set_from (ids_of f arr))) as IH'.
  { revert IH. apply StronglySorted_mono.
    intros k1 k2 H1 H2 (p1 & p2 & E1 & E2 & Hlt). exists p1, p2.
    by rewrite !Hsame. }
  rewrite ids_of_snoc. unfold Set_from in *. rewrite fold_left_app.
  destruct (record_id f x) as [k0|] eqn:E; simpl; [|exact IH'].
  unfold set_add at 1. case_bool_decide as Hk0; [exact IH'|].
  apply StronglySorted_app. split; [|split; [exact IH' | repeat constructor]].
  intros k1 k2 Hk1 ->%list_elem_of_singleton.
  pose proof (Hsame _ Hk1) as E1.
  apply elem_of_fold_set_add in Hk1 as [Hk1|Hk1]; [by apply elem_of_nil in Hk1|].
  apply elem_of_ids_of, first_index_Some in Hk1 as (p & Hp & Hlt).
  exists p, (length arr). rewrite E1, Hp. split; [done|]. split; [|by rewrite length_map in Hlt].
  rewrite map_app. simpl. rewrite first_index_snoc, first_index_None, E.
  - rewrite bool_decide_eq_true_2 by done. by rewrite length_map.
  - rewrite <- elem_of_ids_of. intros Hin. apply Hk0.
    apply elem_of_fold_set_add. by right.
Qed.

(** C10, as first stated, fails when an id is repeated: the key of the index
    stays where the first record with the id put it, while the record kept is
    the last one. *)
Lemma entityCompare_order_by_last_counterexample :
  let saved := [ [("id", VStr "a"); ("v", VNum 1)];
                 [("id", VStr "b")];
                 [("id", VStr "a"); ("v", VNum 2)] ] in
  let R := entityCompare saved [] "id" [] in
  map e_id (r_missing R) = ["a"; "b"]
  ∧ last_position "id" saved "a" = Some 2
  ∧ last_position "id" saved "b" = Some 1
  ∧ ¬ ordered_by (last_position "id" saved) (map e_id (r_missing R)).
Proof.
  intros saved R.
  assert (map e_id (r_missing R) = ["a"; "b"]) as E by (by vm_compute).
  split; [done|]. split; [by vm_compute|]. split; [by vm_compute|].
  rewrite E. intros H. inversion H as [|? ? _ HF]; subst.
  apply Forall_cons in HF as [(p1 & p2 & E1 & E2 & Hlt) _].
  vm_compute in E1, E2. injection E1 as <-. injection E2 as <-. lia.
Qed.

(** C10, amended.  [missing] and [matched] list the ids by the position of
    the first record with each id in the saved array, and [extra] by the
    position of the first such record in the current array; the entity
    reported with an id is the last record with that id. *)
Theorem entityCompare_order (savedArr currentArr : list record) (f : string)
    (ex : list string) :
  let R := entityCompare savedArr currentArr f ex in
  ordered_by (first_position f savedArr) (map e_id (r_missing R))
  ∧ ordered_by (first_position f savedArr) (map m_id (r_matched R))
  ∧ ordered_by (first_position f currentArr) (map e_id (r_extra R))
  ∧ (∀ e, e ∈ r_missing R →
       last (filter (λ r, record_id f r = Some (e_id e)) savedArr) = Some (e_entity e))
  ∧ (∀ e, e ∈ r_extra R →
       last (filter (λ r, record_id f r = Some (e_id e)) currentArr) = Some (e_entity e)).
Proof.
  rewrite entityCompare_unfold. cbv zeta. simpl.
  rewrite !absent_from_ids, matched_ids, !indexById_keys.
  repeat split; try (apply StronglySorted_List_filter, Set_from_ids_ordered).
  - intros e He%absent_from_entity. rewrite <- indexById_lookup.
    apply assoc_NoDup_elem; [apply indexById_NoDup | done].
  - intros e He%absent_from_entity. rewrite <- indexById_lookup.
    apply assoc_NoDup_elem; [apply indexById_NoDup | done].
Qed.

(** ** The multiset *)

Lemma map_bump_keys m k : map fst (map_bump m k) = map fst m.
Proof.
  induction m as [|[k' b] m IH]; simpl; [done|].
  destruct (String.eqb k k'); simpl; by rewrite ?IH.
Qed.

Lemma assoc_map_bump m k k' :
  assoc (map_bump m k) k'
  = if String.eqb k' k
    then (λ b, mkBucket (S (count b)) (b_value b)) <$> assoc m k
    else assoc m k'.
Proof.
  induction m as [|[k0 b] m IH]; simpl; [by destruct (String.eqb k' k)|].
  destruct (String.eqb_spec k k0) as [->|Hne]; simpl.
  - by destruct (String.eqb_spec k' k0).
  - rewrite IH. destruct (String.eqb_spec k' k0) as [->|?].
    + by destruct (String.eqb_spec k0 k); [congruence|].
    + done.
Qed.

Lemma buildMultiset_snoc arr x :
  buildMultiset (arr ++ [x]) = multiset_step (buildMultiset arr) x.
Proof. unfold buildMultiset. by rewrite fold_left_app. Qed.

Lemma buildMultiset_NoDup arr : NoDup (map fst (buildMultiset arr)).
Proof.
  induction arr as [|x arr IH] using rev_ind; [constructor|].
  rewrite buildMultiset_snoc. unfold multiset_step.
  destruct (map_has _ _).
  - by rewrite map_bump_keys.
  - rewrite map_set_keys. by apply NoDup_set_add.
Qed.

(** The frequency map: under each canonical key, the number of items with
    that key and the first of them. *)
Lemma buildMultiset_lookup arr k :
  map_get (buildMultiset arr) k
  = mkBucket (key_count k arr) <$> representative k arr.
Proof.
  unfold map_get, key_count, representative.
  induction arr as [|x arr IH] using rev_ind; [done|].
  rewrite buildMultiset_snoc, filter_app. unfold multiset_step, map_has.
  destruct (decide (canonicalize x = k)) as [<-|Hne].
  - rewrite filter_cons_True, filter_nil by done. rewrite length_app. simpl.
    destruct (assoc (buildMultiset arr) (canonicalize x)) as [b|] eqn:E.
    + rewrite assoc_map_bump, String.eqb_refl, E.
      destruct (filter _ arr) as [|y l]; [done|].
      injection IH as ->. simpl. do 2 f_equal. lia.
    + rewrite assoc_map_set, String.eqb_refl.
      by destruct (filter _ arr).
  - rewrite filter_cons_False, filter_nil, app_nil_r by done.
    apply String.eqb_neq in Hne. rewrite String.eqb_sym in Hne.
    destruct (assoc (buildMultiset arr) (canonicalize x)).
    + by rewrite assoc_map_bump, Hne.
    + by rewrite assoc_map_set, Hne.
Qed.

Lemma buildMultiset_entry arr k b :
  (k, b) ∈ buildMultiset arr →
  canonicalize (b_value b) = k ∧ count b = key_count k arr
  ∧ representative k arr = Some (b_value b).
Proof.
  intros Hin. apply assoc_NoDup_elem in Hin; [|apply buildMultiset_NoDup].
  change (map_get (buildMultiset arr) k = Some b) in Hin.
  rewrite buildMultiset_lookup in Hin.
  destruct (representative k arr) as [v|] eqn:E; [|done].
  injection Hin as <-. simpl. split; [|done].
  apply head_Some_elem_of, list_elem_of_filter in E. tauto.
Qed.

Lemma fold_surplus_step other m acc :
  fold_left (surplus_step other) m acc = acc ++ flat_map (surplus_of other) m.
Proof.
  revert acc. induction m as [|e m IH]; intros acc; simpl.
  - by rewrite app_nil_r.
  - rewrite IH. unfold surplus_step, surplus_of. by rewrite <- app_assoc.
Qed.

Lemma flatCompare_unfold savedArr currentArr :
  flatCompare savedArr currentArr
  = let missing := flat_map (surplus_of (buildMultiset currentArr)) (buildMultiset savedArr) in
    let extra := flat_map (surplus_of (buildMultiset savedArr)) (buildMultiset currentArr) in
    {| f_missing := missing;
       f_extra := extra;
       f_summary := {| fsum_missing := length missing; fsum_extra := length extra |} |}.
Proof. unfold flatCompare. by rewrite !fold_surplus_step. Qed.

Lemma filter_replicate_key k n v :
  filter (λ x, canonicalize x = k) (replicate n v)
  = if decide (canonicalize v = k) then replicate n v else [].
Proof.
  induction n as [|n IH]; simpl; [by destruct (decide _)|].
  destruct (decide (canonicalize v = k)) as [E|E].
  - rewrite filter_cons_True by done. by rewrite IH.
  - rewrite filter_cons_False by done. by rewrite IH.
Qed.

Lemma surplus_other_keys other (m : jsmap bucket) k :
  k ∉ map fst m →
  (∀ e, e ∈ m → canonicalize (b_value e.2) = e.1) →
  filter (λ x, canonicalize x = k) (flat_map (surplus_of other) m) = [].
Proof.
  induction m as [|[k' b] m IH]; intros Hk Hent; simpl in *; [done|].
  apply not_elem_of_cons in Hk as [Hne Hk].
  rewrite filter_app. unfold surplus_of at 1. simpl.
  pose proof (Hent (k', b) ltac:(left)) as Hkb. simpl in Hkb.
  rewrite filter_replicate_key, Hkb.
  rewrite decide_False by congruence. simpl.
  apply IH; [done | intros; apply Hent; by right].
Qed.

(** The items of one canonical key among the surplus of [arr] over [other]. *)
Lemma surplus_by_key arr other k :
  filter (λ x, canonicalize x = k)
    (flat_map (surplus_of (buildMultiset other)) (buildMultiset arr))
  = replicate (key_count k arr - key_count k other)
      (default VNull (representative k arr)).
Proof.
  pose proof (buildMultiset_lookup arr k) as Hk.
  pose proof (buildMultiset_NoDup arr) as Hnd.
  assert (∀ e, e ∈ buildMultiset arr →
               canonicalize (b_value e.2) = e.1) as Hent.
  { intros [k' b] He. by apply buildMultiset_entry in He as [? _]. }
  unfold map_get in Hk. revert Hk Hnd Hent.
  generalize (buildMultiset arr) as m.
  induction m as [|[k' b] m IH]; intros Hk Hnd Hent; simpl in *.
  - unfold key_count, representative in *.
    destruct (filter _ arr); [done | discriminate].
  - apply NoDup_cons in Hnd as [Hk' Hnd].
    rewrite filter_app. unfold surplus_of at 1. simpl.
    pose proof (Hent (k', b) ltac:(left)) as Hkb. simpl in Hkb.
    rewrite filter_replicate_key, Hkb.
    destruct (String.eqb_spec k k') as [->|Hne].
    + rewrite decide_True by done.
      rewrite surplus_other_keys; [|done | intros; apply Hent; by right].
      destruct (representative k' arr) as [v|] eqn:E; simpl in Hk; [|done].
      injection Hk as ->. simpl. rewrite app_nil_r, buildMultiset_lookup.
      assert (match mkBucket (key_count k' other) <$> representative k' other with
              | Some b0 => count b0
              | None => 0
              end = key_count k' other) as ->; [|done].
      unfold key_count, representative. by destruct (filter _ other).
    + rewrite decide_False by congruence. simpl.
      apply IH; [done | done | intros; apply Hent; by right].
Qed.

Lemma nil_by_key (l : list value) :
  (∀ k, filter (λ x, canonicalize x = k) l = []) → l = [].
Proof.
  destruct l as [|x l]; [done|]. intros H. specialize (H (canonicalize x)).
  by rewrite filter_cons_True in H.
Qed.

(** C4.  [buildMultiset] maps each canonical key to the number of items with
    that key and to the first of them; for every canonical key, with [Cs]
    items in saved and [Cc] in current, [missing] holds exactly
    [max 0 (Cs - Cc)] items of that key, all of them the representative kept
    for saved, and [extra] exactly [max 0 (Cc - Cs)], all of them the
    representative kept for current; [flatCompare A A] has both lists empty. *)
Theorem flatCompare_multiset :
  (∀ arr k,
     map_get (buildMultiset arr) k
     = mkBucket (key_count k arr) <$> representative k arr)
  ∧ (∀ savedArr currentArr k,
       let R := flatCompare savedArr currentArr in
       let Cs := Z.of_nat (key_count k savedArr) in
       let Cc := Z.of_nat (key_count k currentArr) in
       filter (λ x, canonicalize x = k) (f_missing R)
       = replicate (Z.to_nat (Z.max 0 (Cs - Cc)))
           (default VNull (representative k savedArr))
       ∧ filter (λ x, canonicalize x = k) (f_extra R)
         = replicate (Z.to_nat (Z.max 0 (Cc - Cs)))
             (default VNull (representative k currentArr)))
  ∧ (∀ A, f_missing (flatCompare A A) = [] ∧ f_extra (flatCompare A A) = []).
Proof.
  split; [apply buildMultiset_lookup|]. split.
  - intros savedArr currentArr k R Cs Cc. subst R Cs Cc.
    rewrite flatCompare_unfold. cbv zeta. simpl. rewrite !surplus_by_key.
    split; f_equal; lia.
  - intros A. rewrite flatCompare_unfold. cbv zeta. simpl.
    split; apply nil_by_key; intros k; rewrite surplus_by_key, Nat.sub_diag; done.
Qed.

(** ** Loops that collect sections *)

Section collecting_loops.
Context {B S : Type} (w : S → nat).

Lemma fold_leftM_ext {A} (f g : A → B → option A) l a :
  (∀ a b, b ∈ l → f a b = g a b) → fold_leftM f l a = fold_leftM g l a.
Proof.
  revert a. induction l as [|b l IH]; intros a H; simpl; [done|].
  rewrite H by left. destruct (g a b) as [a'|]; simpl; [|done].
  apply IH. intros. apply H. by right.
Qed.

(** A loop that pushes one section per round and adds its total. *)
Lemma fold_leftM_push (g : B → option S) l (st : list S * nat) :
  fold_leftM (λ st b, s ← g b; Some (st.1 ++ [s], st.2 + w s)) l st
  = new ← mapM g l; Some (st.1 ++ new, st.2 + sum_list_with w new).
Proof.
  revert st. induction l as [|b l IH]; intros [ss n]; simpl.
  - by rewrite app_nil_r, Nat.add_0_r.
  - destruct (g b) as [s|]; simpl; [|done]. rewrite IH. simpl.
    destruct (mapM g l) as [new|]; simpl; [|done].
    rewrite <- app_assoc. simpl. do 2 f_equal. lia.
Qed.

(** A loop that pushes a group of sections per round. *)
Lemma fold_leftM_push_group (G : B → option (list S)) l (st : list S * nat) :
  fold_leftM (λ st b, new ← G b; Some (st.1 ++ new, st.2 + sum_list_with w new)) l st
  = groups ← mapM G l;
    Some (st.1 ++ mjoin groups, st.2 + sum_list_with w (mjoin groups)).
Proof.
  revert st. induction l as [|b l IH]; intros [ss n]; simpl.
  - by rewrite app_nil_r, Nat.add_0_r.
  - destruct (G b) as [new|]; simpl; [|done]. rewrite IH. simpl.
    destruct (mapM G l) as [groups|]; simpl; [|done].
    rewrite <- app_assoc, sum_list_with_app. do 2 f_equal. lia.
Qed.
End collecting_loops.

Lemma child_step_push rec parentConfig m savedIndex currentIndex st c :
  child_step rec parentConfig (m_id m)
    (default [] (map_get savedIndex (m_id m)))
    (default [] (map_get currentIndex (m_id m))) st c
  = s ← child_section rec parentConfig savedIndex currentIndex m c;
    Some (st.1 ++ [s], st.2 + totalDifferences s).
Proof.
  unfold child_step, child_section. cbv zeta.
  by destruct (rec c _ _).
Qed.

(** [compareChildren] computes, for the matched parents in order, the child
    sections in the order of the child descriptors, and sums their totals. *)
Lemma compareChildren_groups rec parentConfig parentResult savedArr currentArr :
  compareChildren rec parentConfig parentResult savedArr currentArr
  = if indexes_throw savedArr currentArr (default "undefined" (idField parentConfig))
    then None
    else
      groups ← mapM (λ m,
          mapM (child_section rec parentConfig
                  (indexBy savedArr (idField parentConfig))
                  (indexBy currentArr (idField parentConfig)) m)
            (children parentConfig)) (r_matched parentResult);
      Some (mjoin groups, sum_totals (mjoin groups)).
Proof.
  unfold compareChildren. cbv zeta. destruct (indexes_throw _ _ _); [done|].
  rewrite <- (fold_leftM_push_group totalDifferences _ _ ([], 0)).
  apply fold_leftM_ext. intros st m _. unfold parent_step. cbv zeta.
  rewrite <- fold_leftM_push. apply fold_leftM_ext. intros st' c _.
  apply child_step_push.
Qed.

Lemma compareSection_flat config savedArr currentArr :
  strat config = Flat →
  compareSection config savedArr currentArr
  = savedItems ← as_array savedArr;
    currentItems ← as_array currentArr;
    Some (buildFlatSection config savedItems currentItems).
Proof. destruct config. simpl. by intros ->. Qed.

Lemma compareSection_entity config savedArr currentArr :
  strat config = Entity →
  compareSection config savedArr currentArr
  = savedRecs ← as_records savedArr;
    currentRecs ← as_records currentArr;
    if indexes_throw savedRecs currentRecs (default "id" (idField config)) then None
    else
      let result := entityCompare savedRecs currentRecs
                      (default "id" (idField config)) (getChildKeys config) in
      childSections ←
        match children config with
        | [] => Some None
        | _ :: _ =>
            Some <$> compareChildren compareSection config result savedRecs currentRecs
        end;
      Some {| sec_key := key config;
              sec_label := label config;
              sec_data := EntityData result;
              childSections := fst <$> childSections;
              totalDifferences :=
                sum_missing (r_summary result) + sum_extra (r_summary result)
                + sum_changed (r_summary result)
                + match childSections with Some c => c.2 | None => 0 end;
              parentId := None;
              parentLabel := None |}.
Proof. destruct config. simpl. by intros ->. Qed.

(** ** Totals *)

Lemma total_consistent_unfold s :
  total_consistent s ↔
  match childSections s with
  | Some cs => totalDifferences s = direct_differences s + sum_totals cs
               ∧ Forall total_consistent cs
  | None => totalDifferences s = direct_differences s
  end.
Proof.
  destruct s as [k l d [cs|] t pi pl]; simpl; [|done].
  apply and_iff_compat_l. induction cs as [|c cs IH]; [by split|].
  rewrite Forall_cons, <- IH. done.
Qed.

Lemma total_consistent_tag_parent s pid plabel :
  total_consistent (tag_parent s pid plabel) ↔ total_consistent s.
Proof. by rewrite !total_consistent_unfold. Qed.

Lemma Forall2_elem_of_r {A B} (P : A → B → Prop) l k y :
  Forall2 P l k → y ∈ k → ∃ x, x ∈ l ∧ P x y.
Proof.
  induction 1 as [|x y' l k Hxy _ IH]; [by intros ?%elem_of_nil|].
  intros [->|Hy]%elem_of_cons.
  - exists x. split; [left | done].
  - destruct (IH Hy) as (x' & ? & ?). exists x'. split; [by right | done].
Qed.

Lemma compareSection_consistent config :
  ∀ savedArr currentArr s,
    compareSection config savedArr currentArr = Some s → total_consistent s.
Proof.
  induction config as [k l st i cs IH] using config_nested_ind.
  intros savedArr currentArr s. destruct st.
  - (* entity *)
    rewrite compareSection_entity by done. cbn [key label strat idField children].
    destruct (as_records savedArr) as [S|]; [|done].
    destruct (as_records currentArr) as [C|]; [|done]. simpl.
    destruct (indexes_throw S C _); [done|].
    set (R := entityCompare S C _ _).
    destruct (entityCompare_summary S C (default "id" i)
                (getChildKeys (mkConfig k l Entity i cs))) as (Em & Ee & Ec & _).
    fold R in Em, Ee, Ec.
    destruct cs as [|c0 cs'].
    + simpl. intros [= <-]. apply total_consistent_unfold.
      unfold direct_differences. simpl. lia.
    + rewrite compareChildren_groups.
      destruct (indexes_throw S C _); [done|].
      destruct (mapM _ (r_matched R)) as [groups|] eqn:Eg; [|done].
      simpl. intros [= <-]. apply total_consistent_unfold. simpl.
      split; [unfold direct_differences; simpl; lia|].
      apply mapM_Some in Eg. apply Forall_forall. intros s' Hs'.
      apply list_elem_of_join in Hs' as (g & Hs' & Hg).
      destruct (Forall2_elem_of_r _ _ _ _ Eg Hg) as (m & _ & Hm).
      apply mapM_Some in Hm.
      destruct (Forall2_elem_of_r _ _ _ _ Hm Hs') as (c & Hc & Hs).
      unfold child_section in Hs. cbv zeta in Hs.
      destruct (compareSection c _ _) as [s0|] eqn:E0; [|done].
      injection Hs as <-. apply total_consistent_tag_parent.
      rewrite Forall_forall in IH. by eapply IH.
  - (* flat *)
    rewrite compareSection_flat by done.
    destruct (as_array savedArr) as [S|]; [|done].
    destruct (as_array currentArr) as [C|]; [|done]. simpl.
    intros [= <-]. apply total_consistent_unfold. done.
Qed.

Lemma compare_in_sections reg now saved current :
  compare_in reg now saved current
  = ss ← mapM (λ c, compareSection c (or_empty_array (get_prop saved (key c)))
                      (or_empty_array (get_prop current (key c)))) reg;
    Some {| timestamp := now; rep_totalDifferences := sum_totals ss; sections := ss |}.
Proof.
  unfold compare_in, compare_step.
  rewrite (fold_leftM_push totalDifferences). by destruct (mapM _ reg).
Qed.

(** C1.  In every section the engine produces, at every depth,
    [totalDifferences] is the section's own count (missing + extra + changed
    for the entity strategy, missing + extra for the flat one) plus the sum
    of the totals of its child sections; the total of the report is the sum
    of the totals of its sections. *)
Theorem totalDifferences_consistent :
  (∀ config savedArr currentArr s,
     compareSection config savedArr currentArr = Some s → total_consistent s)
  ∧ (∀ now saved current rep,
       compare now saved current = Some rep →
       rep_totalDifferences rep = sum_totals (sections rep)
       ∧ Forall total_consistent (sections rep)).
Proof.
  split; [apply compareSection_consistent|].
  intros now saved current rep. unfold compare. rewrite compare_in_sections.
  destruct (mapM _ registry) as [ss|] eqn:E; [|done].
  simpl. intros [= <-]. simpl. split; [done|].
  apply mapM_Some in E. apply Forall_forall. intros s Hs.
  destruct (Forall2_elem_of_r _ _ _ _ E Hs) as (c & _ & Hc).
  by eapply compareSection_consistent.
Qed.

(** ** Child sections *)


Lemma matched_in_both savedArr currentArr f ex m :
  m ∈ r_matched (entityCompare savedArr currentArr f ex) →
  ∃ savedParent currentParent,
    map_get (indexById savedArr f) (m_id m) = Some savedParent
    ∧ map_get (indexById currentArr f) (m_id m) = Some currentParent
    ∧ differences m = diffProperties savedParent currentParent f ex.
Proof.
  rewrite entityCompare_unfold. cbv zeta. simpl.
  intros ([k r] & Hin & Hm)%list_elem_of_omap. unfold matched_of in Hm. simpl in Hm.
  destruct (map_get (indexById currentArr f) k) as [ce|] eqn:E; [|done].
  injection Hm as <-. simpl. exists r, ce. split; [|done].
  apply assoc_NoDup_elem; [apply indexById_NoDup | done].
Qed.

(** C3.  Presence of a property is tested with [in], which also sees the
    names every record inherits.  A record that has [__proto__] as a property
    of its own, holding an empty object, is reported to have no difference
    from a record that lacks the property; and the difference reported for a
    property of its own named [constructor] carries on the other side the
    inherited member, not the absent marker. *)
Theorem entityCompare_inherited_names :
  r_matched (entityCompare [ [("id", VStr "x"); ("__proto__", VObj [])] ]
                           [ [("id", VStr "x")] ] "id" [])
  = [ mkMatched "x" [] ]
  ∧ r_matched (entityCompare [ [("id", VStr "x"); ("constructor", VStr "a")] ]
                             [ [("id", VStr "x")] ] "id" [])
    = [ mkMatched "x" [ mkPropertyDiff "constructor" (Some (Data (VStr "a")))
                                       (Some (Inherited "constructor")) ] ].
Proof. by vm_compute. Qed.

(** X30.  The differences reported for a matched id are those of the two
    records the indexes hold for it: listed by property name in strictly
    increasing order, over the property names of either record other than
    [idField] and the names in [excludeKeys]; each difference carries on each
    side what the record reads under the name: a value of its own, the
    member it inherits, or [None] (the absent marker, which is not
    [Some (Data VNull)]) when it reads nothing there; and a name is listed
    exactly when the two records do not agree on it. *)
Theorem entityCompare_differences (savedArr currentArr : list record) (f : string)
    (ex : list string) (m : MatchedEntity) :
  m ∈ r_matched (entityCompare savedArr currentArr f ex) →
  ∃ saved current,
    map_get (indexById savedArr f) (m_id m) = Some saved
    ∧ map_get (indexById currentArr f) (m_id m) = Some current
    ∧ StronglySorted (strict String.le) (map property (differences m))
    ∧ (∀ d, d ∈ differences m →
         (property d ∈ Object_keys saved ∨ property d ∈ Object_keys current)
         ∧ property d ≠ f ∧ (property d ∉ ex)
         ∧ pd_saved d = read_prop saved (property d)
         ∧ pd_current d = read_prop current (property d))
    ∧ (∀ k, k ∈ Object_keys saved ∨ k ∈ Object_keys current →
         k ≠ f → k ∉ ex →
         (k ∈ map property (differences m) ↔ ¬ agree_on saved current k)).
Proof.
  intros (saved & current & Hs & Hc & ->)%matched_in_both.
  exists saved, current. split; [done|]. split; [done|].
  apply diffProperties_facts.
Qed.



(** ** Well-formed snapshots *)

Lemma well_formed_flat config v :
  strat config = Flat →
  well_formed config v = match as_array v with Some _ => true | None => false end.
Proof. destruct config. simpl. by intros ->. Qed.

Lemma well_formed_entity config v :
  strat config = Entity →
  well_formed config v
  = match as_records v with
    | Some recs =>
        forallb (λ f, negb (index_throws f recs)) (indexed_fields config)
        && forallb (λ r,
             forallb (λ c, well_formed c (or_empty_array (get_prop r (key c))))
               (children config)) recs
    | None => false
    end.
Proof. destruct config. simpl. by intros ->. Qed.

(** On two arrays whose ids can be stringified, no index throws. *)
Lemma indexed_fields_convert config S C :
  forallb (λ f, negb (index_throws f S)) (indexed_fields config) = true →
  forallb (λ f, negb (index_throws f C)) (indexed_fields config) = true →
  indexes_throw S C (default "id" (idField config)) = false
  ∧ (children config ≠ [] →
     indexes_throw S C (default "undefined" (idField config)) = false).
Proof.
  unfold indexed_fields, indexes_throw. simpl. intros HS HC.
  destruct (index_throws (default "id" (idField config)) S); [done|].
  destruct (index_throws (default "id" (idField config)) C); [done|].
  split; [done|]. destruct (children config); [done|]. intros _. simpl in *.
  destruct (index_throws (default "undefined" (idField config)) S); [done|].
  by destruct (index_throws (default "undefined" (idField config)) C).
Qed.

Lemma well_formed_empty config : well_formed config (VArr []) = true.
Proof. by destruct config as [k l [] i [|c cs]]. Qed.

Lemma indexBy_entry arr field k r : map_get (indexBy arr field) k = Some r → r ∈ arr.
Proof.
  intros H. apply assoc_Some_elem in H.
  by apply (indexById_entry arr (default "undefined" field)) in H as [? _].
Qed.

Lemma compareSection_defined config :
  ∀ savedArr currentArr,
    well_formed config savedArr = true → well_formed config currentArr = true →
    is_Some (compareSection config savedArr currentArr).
Proof.
  induction config as [k l st i cs IH] using config_nested_ind.
  intros savedArr currentArr. destruct st.
  - rewrite !well_formed_entity, compareSection_entity by done.
    cbn [key label strat idField children].
    destruct (as_records savedArr) as [S|]; [|done].
    destruct (as_records currentArr) as [C|]; [|done].
    intros [HiS HS]%andb_prop [HiC HC]%andb_prop.
    destruct (indexed_fields_convert _ _ _ HiS HiC) as [Hi Hu].
    cbn [children idField] in Hi, Hu. simpl. rewrite Hi.
    destruct cs as [|c0 cs']; [by eexists|].
    rewrite compareChildren_groups. cbn [children idField].
    rewrite Hu by done.
    set (cs := c0 :: cs') in *.
    assert (is_Some (mapM (λ m,
              mapM (child_section compareSection (mkConfig k l Entity i cs)
                      (indexBy S i) (indexBy C i) m) cs)
              (r_matched (entityCompare S C (default "id" i)
                            (getChildKeys (mkConfig k l Entity i cs)))))) as [g ->];
      [|by eexists].
    apply mapM_is_Some_2, Forall_forall. intros m _. unfold compose.
    apply mapM_is_Some_2, Forall_forall. intros c Hc. unfold compose.
    unfold child_section. cbv zeta.
    assert (∀ (idx : jsmap record) arr,
              (∀ r, map_get idx (m_id m) = Some r → r ∈ arr) →
              forallb (λ r, forallb (λ c, well_formed c
                         (or_empty_array (get_prop r (key c)))) cs) arr = true →
              well_formed c (or_empty_array
                (get_prop (default [] (map_get idx (m_id m))) (key c))) = true) as Hwf.
    { intros idx arr Hidx Harr. destruct (map_get idx (m_id m)) as [r|]; simpl.
      - rewrite forallb_forall in Harr. specialize (Harr r).
        rewrite <- list_elem_of_In in Harr. specialize (Harr (Hidx r eq_refl)).
        rewrite forallb_forall in Harr. apply Harr. by apply list_elem_of_In.
      - apply well_formed_empty. }
    rewrite Forall_forall in IH.
    destruct (IH c Hc _ _
                (Hwf (indexBy S i) S (indexBy_entry S i (m_id m)) HS)
                (Hwf (indexBy C i) C (indexBy_entry C i (m_id m)) HC)) as [s ->].
    by eexists.
  - rewrite !well_formed_flat, compareSection_flat by done.
    destruct (as_array savedArr); [|done]. destruct (as_array currentArr); [|done].
    by eexists.
Qed.

(** Two empty collections give a section without differences. *)
Lemma compareSection_empty config :
  ∃ s, compareSection config (VArr []) (VArr []) = Some s
       ∧ sec_key s = key config ∧ totalDifferences s = 0.
Proof.
  destruct config as [k l [] i [|c0 cs]]; eexists; split; (reflexivity || done).
Qed.

Lemma assoc_snoc_absent {A} (l : list (string * A)) k v k' :
  assoc l k = None →
  assoc (l ++ [(k, v)]) k' = if String.eqb k' k then Some v else assoc l k'.
Proof.
  induction l as [|[k0 v0] l IH]; simpl; [done|].
  destruct (String.eqb_spec k k0) as [->|Hne]; [done|]. intros Hl.
  destruct (String.eqb_spec k' k0) as [->|?]; [|by apply IH].
  by destruct (String.eqb_spec k0 k); [congruence|].
Qed.

(** A key that is absent reads as the empty collection it could have held. *)
Lemma or_empty_array_snoc (o : record) k k' :
  get_prop o k = None →
  or_empty_array (get_prop (o ++ [(k, VArr [])]) k') = or_empty_array (get_prop o k').
Proof.
  intros Hk. unfold get_prop in *. rewrite assoc_snoc_absent by done.
  destruct (String.eqb_spec k' k) as [->|?]; [|done]. by rewrite Hk.
Qed.

(** C8.  On well-formed snapshots, whose collections are arrays and whose
    entities are objects with ids that can be stringified, [compare] returns
    a report; a key of the
    registry that a snapshot lacks reads as the empty collection, so that
    adding the key with an empty collection changes nothing in the report;
    and a descriptor whose key is absent from, or empty in, both snapshots
    still has its section, at its place, with no difference counted. *)
Theorem compare_total :
  (∀ now saved current,
     wf_snapshot registry saved = true → wf_snapshot registry current = true →
     is_Some (compare now saved current))
  ∧ (∀ now saved current k,
       get_prop saved k = None →
       compare now (saved ++ [(k, VArr [])]) current = compare now saved current)
  ∧ (∀ now saved current k,
       get_prop current k = None →
       compare now saved (current ++ [(k, VArr [])]) = compare now saved current)
  ∧ (∀ now saved current rep i config,
       compare now saved current = Some rep →
       registry !! i = Some config →
       get_prop saved (key config) = None
         ∨ get_prop saved (key config) = Some (VArr []) →
       get_prop current (key config) = None
         ∨ get_prop current (key config) = Some (VArr []) →
       ∃ s, sections rep !! i = Some s
            ∧ sec_key s = key config ∧ totalDifferences s = 0).
Proof.
  unfold compare. split; [|split; [|split]].
  - intros now saved current Hs Hc. rewrite compare_in_sections.
    unfold wf_snapshot in *. rewrite forallb_forall in Hs, Hc.
    assert (is_Some (mapM (λ c, compareSection c
              (or_empty_array (get_prop saved (key c)))
              (or_empty_array (get_prop current (key c)))) registry)) as [ss ->];
      [|by eexists].
    apply mapM_is_Some_2, Forall_forall. intros c Hin%list_elem_of_In.
    apply compareSection_defined; auto.
  - intros now saved current k Hk. rewrite !compare_in_sections.
    erewrite mapM_ext; [reflexivity|]. intros c. simpl.
    by rewrite or_empty_array_snoc.
  - intros now saved current k Hk. rewrite !compare_in_sections.
    erewrite mapM_ext; [reflexivity|]. intros c. simpl.
    by rewrite or_empty_array_snoc.
  - intros now saved current rep i config Hrep Hi Hs Hc.
    rewrite compare_in_sections in Hrep.
    destruct (mapM _ registry) as [ss|] eqn:E; [|done].
    injection Hrep as <-. simpl. apply mapM_Some in E.
    destruct (Forall2_lookup_l _ _ _ _ _ E Hi) as (s & Hs' & Hcmp).
    exists s. split; [done|].
    assert (or_empty_array (get_prop saved (key config)) = VArr []) as Es
      by (by destruct Hs as [-> | ->]).
    assert (or_empty_array (get_prop current (key config)) = VArr []) as Ec
      by (by destruct Hc as [-> | ->]).
    rewrite Es, Ec in Hcmp.
    destruct (compareSection_empty config) as (s0 & E0 & ? & ?).
    rewrite E0 in Hcmp. by injection Hcmp as <-.
Qed.

(** * The theorems at work on concrete snapshots *)

(** The namespace [ns1] keeps its fields and loses the class [c1]: the child
    section counts one difference, and so does the parent section. *)
Lemma totalDifferences_consistent_witness :
  let config := entity "namespaces" "Namespaces" [entity "classes" "Classes" []] in
  let savedArr := VArr [VObj [("id", VStr "ns1"); ("classes", VArr [obj_id "c1"])]] in
  let currentArr := VArr [VObj [("id", VStr "ns1"); ("classes", VArr [])]] in
  ∃ s,
    compareSection config savedArr currentArr = Some s
    ∧ totalDifferences s = 1
    ∧ total_consistent s.
Proof.
  intros config savedArr currentArr.
  destruct (compareSection config savedArr currentArr) as [s|] eqn:E;
    [|by vm_compute in E].
  exists s. split; [done|]. split.
  - vm_compute in E. by injection E as <-.
  - exact (proj1 totalDifferences_consistent config savedArr currentArr s E).
Defined.

(** One saved record has no id and one a null id: [a] is missing, [b]
    matched, and neither of the two records without id is reported. *)
Lemma entityCompare_partition_witness :
  let saved := [ [("id", VStr "a")]; [("name", VStr "x")];
                 [("id", VNull)]; [("id", VStr "b")] ] in
  let current := [ [("id", VStr "b")]; [("id", VStr "c")] ] in
  let R := entityCompare saved current "id" [] in
  (("a" ∈ map e_id (r_missing R) ∧ ("a" ∉ map m_id (r_matched R)))
   ∨ (("a" ∉ map e_id (r_missing R)) ∧ "a" ∈ map m_id (r_matched R)))
  ∧ ([("name", VStr "x")] ∉ map e_entity (r_missing R))
  ∧ ([("id", VNull)] ∉ map e_entity (r_missing R)).
Proof.
  intros saved current R.
  destruct (entityCompare_partition saved current "id" []) as (H1 & _ & _ & H4 & _).
  split; [|split].
  - apply H1. by vm_compute; left.
  - apply H4. reflexivity.
  - apply H4. reflexivity.
Defined.

(** A note present on the saved side only, a flag that is null on one side
    and absent on the other, and a number under a name that the other record
    inherits. *)
Lemma entityCompare_differences_witness :
  let saved := [ [("id", VStr "x"); ("note", VStr "hi"); ("flag", VNull);
                  ("valueOf", VNum 1)] ] in
  let current := [ [("id", VStr "x")] ] in
  let m := mkMatched "x"
             [ mkPropertyDiff "flag" (Some (Data VNull)) None;
               mkPropertyDiff "note" (Some (Data (VStr "hi"))) None;
               mkPropertyDiff "valueOf" (Some (Data (VNum 1))) (Some (Inherited "valueOf")) ] in
  ∃ s c,
    map_get (indexById saved "id") "x" = Some s
    ∧ map_get (indexById current "id") "x" = Some c
    ∧ StronglySorted (strict String.le) (map property (differences m))
    ∧ ∀ d, d ∈ differences m → pd_current d = read_prop c (property d).
Proof.
  intros saved current m.
  destruct (entityCompare_differences saved current "id" [] m)
    as (s & c & Hs & Hc & Hsorted & Hd & _).
  - by vm_compute; left.
  - exists s, c. split; [done|]. split; [done|]. split; [done|].
    intros d Hin. by apply Hd.
Defined.


(** A snapshot without any key of the registry against one with a user. *)
Lemma compare_total_witness :
  is_Some (compare "2024-01-01T00:00:00.000Z" []
             [("users", VArr [VObj [("id", VStr "u1"); ("name", VStr "Ann")]])]).
Proof. apply (proj1 compare_total); reflexivity. Defined.

(** Whatever the first record with id [a] holds, the result is the same. *)
Lemma indexById_last_write_wins_witness :
  let r := [("id", VStr "a"); ("v", VNum 1)] in
  let r' := [("id", VStr "a"); ("v", VNum 7); ("w", VBool true)] in
  let l2 := [ [("id", VStr "b")]; [("id", VStr "a"); ("v", VNum 2)] ] in
  let other := [ [("id", VStr "a"); ("v", VNum 3)] ] in
  entityCompare ([] ++ r :: l2) other "id" [] = entityCompare ([] ++ r' :: l2) other "id" [].
Proof.
  intros r r' l2 other.
  apply (proj1 (proj2 (indexById_last_write_wins "id")) [] l2 r r' "a" other []).
  - reflexivity.
  - reflexivity.
  - by vm_compute; right; left.
Defined.

(** The id [a] is repeated: the entity reported with it is the last record. *)
Lemma entityCompare_order_witness :
  let saved := [ [("id", VStr "a"); ("v", VNum 1)];
                 [("id", VStr "b")];
                 [("id", VStr "a"); ("v", VNum 2)] ] in
  last (filter (λ r, record_id "id" r = Some "a") saved)
  = Some [("id", VStr "a"); ("v", VNum 2)].
Proof.
  intros saved.
  destruct (entityCompare_order saved [] "id" []) as (_ & _ & _ & H & _).
  apply (H (mkIdEntity "a" [("id", VStr "a"); ("v", VNum 2)])).
  by vm_compute; left.
Defined.

(** * Further properties of the strategies *)

(** ** Equality of values *)

(** X1.  [valuesEqual] is an equivalence relation: every value equals itself,
    the answer does not depend on the order of the two arguments, and
    equality carries over a middle value. *)
Theorem valuesEqual_equivalence :
  (∀ a, valuesEqual a a = true)
  ∧ (∀ a b, valuesEqual a b = valuesEqual b a)
  ∧ (∀ a b c, valuesEqual a b = true → valuesEqual b c = true →
       valuesEqual a c = true).
Proof.
  split; [|split].
  - intros a. by apply valuesEqual_canonicalize.
  - intros a b. apply eq_true_iff_eq. rewrite !valuesEqual_canonicalize. by split.
  - intros a b c. rewrite !valuesEqual_canonicalize. congruence.
Qed.

Lemma valuesEqual_equivalence_witness :
  valuesEqual (VArr [VNum 1; VStr "a"]) (VObj [("k", VArr [VNum 1; VStr "a"])]) = false
  ∧ valuesEqual (VObj [("k", VNum 1); ("l", VArr [VNum 1; VStr "a"])])
      (VObj [("l", VArr [VStr "a"; VNum 1]); ("k", VNum 1)]) = true.
Proof.
  split; [reflexivity|].
  apply (proj2 (proj2 valuesEqual_equivalence) _
           (VObj [("k", VNum 1); ("l", VArr [VStr "a"; VNum 1])]));
    reflexivity.
Defined.

(** ** Property differences *)

Lemma valuesEqual_refl a : valuesEqual a a = true.
Proof. by apply valuesEqual_canonicalize. Qed.

Lemma valuesEqual_sym a b : valuesEqual a b = valuesEqual b a.
Proof. apply eq_true_iff_eq. rewrite !valuesEqual_canonicalize. by split. Qed.

Lemma omap_nil_iff {A B} (g : A → option B) l :
  omap g l = [] ↔ ∀ x, x ∈ l → g x = None.
Proof.
  induction l as [|x l IH]; [by split; [intros _ ? ?%elem_of_nil|]|].
  rewrite omap_cons_match. destruct (g x) eqn:E.
  - split; [done|]. intros H. rewrite H in E by left. done.
  - rewrite IH. split.
    + intros H y [->|Hy]%elem_of_cons; auto.
    + intros H y Hy. apply H. by right.
Qed.

Lemma valuesEqual_read_sym a b : valuesEqual_read a b = valuesEqual_read b a.
Proof.
  destruct a as [[x|m]|], b as [[y|n]|];
    rewrite ?valuesEqual_read_undefined_l, ?valuesEqual_read_undefined_r; try done.
  - rewrite !valuesEqual_read_Data. apply valuesEqual_sym.
  - apply eq_true_iff_eq.
    by rewrite valuesEqual_read_Data_Inherited, valuesEqual_read_Inherited_Data.
  - apply eq_true_iff_eq.
    by rewrite valuesEqual_read_Data_Inherited, valuesEqual_read_Inherited_Data.
  - unfold valuesEqual_read. cbn [read_identical read_is_null read_typeof orb].
    rewrite (String.eqb_sym n m). destruct (String.eqb_spec m n) as [->|Hne]; [done|].
    destruct (String.eqb_spec m "__proto__") as [->|Hm],
             (String.eqb_spec n "__proto__") as [->|Hn]; done.
Qed.

Lemma diff_of_swap saved current f ex k :
  diff_of current saved f ex k = swap_diff <$> diff_of saved current f ex k.
Proof.
  unfold diff_of. destruct (_ || _); [done|].
  destruct (read_prop saved k) as [x|], (read_prop current k) as [y|]; try done.
  rewrite (valuesEqual_read_sym (Some y) (Some x)).
  by destruct (valuesEqual_read (Some x) (Some y)).
Qed.

Lemma Set_from_app_comm xs ys : Set_from (xs ++ ys) ≡ₚ Set_from (ys ++ xs).
Proof.
  apply NoDup_Permutation; try apply NoDup_Set_from.
  intros x. rewrite !elem_of_Set_from, !elem_of_app. tauto.
Qed.

Lemma omap_ext_all {A B} (g h : A → option B) (l : list A) :
  (∀ x, g x = h x) → omap g l = omap h l.
Proof.
  intros E. induction l as [|x l IH]; [done|].
  by rewrite !omap_cons_match, E, IH.
Qed.

(** X2.  Comparing two records the other way round gives the same
    differences, in the same order, with the two sides exchanged. *)
Theorem diffProperties_swap (saved current : record) (f : string) (ex : list string) :
  diffProperties current saved f ex = map swap_diff (diffProperties saved current f ex).
Proof.
  rewrite !diffProperties_omap.
  rewrite (sort_strings_perm _ _ (Set_from_app_comm (Object_keys current) (Object_keys saved))).
  change (map swap_diff ?l) with (swap_diff <$> l). rewrite list_fmap_omap.
  apply omap_ext_all. intros k. apply diff_of_swap.
Qed.

Lemma agree_on_refl (a : record) (k : string) : agree_on a a k.
Proof. unfold agree_on. by destruct (read_prop a k) as [[]|]. Qed.

(** Two records agree on a name neither has as a property of its own: both
    read the same inherited member there, or nothing. *)
Lemma agree_on_not_own (a b : record) (k : string) :
  k ∉ Object_keys a → k ∉ Object_keys b → agree_on a b k.
Proof.
  intros Ha%assoc_None Hb%assoc_None. unfold agree_on, read_prop, get_prop.
  rewrite Ha, Hb. by destruct (inherited k).
Qed.

Lemma diffProperties_self (a : record) (f : string) (ex : list string) :
  diffProperties a a f ex = [].
Proof.
  rewrite diffProperties_omap. apply omap_nil_iff. intros k _.
  apply diff_of_None. right; right. apply agree_on_refl.
Qed.

(** X3.  Two records have no difference exactly when they agree on every
    name other than [idField] and the excluded names: both read nothing
    under the name, or both read values of their own with the same canonical
    form, or both inherit the member, or one has an empty object of its own
    under [__proto__] where the other inherits it.  In particular a record
    has no difference with itself. *)
Theorem diffProperties_nil_iff (saved current : record) (f : string) (ex : list string) :
  (diffProperties saved current f ex = [] ↔
   ∀ k, k ≠ f → k ∉ ex → agree_on saved current k)
  ∧ diffProperties saved saved f ex = [].
Proof.
  split; [|apply diffProperties_self].
  rewrite diffProperties_omap, omap_nil_iff. split.
  - intros Hall k Hf Hex.
    destruct (decide (k ∈ Object_keys saved ++ Object_keys current)) as [Hin|Hin].
    + specialize (Hall k). rewrite elem_of_sort_strings, elem_of_Set_from in Hall.
      apply Hall, diff_of_None in Hin as [?|[?|?]]; done.
    + apply not_elem_of_app in Hin as [Ha Hb]. by apply agree_on_not_own.
  - intros Hall k _. apply diff_of_None.
    destruct (decide (k = f)) as [|Hf]; [by left|].
    destruct (decide (k ∈ ex)) as [|Hex]; [by right; left|].
    right; right. by apply Hall.
Qed.

(** ** The entity strategy on its own *)

Lemma List_filter_none {A} (p : A → bool) l :
  (∀ x, x ∈ l → p x = false) → List.filter p l = [].
Proof.
  induction l as [|x l IH]; intros H; simpl; [done|].
  rewrite H by left. apply IH. intros. apply H. by right.
Qed.

Lemma List_filter_all {A} (p : A → bool) l :
  (∀ x, x ∈ l → p x = true) → List.filter p l = l.
Proof.
  induction l as [|x l IH]; intros H; simpl; [done|].
  rewrite H by left. f_equal. apply IH. intros. apply H. by right.
Qed.

Lemma absent_from_self (m : jsmap record) : absent_from m m = [].
Proof.
  unfold absent_from.
  assert (List.filter (λ e : string * record, negb (map_has m e.1)) m = []) as ->; [|done].
  apply List_filter_none. intros e He.
  unfold map_has.
  assert (is_Some (assoc m e.1)) as [v ->]; [|done].
  apply assoc_is_Some. by apply list_elem_of_fmap_2.
Qed.

Lemma entityCompare_self_differences (arr : list record) (f : string) (ex : list string) m :
  m ∈ omap (matched_of (indexById arr f) f ex) (indexById arr f) → differences m = [].
Proof.
  intros (se & ce & Hin & Hc & ->)%elem_of_matched.
  apply elem_of_jsmap in Hin; [|apply indexById_NoDup].
  unfold map_get in Hc. rewrite Hin in Hc. injection Hc as <-.
  apply diffProperties_self.
Qed.

(** X4.  An array compared with itself has nothing missing, nothing extra and
    no changed entity: every id of the array is matched, without a
    difference, whatever the identity field and the excluded names. *)
Theorem entityCompare_refl (arr : list record) (f : string) (ex : list string) :
  let R := entityCompare arr arr f ex in
  r_missing R = [] ∧ r_extra R = []
  ∧ (∀ m, m ∈ r_matched R → differences m = [])
  ∧ map m_id (r_matched R) = Set_from (ids_of f arr)
  ∧ r_summary R = mkEntitySummary 0 0 0 (length (Set_from (ids_of f arr))).
Proof.
  rewrite entityCompare_unfold. cbv zeta. simpl. rewrite absent_from_self.
  pose proof (entityCompare_self_differences arr f ex) as Hd.
  assert (map m_id (omap (matched_of (indexById arr f) f ex) (indexById arr f))
          = Set_from (ids_of f arr)) as Hids.
  { rewrite matched_ids, <- indexById_keys.
    apply List_filter_all. intros k Hk.
    unfold map_has. by apply assoc_is_Some in Hk as [v ->]. }
  split; [done|]. split; [done|]. split; [done|]. split; [done|].
  simpl. f_equal.
  - unfold count_changed. rewrite List_filter_none; [done|].
    intros m Hm. unfold is_changed. by rewrite (Hd m Hm).
  - rewrite <- Hids, length_map. unfold count_inSync. f_equal.
    apply List_filter_all. intros m Hm. unfold is_changed. by rewrite (Hd m Hm).
Qed.

(** X5.  The summary of [entityCompare] counts the lists it comes with:
    [missing] and [extra] are their lengths, every matched entity is counted
    once, as changed or as in sync, and each distinct id of an array is
    reported once, in [matched] or in the list of its side. *)
Theorem entityCompare_counts (savedArr currentArr : list record) (f : string)
    (ex : list string) :
  let R := entityCompare savedArr currentArr f ex in
  sum_missing (r_summary R) = length (r_missing R)
  ∧ sum_extra (r_summary R) = length (r_extra R)
  ∧ sum_changed (r_summary R) + sum_inSync (r_summary R) = length (r_matched R)
  ∧ length (r_missing R) + length (r_matched R) = length (Set_from (ids_of f savedArr))
  ∧ length (r_extra R) + length (r_matched R) = length (Set_from (ids_of f currentArr)).
Proof.
  intros R.
  destruct (entityCompare_summary savedArr currentArr f ex) as (E1 & E2 & E3 & E4).
  fold R in E1, E2, E3, E4. split; [done|]. split; [done|]. split.
  { rewrite E3, E4. apply filter_length. }
  assert (length (r_missing R) = length (map e_id (r_missing R))
          ∧ length (r_extra R) = length (map e_id (r_extra R))
          ∧ length (r_matched R) = length (map m_id (r_matched R))) as (-> & -> & ->)
    by (by rewrite !length_map).
  subst R. rewrite entityCompare_unfold. cbv zeta. simpl.
  rewrite !absent_from_ids, matched_ids, <- !indexById_keys.
  split.
  - rewrite Nat.add_comm. apply filter_length.
  - rewrite <- (filter_length (map_has (indexById savedArr f))
                  (map fst (indexById currentArr f))).
    rewrite Nat.add_comm. f_equal.
    apply Permutation_length, NoDup_Permutation;
      try (apply NoDup_List_filter, indexById_NoDup).
    intros k. rewrite !elem_of_List_filter, !indexById_has, !bool_decide_eq_true,
      !elem_of_indexById_keys. tauto.
Qed.

(** ** The flat strategy on its own *)

Lemma key_count_count_occ k arr :
  key_count k arr = count_occ string_dec (map canonicalize arr) k.
Proof.
  unfold key_count. induction arr as [|x arr IH]; [done|]. simpl.
  destruct (string_dec (canonicalize x) k) as [E|E].
  - rewrite filter_cons_True by done. simpl. by rewrite IH.
  - by rewrite filter_cons_False.
Qed.

Lemma key_count_Permutation arr arr' :
  map canonicalize arr ≡ₚ map canonicalize arr' ↔
  ∀ k, key_count k arr = key_count k arr'.
Proof.
  rewrite (Permutation_count_occ string_dec).
  split; intros H k; specialize (H k); by rewrite !key_count_count_occ in *.
Qed.

Lemma surplus_key_count arr other k :
  key_count k (flat_map (surplus_of (buildMultiset other)) (buildMultiset arr))
  = key_count k arr - key_count k other.
Proof.
  unfold key_count at 1. by rewrite surplus_by_key, length_replicate.
Qed.

(** The items reported for [arr] are items of [arr]. *)
Lemma surplus_elem arr other x :
  x ∈ flat_map (surplus_of (buildMultiset other)) (buildMultiset arr) → x ∈ arr.
Proof.
  intros Hx. apply list_elem_of_In, in_flat_map in Hx as ([k b] & Hin & Hx).
  apply list_elem_of_In in Hin, Hx.
  apply buildMultiset_entry in Hin as (_ & _ & Hrep).
  unfold surplus_of in Hx. simpl in Hx. apply elem_of_replicate in Hx as [-> _].
  apply head_Some_elem_of, list_elem_of_filter in Hrep. tauto.
Qed.

(** X6.  [flatCompare] depends on the two arrays through the canonical forms
    they hold, counted with their multiplicities: arrays that hold the same
    canonical forms, in whatever order, give lists that hold the same
    canonical forms, and the same summary. *)
Theorem flatCompare_canonical_multiset (savedArr savedArr' currentArr currentArr' : list value) :
  map canonicalize savedArr ≡ₚ map canonicalize savedArr' →
  map canonicalize currentArr ≡ₚ map canonicalize currentArr' →
  let R := flatCompare savedArr currentArr in
  let R' := flatCompare savedArr' currentArr' in
  map canonicalize (f_missing R) ≡ₚ map canonicalize (f_missing R')
  ∧ map canonicalize (f_extra R) ≡ₚ map canonicalize (f_extra R')
  ∧ f_summary R = f_summary R'.
Proof.
  intros Hs Hc R R'. subst R R'. rewrite !flatCompare_unfold. cbv zeta. simpl.
  rewrite key_count_Permutation in Hs, Hc.
  assert (map canonicalize
            (flat_map (surplus_of (buildMultiset currentArr)) (buildMultiset savedArr))
          ≡ₚ map canonicalize
            (flat_map (surplus_of (buildMultiset currentArr')) (buildMultiset savedArr'))
          ∧ map canonicalize
            (flat_map (surplus_of (buildMultiset savedArr)) (buildMultiset currentArr))
          ≡ₚ map canonicalize
            (flat_map (surplus_of (buildMultiset savedArr')) (buildMultiset currentArr')))
    as [Hm He].
  { split; apply key_count_Permutation; intros k;
      by rewrite !surplus_key_count, Hs, Hc. }
  split; [done|]. split; [done|].
  apply Permutation_length in Hm, He. rewrite !length_map in Hm, He. by rewrite Hm, He.
Qed.

Lemma flatCompare_canonical_multiset_witness :
  let a := VObj [("k", VStr "a"); ("v", VArr [VNum 1; VNum 2])] in
  let a' := VObj [("v", VArr [VNum 2; VNum 1]); ("k", VStr "a")] in
  let b := VObj [("k", VStr "b")] in
  f_summary (flatCompare [a; b; a] [b]) = f_summary (flatCompare [b; a'; a] [b])
  ∧ f_summary (flatCompare [a; b; a] [b]) = mkFlatSummary 2 0.
Proof.
  intros a a' b. split; [|reflexivity].
  apply (flatCompare_canonical_multiset [a; b; a] [b; a'; a] [b] [b]); [|done].
  vm_compute. apply perm_swap.
Defined.

(** X7.  [flatCompare] reports nothing exactly when the two arrays hold the
    same canonical forms with the same multiplicities. *)
Theorem flatCompare_in_sync_iff (savedArr currentArr : list value) :
  f_missing (flatCompare savedArr currentArr) = []
  ∧ f_extra (flatCompare savedArr currentArr) = []
  ↔ map canonicalize savedArr ≡ₚ map canonicalize currentArr.
Proof.
  rewrite flatCompare_unfold, key_count_Permutation. cbv zeta. simpl. split.
  - intros [Hm He] k.
    pose proof (surplus_key_count savedArr currentArr k) as H1.
    pose proof (surplus_key_count currentArr savedArr k) as H2.
    rewrite Hm in H1. rewrite He in H2. unfold key_count at 1 in H1.
    unfold key_count at 1 in H2. simpl in H1, H2. lia.
  - intros H. split; apply nil_by_key; intros k;
      rewrite surplus_by_key, H, Nat.sub_diag; done.
Qed.

Lemma sum_indicator (U : list string) (k0 : string) :
  NoDup U → k0 ∈ U →
  sum_list_with (λ k, if decide (k0 = k) then 1 else 0) U = 1.
Proof.
  induction 1 as [|k U Hk HU IH]; [by intros ?%elem_of_nil|].
  intros Hin. simpl. destruct (decide (k0 = k)) as [->|Hne].
  - assert (sum_list_with (λ k', if decide (k = k') then 1 else 0) U = 0) as ->; [|done].
    clear IH Hin HU. induction U as [|k' U IH]; [done|]. simpl.
    apply not_elem_of_cons in Hk as [Hne Hk]. rewrite decide_False by done.
    by rewrite IH.
  - apply elem_of_cons in Hin as [?|Hin]; [done|]. by rewrite IH.
Qed.

Lemma sum_list_with_add {A} (g h : A → nat) l :
  sum_list_with (λ x, g x + h x) l = sum_list_with g l + sum_list_with h l.
Proof. induction l as [|x l IH]; simpl; [done|]. rewrite IH. lia. Qed.

Lemma sum_list_with_ext_all {A} (g h : A → nat) l :
  (∀ x, g x = h x) → sum_list_with g l = sum_list_with h l.
Proof. intros E. induction l as [|x l IH]; simpl; [done|]. by rewrite E, IH. Qed.

(** The length of a list is the sum, over the canonical keys, of the number
    of its items with each key. *)
Lemma length_by_keys (U : list string) (X : list value) :
  NoDup U → (∀ x, x ∈ X → canonicalize x ∈ U) →
  length X = sum_list_with (λ k, key_count k X) U.
Proof.
  intros HU. induction X as [|x X IH]; intros HX.
  - rewrite (sum_list_with_ext_all _ (λ _, 0));
      [clear; induction U as [|? ? IHU]; simpl; [done | exact IHU]|].
    intros k. unfold key_count. by rewrite filter_nil.
  - rewrite (sum_list_with_ext_all _
      (λ k, (if decide (canonicalize x = k) then 1 else 0) + key_count k X)).
    + rewrite sum_list_with_add, sum_indicator, <- IH; [done | | done |].
      * intros y Hy. apply HX. by right.
      * apply HX. left.
    + intros k. unfold key_count. destruct (decide (canonicalize x = k)) as [E|E].
      * by rewrite filter_cons_True.
      * by rewrite filter_cons_False.
Qed.

(** X8.  Every item [flatCompare] lists as missing is an item of the saved
    array and every item it lists as extra is an item of the current array;
    what is left of each array once its surplus is taken away has the same
    size on both sides: saved + extra = current + missing. *)
Theorem flatCompare_conservation (savedArr currentArr : list value) :
  let R := flatCompare savedArr currentArr in
  (∀ x, x ∈ f_missing R → x ∈ savedArr)
  ∧ (∀ x, x ∈ f_extra R → x ∈ currentArr)
  ∧ length savedArr + length (f_extra R) = length currentArr + length (f_missing R).
Proof.
  rewrite flatCompare_unfold. cbv zeta. simpl.
  split; [apply surplus_elem|]. split; [apply surplus_elem|].
  set (U := Set_from (map canonicalize savedArr ++ map canonicalize currentArr)).
  assert (NoDup U) as HU by apply NoDup_Set_from.
  assert (∀ x, x ∈ savedArr → canonicalize x ∈ U) as Hs.
  { intros x Hx. apply elem_of_Set_from, elem_of_app. left. by apply list_elem_of_fmap_2. }
  assert (∀ x, x ∈ currentArr → canonicalize x ∈ U) as Hc.
  { intros x Hx. apply elem_of_Set_from, elem_of_app. right. by apply list_elem_of_fmap_2. }
  rewrite (length_by_keys U savedArr), (length_by_keys U currentArr) by done.
  rewrite (length_by_keys U (flat_map _ (buildMultiset currentArr))),
    (length_by_keys U (flat_map _ (buildMultiset savedArr)));
    [|done | by intros x Hx%surplus_elem; auto | done | by intros x Hx%surplus_elem; auto].
  rewrite <- !sum_list_with_add. apply sum_list_with_ext_all. intros k.
  rewrite !surplus_key_count. lia.
Qed.

(** * Further properties of the engine *)

Lemma flatCompare_self (arr : list value) :
  f_missing (flatCompare arr arr) = [] ∧ f_extra (flatCompare arr arr) = [].
Proof.
  rewrite flatCompare_unfold. simpl.
  split; apply nil_by_key; intros k; by rewrite surplus_by_key, Nat.sub_diag.
Qed.

Lemma count_changed_zero (ms : list MatchedEntity) :
  count_changed ms = 0 ↔ Forall (λ m, differences m = []) ms.
Proof.
  unfold count_changed. induction ms as [|m ms IH]; simpl.
  - split; [intros _; apply List.Forall_nil | done].
  - unfold is_changed at 1. destruct (differences m) as [|d ds] eqn:Ed; simpl.
    + rewrite IH. split; [intros H; by apply List.Forall_cons|].
      intros H. by inversion H.
    + split; [done|]. intros H. inversion H. congruence.
Qed.

Lemma sum_totals_zero (ss : list Section) :
  sum_totals ss = 0 ↔ Forall (λ s, totalDifferences s = 0) ss.
Proof.
  unfold sum_totals. induction ss as [|s ss IH]; simpl.
  - split; [intros _; apply List.Forall_nil | done].
  - split.
    + intros H. apply List.Forall_cons; [lia|]. apply IH. lia.
    + intros H. inversion H as [|? ? H1 H2]. apply IH in H2. lia.
Qed.

Lemma no_differences_unfold s :
  no_differences s ↔
  match sec_data s with
  | EntityData r =>
      r_missing r = [] ∧ r_extra r = [] ∧ Forall (λ m, differences m = []) (r_matched r)
  | FlatData r => f_missing r = [] ∧ f_extra r = []
  end
  ∧ match childSections s with
    | Some cs => Forall no_differences cs
    | None => True
    end.
Proof.
  destruct s as [k l d [cs|] t pi pl]; simpl; [|done].
  apply and_iff_compat_l.
  induction cs as [|c cs IH]; [split; [intros _; apply List.Forall_nil | done]|].
  rewrite IH. split.
  - intros [? ?]. by apply List.Forall_cons.
  - intros H. by inversion H.
Qed.

Lemma direct_differences_zero s :
  direct_differences s = 0 ↔
  match sec_data s with
  | EntityData r =>
      r_missing r = [] ∧ r_extra r = [] ∧ Forall (λ m, differences m = []) (r_matched r)
  | FlatData r => f_missing r = [] ∧ f_extra r = []
  end.
Proof.
  unfold direct_differences. destruct (sec_data s) as [r|r].
  - rewrite <- count_changed_zero, <- !length_zero_iff_nil. lia.
  - rewrite <- !length_zero_iff_nil. lia.
Qed.

(** X9.  A collection compared with itself has no difference at any depth,
    and so has a snapshot compared with itself. *)
Theorem compare_self_no_difference :
  (∀ config v s, compareSection config v v = Some s → totalDifferences s = 0)
  ∧ (∀ now snapshot rep,
       compare now snapshot snapshot = Some rep →
       rep_totalDifferences rep = 0
       ∧ Forall (λ s, totalDifferences s = 0) (sections rep)).
Proof.
  assert (∀ config v s, compareSection config v v = Some s → totalDifferences s = 0)
    as Hsec.
  { induction config as [k l st i cs IH] using config_nested_ind.
    intros v s. destruct st.
    - rewrite compareSection_entity by done. cbn [key label strat idField children].
      destruct (as_records v) as [S|]; [|done]. simpl.
      destruct (indexes_throw S S _); [done|].
      set (R := entityCompare S S _ _).
      assert (sum_missing (r_summary R) = 0 ∧ sum_extra (r_summary R) = 0
              ∧ sum_changed (r_summary R) = 0) as (Em & Ee & Ec).
      { subst R. rewrite entityCompare_unfold. simpl.
        rewrite absent_from_self. repeat split.
        apply count_changed_zero, Forall_forall. intros m.
        apply entityCompare_self_differences. }
      destruct cs as [|c0 cs'].
      + simpl. intros [= <-]. simpl. lia.
      + rewrite compareChildren_groups.
        destruct (indexes_throw S S _); [done|].
        destruct (mapM _ (r_matched R)) as [groups|] eqn:Eg; [|done].
        simpl. intros [= <-]. simpl. rewrite Em, Ee, Ec. simpl.
        apply sum_totals_zero, Forall_forall. intros s' Hs'.
        apply mapM_Some in Eg.
        apply list_elem_of_join in Hs' as (g & Hs' & Hg).
        destruct (Forall2_elem_of_r _ _ _ _ Eg Hg) as (m & _ & Hm).
        apply mapM_Some in Hm.
        destruct (Forall2_elem_of_r _ _ _ _ Hm Hs') as (c & Hc & Hs).
        unfold child_section in Hs. cbv zeta in Hs.
        destruct (compareSection c _ _) as [s0|] eqn:E0; [|done].
        injection Hs as <-. simpl.
        rewrite Forall_forall in IH. by eapply IH.
    - rewrite compareSection_flat by done.
      destruct (as_array v) as [S|]; [|done]. simpl.
      intros [= <-]. simpl.
      destruct (flatCompare_self S) as [Hm He]. revert Hm He.
      unfold flatCompare. simpl. by intros -> _. }
  split; [exact Hsec|].
  intros now snapshot rep. unfold compare. rewrite compare_in_sections.
  destruct (mapM _ registry) as [ss|] eqn:Ess; [|done].
  simpl. intros [= <-]. simpl.
  assert (Forall (λ s, totalDifferences s = 0) ss) as Hall.
  { apply mapM_Some in Ess. apply Forall_forall. intros s Hs.
    destruct (Forall2_elem_of_r _ _ _ _ Ess Hs) as (c & _ & Hc).
    by eapply Hsec. }
  split; [by apply sum_totals_zero | done].
Qed.

Lemma total_zero_no_differences s :
  total_consistent s → (totalDifferences s = 0 ↔ no_differences s).
Proof.
  induction s as [k l d cs t pi pl IH] using section_nested_ind. intros Hc.
  apply total_consistent_unfold in Hc.
  rewrite no_differences_unfold, <- direct_differences_zero. simpl in *.
  destruct cs as [cs|];
    [|unfold direct_differences in *; simpl in *; split; [by intros ->|intros [? _]; lia]].
  destruct Hc as [Ht Hcs]. unfold direct_differences in *. simpl in *.
  assert (sum_totals cs = 0 ↔ Forall no_differences cs) as <-.
  { rewrite sum_totals_zero, !Forall_forall. rewrite Forall_forall in IH, Hcs.
    split; intros H c Hin; [apply IH | apply IH]; auto. }
  lia.
Qed.

(** X10.  The total of a section the engine produces is zero exactly when
    the section reports nothing: no missing and no extra item, no matched
    entity with a difference, and the same in its child sections at every
    depth. *)
Theorem totalDifferences_zero_iff config savedArr currentArr s :
  compareSection config savedArr currentArr = Some s →
  (totalDifferences s = 0 ↔ no_differences s).
Proof.
  intros Hs. apply total_zero_no_differences.
  by apply (compareSection_consistent config savedArr currentArr).
Qed.

(** Two namespaces collections that differ in one class: the total is not
    zero, so something is reported. *)
Lemma totalDifferences_zero_iff_witness :
  let config := entity "namespaces" "Namespaces" [entity "classes" "Classes" []] in
  let savedArr := VArr [VObj [("id", VStr "ns1"); ("classes", VArr [obj_id "c1"])]] in
  let currentArr := VArr [VObj [("id", VStr "ns1"); ("classes", VArr [])]] in
  ∃ s, compareSection config savedArr currentArr = Some s
       ∧ (totalDifferences s = 0 ↔ no_differences s).
Proof.
  intros config savedArr currentArr.
  destruct (compareSection config savedArr currentArr) as [s|] eqn:E;
    [|by vm_compute in E].
  exists s. split; [done|].
  exact (totalDifferences_zero_iff config savedArr currentArr s E).
Defined.

Lemma compareSection_heads config savedArr currentArr s :
  compareSection config savedArr currentArr = Some s →
  heads config s ∧ parentId s = None ∧ parentLabel s = None.
Proof.
  destruct config as [k l st i cs]. destruct st.
  - rewrite compareSection_entity by done. cbn [key label strat idField children].
    destruct (as_records savedArr) as [S|]; [|done].
    destruct (as_records currentArr) as [C|]; [|done]. simpl.
    destruct (indexes_throw S C _); [done|].
    destruct cs as [|c0 cs'].
    + simpl. intros [= <-]. unfold heads, section_strategy. simpl.
      repeat split; auto.
    + destruct (compareChildren _ _ _ _ _) as [[ss n]|]; [|done].
      simpl. intros [= <-]. unfold heads, section_strategy. simpl.
      repeat split; try done. by intros [?|?].
  - rewrite compareSection_flat by done.
    destruct (as_array savedArr) as [S|]; [|done].
    destruct (as_array currentArr) as [C|]; [|done]. simpl.
    intros [= <-]. unfold heads, section_strategy. simpl. repeat split; auto.
Qed.

(** X11.  The report has one section for each descriptor of the registry, in
    the order of the registry, each with the key, the label and the strategy
    of its descriptor, with child sections exactly when the descriptor is of
    the entity strategy and has children, and without a parent; its
    timestamp is the clock reading. *)
Theorem compare_sections_follow_registry reg now saved current rep :
  compare_in reg now saved current = Some rep →
  timestamp rep = now
  ∧ Forall2 (λ c s, heads c s ∧ parentId s = None ∧ parentLabel s = None)
      reg (sections rep).
Proof.
  rewrite compare_in_sections.
  destruct (mapM _ reg) as [ss|] eqn:Ess; [|done].
  simpl. intros [= <-]. simpl. split; [done|].
  apply mapM_Some in Ess. eapply Forall2_impl; [exact Ess|].
  intros c s. apply compareSection_heads.
Qed.

(** The report of two empty snapshots over the registry of the extension. *)
Lemma compare_sections_follow_registry_witness :
  ∃ rep, compare "2024-01-01T00:00:00.000Z" [] [] = Some rep
         ∧ map sec_key (sections rep) = map key registry.
Proof.
  destruct (compare "2024-01-01T00:00:00.000Z" [] []) as [rep|] eqn:E;
    [|by vm_compute in E].
  exists rep. split; [done|].
  destruct (compare_sections_follow_registry registry _ [] [] rep E) as [_ H].
  clear E. induction H as [|c s reg ss (Hk & _) _ IH]; [done|].
  simpl. destruct Hk as [-> _]. by rewrite IH.
Defined.

(** X12.  The child sections of a section come parent by parent, in the
    order of the matched entities, and within a parent in the order of the
    child descriptors: one section for every matched parent and every child
    descriptor, carrying the id of the parent, the label of the parent
    descriptor and the key of the child descriptor. *)
Theorem childSections_layout config savedArr currentArr s R cs :
  compareSection config savedArr currentArr = Some s →
  sec_data s = EntityData R → childSections s = Some cs →
  map placement cs
  = flat_map (λ m, map (λ c, (Some (m_id m), Some (label config), key c))
                     (children config)) (r_matched R)
  ∧ length cs = length (r_matched R) * length (children config).
Proof.
  intros Hs Hd Hcs.
  assert (map placement cs
          = flat_map (λ m, map (λ c, (Some (m_id m), Some (label config), key c))
                             (children config)) (r_matched R)) as Hmap.
  { destruct (strat config) eqn:Est.
    - rewrite compareSection_entity in Hs by done.
      destruct (as_records savedArr) as [S|]; [|done].
      destruct (as_records currentArr) as [C|]; [|done]. simpl in Hs.
      destruct (indexes_throw S C _); [done|].
      destruct (children config) as [|c0 cs'] eqn:Ech.
      { simpl in Hs. injection Hs as <-. done. }
      rewrite compareChildren_groups in Hs.
      destruct (indexes_throw S C _); [done|].
      destruct (mapM _ (r_matched _)) as [groups|] eqn:Eg; [|done].
      simpl in Hs. injection Hs as <-. simpl in Hd, Hcs.
      injection Hd as <-. injection Hcs as <-.
      rewrite <- Ech. clear Ech c0 cs'.
      apply mapM_Some in Eg. induction Eg as [|m g ms gs Hg _ IH]; [done|].
      simpl. rewrite map_app, IH. f_equal.
      apply mapM_Some in Hg. clear IH. revert Hg. generalize (children config).
      intros chs Hg. induction Hg as [|c s' chs' g' Hc _ IH']; [done|].
      simpl. rewrite IH'. f_equal.
      unfold child_section in Hc. cbv zeta in Hc.
      destruct (compareSection c _ _) as [s0|] eqn:E0; [|done].
      injection Hc as <-. unfold placement. simpl.
      by destruct (compareSection_heads _ _ _ _ E0) as ((-> & _) & _).
    - rewrite compareSection_flat in Hs by done.
      destruct (as_array savedArr) as [S|]; [|done].
      destruct (as_array currentArr) as [C|]; [|done]. simpl in Hs.
      injection Hs as <-. done. }
  split; [done|].
  rewrite <- (length_map placement), Hmap. clear.
  induction (r_matched R) as [|m ms IH]; [done|].
  simpl. rewrite length_app, length_map, IH. done.
Qed.

(** Two matched namespaces, two child descriptors: four child sections. *)
Lemma childSections_layout_witness :
  let config := entity "namespaces" "Namespaces"
                  [entity "classes" "Classes" []; entity "globals" "Globals" []] in
  let v := VArr [obj_id "ns1"; obj_id "ns2"] in
  ∃ s R cs, compareSection config v v = Some s
    ∧ sec_data s = EntityData R ∧ childSections s = Some cs
    ∧ map placement cs
      = [ (Some "ns1", Some "Namespaces", "classes");
          (Some "ns1", Some "Namespaces", "globals");
          (Some "ns2", Some "Namespaces", "classes");
          (Some "ns2", Some "Namespaces", "globals") ].
Proof.
  intros config v.
  destruct (compareSection config v v) as [s|] eqn:E; [|by vm_compute in E].
  destruct (sec_data s) as [R|R] eqn:Ed;
    [|by vm_compute in E; injection E as <-].
  destruct (childSections s) as [cs|] eqn:Ec;
    [|by vm_compute in E; injection E as <-].
  exists s, R, cs. repeat split; try done.
  rewrite (proj1 (childSections_layout config v v s R cs E Ed Ec)).
  vm_compute in E. injection E as <-. by injection Ed as <-.
Defined.

Lemma assoc_filter_keys {A} (P : string → bool) (l : list (string * A)) k :
  P k = true → assoc (List.filter (λ p, P p.1) l) k = assoc l k.
Proof.
  intros Hk. induction l as [|[k' v] l IH]; [done|]. simpl.
  destruct (P k') eqn:Hk'; simpl; [by rewrite IH|].
  rewrite IH. destruct (String.eqb_spec k k') as [->|?]; [congruence | done].
Qed.

(** X13.  The report depends on the snapshots only through the properties
    named by the keys of the registry: removing every other property from
    the two snapshots changes nothing in the report. *)
Theorem compare_ignores_other_keys reg now (saved current : record) :
  let known := λ p : string * value, bool_decide (p.1 ∈ map key reg) in
  compare_in reg now (List.filter known saved) (List.filter known current)
  = compare_in reg now saved current.
Proof.
  intros known. rewrite !compare_in_sections.
  rewrite (Forall_mapM_ext _
    (λ c, compareSection c (or_empty_array (get_prop saved (key c)))
            (or_empty_array (get_prop current (key c)))) reg); [done|].
  apply Forall_forall. intros c Hin. unfold get_prop, known.
  assert (bool_decide (key c ∈ map key reg) = true) as Hc
    by by apply bool_decide_eq_true, list_elem_of_fmap_2.
  pose proof (assoc_filter_keys (λ k, bool_decide (k ∈ map key reg)) saved (key c) Hc)
    as Hs.
  pose proof (assoc_filter_keys (λ k, bool_decide (k ∈ map key reg)) current (key c) Hc)
    as Hcur.
  cbv beta in Hs, Hcur. by rewrite Hs, Hcur.
Qed.

Lemma elem_of_getChildKeys config k :
  k ∈ getChildKeys config ↔ k ∈ map key (children config).
Proof.
  unfold getChildKeys. destruct (children config) as [|c cs]; [done|].
  apply elem_of_Set_from.
Qed.

(** X14.  No difference reported for a matched entity of a section is on the
    id field or on the key of a child collection: the child collections of a
    parent never make the parent itself count as changed. *)
Theorem child_keys_not_diffed config savedArr currentArr s R m d :
  compareSection config savedArr currentArr = Some s →
  sec_data s = EntityData R →
  m ∈ r_matched R → d ∈ differences m →
  property d ≠ default "id" (idField config)
  ∧ (property d ∉ map key (children config)).
Proof.
  intros Hs Hd Hm Hin. destruct (strat config) eqn:Est.
  - rewrite compareSection_entity in Hs by done.
    destruct (as_records savedArr) as [S|]; [|done].
    destruct (as_records currentArr) as [C|]; [|done]. simpl in Hs.
    destruct (indexes_throw S C _); [done|].
    destruct (match children config with [] => _ | _ => _ end) as [chs|]; [|done].
    simpl in Hs. injection Hs as <-. simpl in Hd. injection Hd as <-.
    apply matched_in_both in Hm as (sp & cp & _ & _ & Hdiff).
    rewrite Hdiff in Hin.
    destruct (diffProperties_facts sp cp (default "id" (idField config))
                (getChildKeys config)) as (_ & Hf & _).
    destruct (Hf d Hin) as (_ & Hid & Hex & _).
    split; [done|]. by rewrite <- elem_of_getChildKeys.
  - rewrite compareSection_flat in Hs by done.
    destruct (as_array savedArr) as [S|]; [|done].
    destruct (as_array currentArr) as [C|]; [|done]. simpl in Hs.
    injection Hs as <-. done.
Qed.

(** A namespace whose classes and whose description both differ: the one
    difference reported for the namespace itself is the description. *)
Lemma child_keys_not_diffed_witness :
  let config := entity "namespaces" "Namespaces" [entity "classes" "Classes" []] in
  let savedArr := VArr [VObj [("id", VStr "ns1"); ("description", VStr "old");
                              ("classes", VArr [obj_id "c1"])]] in
  let currentArr := VArr [VObj [("id", VStr "ns1"); ("description", VStr "new");
                                ("classes", VArr [])]] in
  let d := mkPropertyDiff "description" (Some (Data (VStr "old"))) (Some (Data (VStr "new"))) in
  "description" ≠ "id" ∧ ("description" ∉ ["classes"]).
Proof.
  intros config savedArr currentArr d.
  destruct (compareSection config savedArr currentArr) as [s|] eqn:E;
    [|by vm_compute in E].
  destruct (sec_data s) as [R|R] eqn:Ed;
    [|by vm_compute in E; injection E as <-].
  apply (child_keys_not_diffed config savedArr currentArr s R
           (mkMatched "ns1" [d]) d E Ed).
  - vm_compute in E. injection E as <-. injection Ed as <-. by left.
  - by left.
Defined.



Lemma indexes_throw_comm (S C : list record) f :
  indexes_throw S C f = indexes_throw C S f.
Proof. apply orb_comm. Qed.



(** * The grouping of the report page *)

Lemma elem_of_distinct {K} `{EqDecision K} (l : list K) x : x ∈ distinct l ↔ x ∈ l.
Proof.
  induction l as [|a l IH]; simpl; [done|].
  rewrite !elem_of_cons, list_elem_of_filter, IH.
  destruct (decide (x = a)) as [->|Hne]; [by split; left|].
  split; [intros [?|[_ ?]]; auto | intros [?|?]; auto].
Qed.

Lemma NoDup_distinct {K} `{EqDecision K} (l : list K) : NoDup (distinct l).
Proof.
  induction l as [|a l IH]; simpl; [apply NoDup_nil_2|].
  apply NoDup_cons_2; [|by apply NoDup_filter].
  rewrite list_elem_of_filter. by intros [? _].
Qed.

Lemma distinct_snoc {K} `{EqDecision K} (l : list K) x :
  distinct (l ++ [x]) = if bool_decide (x ∈ l) then distinct l else distinct l ++ [x].
Proof.
  induction l as [|a l IH]; [done|].
  simpl. rewrite IH. destruct (decide (x = a)) as [->|Hne].
  - rewrite (bool_decide_eq_true_2 (a ∈ a :: l)) by left.
    case_bool_decide; [done|].
    rewrite filter_app, filter_cons_False, filter_nil, app_nil_r; [done|]. by intros ?.
  - case_bool_decide as Hin.
    + by rewrite (bool_decide_eq_true_2 (x ∈ a :: l)) by by right.
    + rewrite (bool_decide_eq_false_2 (x ∈ a :: l))
        by (by intros [?|?]%elem_of_cons).
      by rewrite filter_app, filter_cons_True, filter_nil.
Qed.

Lemma groupBy_snoc {A K} `{EqDecision K} (arr : list A) x (read : A → K) :
  groupBy (arr ++ [x]) read = group_step read (groupBy arr read) x.
Proof. unfold groupBy. by rewrite fold_left_app. Qed.

Lemma groupBy_distinct {A K} `{EqDecision K} (arr : list A) (read : A → K) :
  groupBy arr read
  = map (λ k, (k, filter (λ y, read y = k) arr)) (distinct (map read arr)).
Proof.
  induction arr as [|x arr IH] using rev_ind; [done|].
  rewrite groupBy_snoc, IH, map_app. change (map read [x]) with [read x].
  rewrite distinct_snoc.
  unfold group_step, groups_has. rewrite map_map. simpl. rewrite map_id.
  rewrite (bool_decide_ext _ (read x ∈ map read arr)) by apply elem_of_distinct.
  case_bool_decide as Hin; simpl.
  - unfold groups_push. rewrite map_map. apply map_ext. intros k. simpl.
    rewrite filter_app. case_bool_decide as Hk.
    + by rewrite filter_cons_True, filter_nil by done.
    + by rewrite filter_cons_False, filter_nil, app_nil_r by done.
  - unfold groups_push. rewrite !map_app, map_map. simpl.
    rewrite bool_decide_eq_true_2 by done. f_equal.
    + apply map_ext_in. intros k Hk%list_elem_of_In. simpl.
      rewrite elem_of_distinct in Hk. rewrite filter_app.
      assert (k ≠ read x) by (by intros ->).
      rewrite bool_decide_eq_false_2 by done.
      by rewrite filter_cons_False, filter_nil, app_nil_r by done.
    + rewrite filter_app, filter_cons_True, filter_nil by done.
      f_equal. f_equal.
      destruct (filter _ arr) as [|y ys] eqn:Ef; [done|].
      assert (y ∈ filter (λ y, read y = read x) arr) as [Hy Hyin]%list_elem_of_filter
        by (rewrite Ef; left).
      destruct Hin. rewrite <- Hy. by apply list_elem_of_fmap_2.
Qed.

Lemma flat_map_filter_keys {A K} `{EqDecision K} (read : A → K) (ks : list K) :
  ∀ arr : list A, NoDup ks → (∀ x, x ∈ arr → read x ∈ ks) →
    flat_map (λ k, filter (λ y, read y = k) arr) ks ≡ₚ arr.
Proof.
  induction ks as [|k ks IH]; intros arr Hnd Hall.
  - destruct arr as [|x arr]; [done|].
    assert (read x ∈ []) as Hx by (apply Hall; left). by apply elem_of_nil in Hx.
  - apply NoDup_cons in Hnd as [Hk Hnd]. simpl.
    transitivity (filter (λ y, read y = k) arr ++ filter (λ y, ¬ read y = k) arr);
      [|apply filter_app_complement].
    apply Permutation_app_head.
    transitivity (flat_map (λ k', filter (λ y, read y = k')
                                    (filter (λ y, ¬ read y = k) arr)) ks).
    + apply Permutation_refl'. clear IH Hnd Hall.
      induction ks as [|k' ks IH]; [done|].
      simpl. rewrite IH by (intros ?; apply Hk; by right). f_equal.
      rewrite list_filter_filter. apply list_filter_iff.
      intros y. split; [intros ?; split; [done|]|by intros [? _]].
      intros Hy. apply Hk. assert (k = k') as -> by congruence. left.
    + apply IH; [done|]. intros x [Hx Hin]%list_elem_of_filter.
      specialize (Hall x Hin). apply elem_of_cons in Hall as [?|?]; done.
Qed.

Lemma groupBy_join_Permutation {A K} `{EqDecision K} (arr : list A) (read : A → K) :
  mjoin (map snd (groupBy arr read)) ≡ₚ arr.
Proof.
  rewrite groupBy_distinct, map_map. simpl.
  rewrite <- (flat_map_filter_keys read (distinct (map read arr)) arr) at 2.
  - induction (distinct (map read arr)) as [|k ks IH]; [done|].
    simpl. by rewrite IH.
  - apply NoDup_distinct.
  - intros x Hx. apply elem_of_distinct. by apply list_elem_of_fmap_2.
Qed.

(** X16.  [groupBy] has one group for each distinct value read, in the order
    in which the values first occur; the group of a value holds the items
    that read it, in their order, and is never empty; and the groups
    together hold every item once. *)
Theorem groupBy_spec {A K} `{EqDecision K} (arr : list A) (read : A → K) :
  groupBy arr read
  = map (λ k, (k, filter (λ y, read y = k) arr)) (distinct (map read arr))
  ∧ NoDup (map fst (groupBy arr read))
  ∧ (∀ k g, (k, g) ∈ groupBy arr read →
       g ≠ [] ∧ g = filter (λ y, read y = k) arr)
  ∧ mjoin (map snd (groupBy arr read)) ≡ₚ arr.
Proof.
  split; [apply groupBy_distinct|]. split; [|split; [|apply groupBy_join_Permutation]].
  all: pose proof (groupBy_distinct arr read) as E; rewrite E.
  - rewrite map_map. simpl. rewrite map_id. apply NoDup_distinct.
  - intros k g (k' & [= -> ->] & Hk)%list_elem_of_fmap.
    split; [|done]. apply elem_of_distinct, list_elem_of_fmap in Hk as (x & -> & Hx).
    intros Hnil. assert (x ∈ filter (λ y, read y = read x) arr) as Hin
      by by apply list_elem_of_filter.
    rewrite Hnil in Hin. by apply elem_of_nil in Hin.
Qed.

Lemma groups_push_absent {A K} `{EqDecision K} (m : list (K * list A)) k (x : A) :
  k ∉ map fst m → groups_push m k x = m.
Proof.
  intros Hk. unfold groups_push. rewrite <- (map_id m) at 2.
  apply map_ext_in. intros e He%list_elem_of_In.
  rewrite bool_decide_eq_false_2; [done|].
  intros <-. apply Hk. by apply list_elem_of_fmap_2.
Qed.

Lemma group_step_new {A K} `{EqDecision K} (read : A → K) acc (x : A) :
  read x ∉ map fst acc → group_step read acc x = acc ++ [(read x, [x])].
Proof.
  intros Hk. unfold group_step, groups_has.
  rewrite bool_decide_eq_false_2 by done. simpl.
  unfold groups_push. rewrite map_app. fold (groups_push acc (read x) x).
  rewrite groups_push_absent by done. simpl.
  by rewrite bool_decide_eq_true_2.
Qed.

Lemma group_step_old {A K} `{EqDecision K} (read : A → K) acc g0 (y : A) :
  read y ∉ map fst acc →
  group_step read (acc ++ [(read y, g0)]) y = acc ++ [(read y, g0 ++ [y])].
Proof.
  intros Hk. unfold group_step, groups_has.
  rewrite bool_decide_eq_true_2
    by (rewrite map_app; apply elem_of_app; right; left).
  simpl. unfold groups_push. rewrite map_app. fold (groups_push acc (read y) y).
  rewrite groups_push_absent by done. simpl.
  by rewrite bool_decide_eq_true_2.
Qed.

Lemma fold_group_more {A K} `{EqDecision K} (read : A → K) acc k (g : list A) :
  k ∉ map fst acc → Forall (λ x, read x = k) g →
  ∀ g0, fold_left (group_step read) g (acc ++ [(k, g0)]) = acc ++ [(k, g0 ++ g)].
Proof.
  intros Hk. induction 1 as [|y g Hy _ IH]; intros g0; simpl.
  - by rewrite app_nil_r.
  - subst k. rewrite group_step_old by done. by rewrite IH, <- app_assoc.
Qed.

Lemma fold_group_blocks {A K} `{EqDecision K} (read : A → K)
    (blocks : list (K * list A)) :
  ∀ acc, NoDup (map fst (acc ++ blocks)) →
    Forall (λ b, b.2 ≠ [] ∧ Forall (λ x, read x = b.1) b.2) blocks →
    fold_left (group_step read) (flat_map snd blocks) acc = acc ++ blocks.
Proof.
  induction blocks as [|[k g] bs IH]; intros acc Hnd Hok; simpl.
  - by rewrite app_nil_r.
  - apply Forall_cons in Hok as [[Hne Hg] Hok]. simpl in Hne, Hg.
    destruct g as [|x g]; [done|]. apply Forall_cons in Hg as [Hx Hg].
    assert (k ∉ map fst acc) as Hk.
    { rewrite map_app in Hnd. apply NoDup_app in Hnd as (_ & Hd & _).
      intros Hin. apply (Hd k Hin). left. }
    rewrite fold_left_app. simpl. subst k. rewrite group_step_new by done.
    rewrite fold_group_more by done. simpl.
    rewrite IH; [by rewrite <- app_assoc | by rewrite <- app_assoc | done].
Qed.

(** X17.  Grouping undoes concatenation: of blocks of items, none empty,
    that read pairwise distinct values, each block reading one value
    throughout, the concatenation is grouped into the blocks again. *)
Theorem groupBy_blocks {A K} `{EqDecision K} (read : A → K) (blocks : list (K * list A)) :
  NoDup (map fst blocks) →
  Forall (λ b, b.2 ≠ [] ∧ Forall (λ x, read x = b.1) b.2) blocks →
  groupBy (flat_map snd blocks) read = blocks.
Proof.
  intros Hnd Hok. unfold groupBy. by rewrite fold_group_blocks.
Qed.

(** Numbers grouped by their parity. *)
Lemma groupBy_blocks_witness :
  groupBy [1; 3; 5; 2; 4] Nat.even = [(false, [1; 3; 5]); (true, [2; 4])].
Proof.
  apply (groupBy_blocks Nat.even [(false, [1; 3; 5]); (true, [2; 4])]).
  - simpl. apply NoDup_cons_2; [|apply NoDup_singleton].
    by intros [?|?%elem_of_nil]%elem_of_cons.
  - repeat (apply List.Forall_cons || apply List.Forall_nil || split); done.
Defined.

Lemma childSections_groups config savedArr currentArr s R cs :
  compareSection config savedArr currentArr = Some s →
  sec_data s = EntityData R → childSections s = Some cs →
  children config ≠ [] ∧ NoDup (map m_id (r_matched R))
  ∧ ∃ groups, cs = mjoin groups
      ∧ Forall2 (λ m g,
          Forall2 (λ c s', sec_key s' = key c ∧ parentId s' = Some (m_id m))
            (children config) g) (r_matched R) groups.
Proof.
  intros Hs Hd Hcs. destruct (strat config) eqn:Est.
  - rewrite compareSection_entity in Hs by done.
    destruct (as_records savedArr) as [S|]; [|done].
    destruct (as_records currentArr) as [C|]; [|done]. simpl in Hs.
    destruct (indexes_throw S C _); [done|].
    destruct (children config) as [|c0 cs'] eqn:Ech.
    { simpl in Hs. injection Hs as <-. done. }
    rewrite compareChildren_groups in Hs.
    destruct (indexes_throw S C _); [done|].
    destruct (mapM _ (r_matched _)) as [groups|] eqn:Eg; [|done].
    simpl in Hs. injection Hs as <-. simpl in Hd, Hcs.
    injection Hd as <-. injection Hcs as <-.
    split; [done|]. split; [apply entityCompare_ids_NoDup|].
    exists groups. split; [done|].
    apply mapM_Some in Eg. eapply Forall2_impl; [exact Eg|].
    intros m g Hg. simpl in Hg. apply mapM_Some in Hg. rewrite Ech in Hg.
    eapply Forall2_impl; [exact Hg|].
    intros c s' Hc. simpl in Hc. unfold child_section in Hc. cbv zeta in Hc.
    destruct (compareSection c _ _) as [s0|] eqn:E0; [|done].
    injection Hc as <-. simpl.
    by destruct (compareSection_heads _ _ _ _ E0) as ((-> & _) & _).
  - rewrite compareSection_flat in Hs by done.
    destruct (as_array savedArr) as [S|]; [|done].
    destruct (as_array currentArr) as [C|]; [|done]. simpl in Hs.
    injection Hs as <-. done.
Qed.

(** X18.  Grouped by [parentId] as the report page does, the child sections
    of a section fall into one group for each matched parent, in the order
    of the matched entities, each group holding one section for each child
    descriptor, in the order of the descriptors. *)
Theorem childSections_grouped_by_parent config savedArr currentArr s R cs :
  compareSection config savedArr currentArr = Some s →
  sec_data s = EntityData R → childSections s = Some cs →
  map (λ e, (e.1, map sec_key e.2)) (groupBy cs parentId)
  = map (λ m, (Some (m_id m), map key (children config))) (r_matched R).
Proof.
  intros Hs Hd Hcs.
  destruct (childSections_groups _ _ _ _ _ _ Hs Hd Hcs)
    as (Hch & Hnd & groups & -> & Hg).
  set (blocks := zip (map (λ m, Some (m_id m)) (r_matched R)) groups).
  assert (length (r_matched R) = length groups) as Hlen
    by by eapply Forall2_length.
  assert (flat_map snd blocks = mjoin groups) as Hflat.
  { subst blocks. clear -Hlen. revert groups Hlen.
    induction (r_matched R) as [|m ms IH]; intros [|g gs] Hlen; try done.
    simpl. f_equal. apply IH. by injection Hlen. }
  assert (map fst blocks = map (λ m, Some (m_id m)) (r_matched R)) as Hkeys.
  { subst blocks. apply fst_zip. rewrite length_map. lia. }
  rewrite <- Hflat. unfold groupBy.
  rewrite (fold_group_blocks parentId blocks []).
  - simpl. subst blocks. clear -Hg. induction Hg as [|m g ms gs Hmg _ IH]; [done|].
    simpl. rewrite IH. f_equal. f_equal.
    clear -Hmg. induction Hmg as [|c s' chs g' [Hkey _] _ IH]; [done|].
    simpl. by rewrite IH, Hkey.
  - simpl. rewrite Hkeys, <- (map_map m_id Some).
    by apply (NoDup_fmap_2 Some).
  - subst blocks. clear -Hg Hch. apply Forall_forall.
    intros [k g] Hin. simpl.
    induction Hg as [|m g0 ms gs Hmg _ IH]; [by apply elem_of_nil in Hin|].
    simpl in Hin. apply elem_of_cons in Hin as [[= -> ->]|Hin]; [|by apply IH].
    split.
    + intros ->. inversion Hmg as [Hnil|]. by rewrite <- Hnil in Hch.
    + clear -Hmg. induction Hmg as [|c s' chs g' [_ Hp] _ IH];
        [apply List.Forall_nil | by apply List.Forall_cons].
Qed.

(** Two matched namespaces with two child descriptors: two groups of two. *)
Lemma childSections_grouped_by_parent_witness :
  let config := entity "namespaces" "Namespaces"
                  [entity "classes" "Classes" []; entity "globals" "Globals" []] in
  let v := VArr [obj_id "ns1"; obj_id "ns2"] in
  ∃ s cs, compareSection config v v = Some s ∧ childSections s = Some cs
    ∧ map (λ e, (e.1, map sec_key e.2)) (groupBy cs parentId)
      = [ (Some "ns1", ["classes"; "globals"]); (Some "ns2", ["classes"; "globals"]) ].
Proof.
  intros config v.
  destruct (compareSection config v v) as [s|] eqn:E; [|by vm_compute in E].
  destruct (sec_data s) as [R|R] eqn:Ed;
    [|by vm_compute in E; injection E as <-].
  destruct (childSections s) as [cs|] eqn:Ec;
    [|by vm_compute in E; injection E as <-].
  exists s, cs. repeat split; try done.
  rewrite (childSections_grouped_by_parent config v v s R cs E Ed Ec).
  vm_compute in E. injection E as <-. by injection Ed as <-.
Defined.

(** * The two snapshots exchanged *)

Lemma matched_swap_Permutation (savedArr currentArr : list record) f ex :
  r_matched (entityCompare currentArr savedArr f ex)
  ≡ₚ map swap_matched (r_matched (entityCompare savedArr currentArr f ex)).
Proof.
  assert (∀ a b, diffProperties b a f ex = map swap_diff (diffProperties a b f ex))
    as Hsw.
  { intros a b. rewrite !diffProperties_omap.
    rewrite (sort_strings_perm _ _ (Set_from_app_comm (Object_keys b) (Object_keys a))).
    change (map swap_diff ?l) with (swap_diff <$> l). rewrite list_fmap_omap.
    apply omap_ext_all. intros k. apply diff_of_swap. }
  rewrite !entityCompare_unfold. simpl.
  set (iS := indexById savedArr f). set (iC := indexById currentArr f).
  assert (NoDup (map fst iS)) as HS by apply indexById_NoDup.
  assert (NoDup (map fst iC)) as HC by apply indexById_NoDup.
  apply NoDup_Permutation.
  - apply (NoDup_fmap_1 m_id).
    change (m_id <$> ?l) with (map m_id l). rewrite matched_ids.
    by apply NoDup_List_filter.
  - apply (NoDup_fmap_1 m_id).
    change (m_id <$> ?l) with (map m_id l). rewrite map_map. simpl.
    rewrite matched_ids. by apply NoDup_List_filter.
  - intros x. change (map swap_matched ?l) with (swap_matched <$> l).
    rewrite list_elem_of_fmap. setoid_rewrite elem_of_matched. split.
    + intros (ce & se & Hin & Hget & Hd).
      exists (mkMatched (m_id x) (diffProperties se ce f ex)). split.
      * destruct x as [i ds]. simpl in *. unfold swap_matched. simpl.
        by rewrite Hd, Hsw.
      * exists se, ce. simpl. split; [by apply elem_of_jsmap|].
        split; [|done]. by apply elem_of_jsmap in Hin.
    + intros (y & -> & se & ce & Hin & Hget & Hd). simpl.
      exists ce, se. split; [by apply elem_of_jsmap|].
      split; [by apply elem_of_jsmap in Hin|]. by rewrite Hd, <- Hsw.
Qed.

Lemma is_changed_swap m : is_changed (swap_matched m) = is_changed m.
Proof. unfold is_changed, swap_matched. simpl. by rewrite length_map. Qed.

Lemma count_changed_swap (ms : list MatchedEntity) :
  count_changed (map swap_matched ms) = count_changed ms.
Proof.
  unfold count_changed. induction ms as [|m ms IH]; [done|].
  cbn [map List.filter]. rewrite is_changed_swap.
  destruct (is_changed m); cbn [length]; by rewrite IH.
Qed.

Lemma count_inSync_swap (ms : list MatchedEntity) :
  count_inSync (map swap_matched ms) = count_inSync ms.
Proof.
  unfold count_inSync. induction ms as [|m ms IH]; [done|].
  cbn [map List.filter]. rewrite is_changed_swap.
  destruct (is_changed m); cbn [negb length]; by rewrite IH.
Qed.

(** X19.  Exchanging the two arrays exchanges missing and extra, leaves the
    matched entities the same up to their order, each with the two sides of
    its differences exchanged, and exchanges the two counts of the summary
    while keeping the other two. *)
Theorem entityCompare_swap (savedArr currentArr : list record) f ex :
  let R := entityCompare savedArr currentArr f ex in
  let R' := entityCompare currentArr savedArr f ex in
  r_missing R' = r_extra R ∧ r_extra R' = r_missing R
  ∧ r_matched R' ≡ₚ map swap_matched (r_matched R)
  ∧ r_summary R'
    = mkEntitySummary (sum_extra (r_summary R)) (sum_missing (r_summary R))
        (sum_changed (r_summary R)) (sum_inSync (r_summary R)).
Proof.
  intros R R'.
  pose proof (matched_swap_Permutation savedArr currentArr f ex) as Hp.
  fold R R' in Hp. split; [|split; [|split; [done|]]].
  - subst R R'. by rewrite !entityCompare_unfold.
  - subst R R'. by rewrite !entityCompare_unfold.
  - destruct (entityCompare_summary savedArr currentArr f ex) as (_ & _ & Ec & Ei).
    destruct (entityCompare_summary currentArr savedArr f ex) as (_ & _ & Ec' & Ei').
    fold R in Ec, Ei. fold R' in Ec', Ei'.
    assert (sum_changed (r_summary R') = sum_changed (r_summary R)) as Hc.
    { rewrite Ec, Ec', <- (count_changed_swap (r_matched R)).
      by apply List_filter_length_Permutation. }
    assert (sum_inSync (r_summary R') = sum_inSync (r_summary R)) as Hi.
    { rewrite Ei, Ei', <- (count_inSync_swap (r_matched R)).
      by apply List_filter_length_Permutation. }
    rewrite <- Hc, <- Hi. subst R R'. by rewrite !entityCompare_unfold.
Qed.

Lemma mapM_weight_ext {A B} (w : B → nat) (f f' : A → option B) (l : list A) :
  (∀ x y, x ∈ l → f x = Some y → ∃ y', f' x = Some y' ∧ w y' = w y) →
  ∀ k, mapM f l = Some k →
    ∃ k', mapM f' l = Some k' ∧ sum_list_with w k' = sum_list_with w k.
Proof.
  induction l as [|x l IH]; intros Hf k; simpl.
  - intros [= <-]. by exists [].
  - destruct (f x) as [y|] eqn:Ey; [|done]. simpl.
    destruct (mapM f l) as [k0|] eqn:Ek; [|done]. simpl. intros [= <-].
    destruct (Hf x y) as (y' & Ey' & Hw); [left | done |].
    destruct (IH (λ x0 y0 Hin, Hf x0 y0 (list_elem_of_further _ _ _ Hin)) k0 eq_refl)
      as (k' & Ek' & Hk').
    exists (y' :: k'). rewrite Ey'. simpl. rewrite Ek'. simpl.
    split; [done|]. by rewrite Hw, Hk'.
Qed.

Lemma mapM_weight_Permutation {A B} (w : B → nat) (f : A → option B) (l l' : list A) :
  l ≡ₚ l' →
  ∀ k, mapM f l = Some k →
    ∃ k', mapM f l' = Some k' ∧ sum_list_with w k' = sum_list_with w k.
Proof.
  induction 1 as [|x l l' _ IH|x y l|l l' l'' _ IH1 _ IH2]; intros k; simpl.
  - intros [= <-]. by exists [].
  - destruct (f x) as [z|]; [|done]. simpl.
    destruct (mapM f l) as [k0|]; [|done]. simpl. intros [= <-].
    destruct (IH k0 eq_refl) as (k' & -> & Hk'). simpl.
    exists (z :: k'). split; [done|]. simpl. by rewrite Hk'.
  - destruct (f y) as [zy|]; [|done]. simpl.
    destruct (f x) as [zx|]; [|done]. simpl.
    destruct (mapM f l) as [k0|]; [|done]. simpl. intros [= <-].
    exists (zx :: zy :: k0). split; [done|]. simpl. lia.
  - intros Hk. destruct (IH1 k Hk) as (k' & Hk' & E1).
    destruct (IH2 k' Hk') as (k'' & Hk'' & E2).
    exists k''. split; [done|]. by rewrite E2.
Qed.

Lemma mapM_map {A B C} (f : B → option C) (h : A → B) (l : list A) :
  mapM f (map h l) = mapM (λ x, f (h x)) l.
Proof. induction l as [|x l IH]; simpl; [done|]. by rewrite IH. Qed.

Lemma sum_totals_join (gs : list (list Section)) :
  sum_totals (mjoin gs) = sum_list_with sum_totals gs.
Proof.
  unfold sum_totals. induction gs as [|g gs IH]; simpl; [done|].
  by rewrite sum_list_with_app, IH.
Qed.

(** X20.  The number of differences does not depend on which of the two
    snapshots is called the saved one: exchanging the two collections of a
    section, or the two snapshots of a report, leaves the total the same. *)
Theorem compare_totals_symmetric :
  (∀ config a b s,
     compareSection config a b = Some s →
     ∃ s', compareSection config b a = Some s'
           ∧ totalDifferences s' = totalDifferences s)
  ∧ (∀ now saved current rep,
       compare now saved current = Some rep →
       ∃ rep', compare now current saved = Some rep'
               ∧ rep_totalDifferences rep' = rep_totalDifferences rep).
Proof.
  assert (∀ config a b s,
            compareSection config a b = Some s →
            ∃ s', compareSection config b a = Some s'
                  ∧ totalDifferences s' = totalDifferences s) as Hsec.
  { induction config as [k l st i cs IH] using config_nested_ind.
    intros a b s. destruct st.
    - rewrite !compareSection_entity by done. cbn [key label strat idField children].
      destruct (as_records a) as [S|]; [|done].
      destruct (as_records b) as [C|]; [|done]. simpl.
      rewrite (indexes_throw_comm C S).
      destruct (indexes_throw S C _); [done|].
      set (f := default "id" i). set (ex := getChildKeys _).
      destruct (entityCompare_summary S C f ex) as (Em & Ee & Ec & _).
      destruct (entityCompare_summary C S f ex) as (Em' & Ee' & Ec' & _).
      pose proof (matched_swap_Permutation S C f ex) as Hp.
      set (R := entityCompare S C f ex) in *.
      set (R' := entityCompare C S f ex) in *.
      assert (sum_missing (r_summary R') = sum_extra (r_summary R)) as Hm
        by (subst R R'; by rewrite !entityCompare_unfold).
      assert (sum_extra (r_summary R') = sum_missing (r_summary R)) as He
        by (subst R R'; by rewrite !entityCompare_unfold).
      assert (sum_changed (r_summary R') = sum_changed (r_summary R)) as Hc.
      { rewrite Ec, Ec', <- (count_changed_swap (r_matched R)).
        by apply List_filter_length_Permutation. }
      destruct cs as [|c0 cs'].
      + simpl. intros [= <-]. eexists. split; [done|]. simpl. lia.
      + rewrite !compareChildren_groups. cbn [idField children].
        rewrite (indexes_throw_comm C S).
        destruct (indexes_throw S C _); [done|].
        set (config := mkConfig k l Entity i (c0 :: cs')).
        set (G := λ m, mapM (child_section compareSection config
                               (indexBy S i) (indexBy C i) m) (c0 :: cs')).
        set (G' := λ m, mapM (child_section compareSection config
                                (indexBy C i) (indexBy S i) m) (c0 :: cs')).
        destruct (mapM G (r_matched R)) as [groups|] eqn:Eg; [|done].
        destruct (mapM_weight_ext sum_totals G G' (r_matched R))
          with (k := groups) as (groups1 & Eg1 & Hw1); [|done|].
        { intros m g _ Hg.
          apply (mapM_weight_ext totalDifferences
                   (child_section compareSection config (indexBy S i) (indexBy C i) m));
            [|done].
          intros c s0 Hc0 Hs0. unfold child_section in *. cbv zeta in *.
          destruct (compareSection c _ _) as [s1|] eqn:E1; [|done].
          injection Hs0 as <-. rewrite Forall_forall in IH.
          destruct (IH c Hc0 _ _ _ E1) as (s1' & -> & Ht). simpl.
          eexists. split; [done|]. done. }
        assert (mapM G' (map swap_matched (r_matched R)) = Some groups1) as Eg2
          by by rewrite mapM_map.
        destruct (mapM_weight_Permutation sum_totals _ _ _ (Permutation_sym Hp) _ Eg2)
          as (groups' & -> & Hw').
        simpl. intros [= <-]. eexists. split; [done|]. simpl.
        rewrite !sum_totals_join, Hw', Hw1. lia.
    - rewrite !compareSection_flat by done.
      destruct (as_array a) as [S|]; [|done].
      destruct (as_array b) as [C|]; [|done]. simpl.
      intros [= <-]. eexists. split; [done|]. simpl. lia. }
  split; [exact Hsec|].
  intros now saved current rep. unfold compare. rewrite !compare_in_sections.
  generalize registry. intros reg.
  destruct (mapM _ reg) as [ss|] eqn:Ess; [|done].
  destruct (mapM_weight_ext totalDifferences
              (λ c, compareSection c (or_empty_array (get_prop saved (key c)))
                      (or_empty_array (get_prop current (key c))))
              (λ c, compareSection c (or_empty_array (get_prop current (key c)))
                      (or_empty_array (get_prop saved (key c)))) reg)
    with (k := ss) as (ss' & -> & Hw); [|done|].
  { intros c s _ Hs. by apply Hsec. }
  simpl. intros [= <-]. eexists. split; [done|]. done.
Qed.

(** * Bootstrap *)

Ltac answer_calls env :=
  repeat (simpl;
    match goal with
    | |- context [env ?tr _ (OnStatus ?m)] =>
        destruct (env tr _ (OnStatus m)) as []
    | |- context [env ?tr _ (TryFetchExport ?u)] =>
        destruct (env tr _ (TryFetchExport u)) as [[] ?]
    | |- context [env ?tr _ OnRequestConsent] =>
        destruct (env tr _ OnRequestConsent) as []
    | |- context [env ?tr _ (UploadClass ?u)] =>
        destruct (env tr _ (UploadClass u)) as [?|]
    | |- context [env ?tr _ (CompileClass ?u)] =>
        destruct (env tr _ (CompileClass u)) as [?|]
    | |- context [env ?tr _ (ExecuteSetupProcedure ?u)] =>
        destruct (env tr _ (ExecuteSetupProcedure u)) as [?|]
    end); simpl.

Ltac run_ensure env onStatus onRequestConsent :=
  unfold ensureExportApiAvailable, installFramework, call, await;
  destruct onStatus, onRequestConsent; answer_calls env.

(** X21.  How [ensureExportApiAvailable] ends is told by the last thing that
    happened: it returns when the last event is a probe that found the
    endpoint; it throws the cancellation when the last event is a consent
    refused, the error of a helper when the last event is that helper
    rejecting, and the error that carries [webAppUrl] when the last event is
    a probe that failed.  There is no other way for it to end. *)
Theorem outcome_by_last_event (env : Env) baseUrl onStatus onRequestConsent :
  let r := run (ensureExportApiAvailable baseUrl onStatus onRequestConsent) env [] in
  match last r.1 with
  | Some (EProbe u (mkProbe true st)) => r.2 = Returned tt
  | Some (EProbe u (mkProbe false st)) => r.2 = Thrown (still_unavailable baseUrl st)
  | Some (EConsent false) => r.2 = Thrown cancelled
  | Some ev => ∃ err, rejected ev = Some err ∧ r.2 = Thrown err
  | None => False
  end.
Proof.
  run_ensure env onStatus onRequestConsent; try done; by eexists.
Qed.

Ltac at_position :=
  first [ exists 0; split; [lia | reflexivity]
        | exists 1; split; [lia | reflexivity]
        | exists 2; split; [lia | reflexivity]
        | exists 3; split; [lia | reflexivity] ].

Ltac probe_at_position :=
  first [ exists 0; eexists; split; [lia | reflexivity]
        | exists 1; eexists; split; [lia | reflexivity] ].

Ltac not_in_trace H :=
  repeat (apply elem_of_cons in H as [H|H]; [discriminate H|]);
  by apply elem_of_nil in H.

(** X22.  A helper that installs something is called only after a probe of
    the server has failed and, when a consent callback is given, after the
    callback has answered yes; in a run in which consent was refused none is
    called. *)
Theorem install_only_after_consent (env : Env) baseUrl onStatus onRequestConsent i e :
  let tr := (run (ensureExportApiAvailable baseUrl onStatus onRequestConsent) env []).1 in
  tr !! i = Some e → is_install e = true →
  (∃ j st, j < i ∧ tr !! j = Some (EProbe baseUrl (mkProbe false st)))
  ∧ (onRequestConsent = true → ∃ j, j < i ∧ tr !! j = Some (EConsent true))
  ∧ (EConsent false ∉ tr).
Proof.
  cbv zeta. run_ensure env onStatus onRequestConsent; intros Hi He;
    repeat (destruct i as [|i]; simpl in Hi;
            [injection Hi as <-; try discriminate He|]);
    try discriminate Hi;
    (split; [probe_at_position|]; split;
       [first [intros _; at_position | intros [=]] | intros Hin; not_in_trace Hin]).
Qed.

(** On a server without the export API, with a user who consents, the class
    is uploaded as the sixth thing that happens. *)
Lemma install_only_after_consent_witness :
  let tr := (run (ensureExportApiAvailable "http://iris:52773" true true)
               (fresh_server true) []).1 in
  tr !! 5 = Some (EUpload "http://iris:52773" None)
  ∧ (∃ j st, j < 5 ∧ tr !! j = Some (EProbe "http://iris:52773" (mkProbe false st)))
  ∧ (true = true → ∃ j, j < 5 ∧ tr !! j = Some (EConsent true))
  ∧ (EConsent false ∉ tr).
Proof.
  split; [reflexivity|].
  apply (install_only_after_consent (fresh_server true) "http://iris:52773" true true 5
           (EUpload "http://iris:52773" None)); reflexivity.
Defined.

(** X23.  The installation goes upload, compile, setup, each at most once
    and in that order; a helper that rejects ends the run at once, nothing
    being called after it, and its error is the error thrown, unchanged. *)
Theorem install_steps_fail_fast (env : Env) baseUrl onStatus onRequestConsent :
  let r := run (ensureExportApiAvailable baseUrl onStatus onRequestConsent) env [] in
  omap step_of r.1 `prefix_of` [Upload; Compile; Setup]
  ∧ ∀ i e err, r.1 !! i = Some e → rejected e = Some err →
      r.2 = Thrown err ∧ length r.1 = S i.
Proof.
  cbv zeta. run_ensure env onStatus onRequestConsent;
    (split; [by eexists|]); intros i e err Hi He;
    repeat (destruct i as [|i]; simpl in Hi;
            [injection Hi as <-; try discriminate He|]);
    try discriminate Hi; simpl in He; by injection He as <-.
Qed.

(** X24.  [ensureExportApiAvailable] calls no server but the one it is given,
    probes it at most twice and asks for consent at most once. *)
Theorem bootstrap_calls (env : Env) baseUrl onStatus onRequestConsent :
  let tr := (run (ensureExportApiAvailable baseUrl onStatus onRequestConsent) env []).1 in
  (∀ e u, e ∈ tr → target e = Some u → u = baseUrl)
  ∧ length (List.filter is_probe tr) ≤ 2
  ∧ length (List.filter is_consent tr) ≤ 1.
Proof.
  cbv zeta. run_ensure env onStatus onRequestConsent;
    (split; [|simpl; lia]); intros e u Hin Hu;
    repeat (apply elem_of_cons in Hin as [->|Hin];
            [simpl in Hu; first [discriminate Hu | by injection Hu]|]);
    by apply elem_of_nil in Hin.
Qed.

(** * The server of the active tab *)

Lemma string_app_cons c (s t : string) : String c s +:+ t = String c (s +:+ t).
Proof. reflexivity. Qed.

Lemma string_app_nil_r (s : string) : s +:+ "" = s.
Proof.
  induction s as [|c s IH]; [done|]. by rewrite string_app_cons, IH.
Qed.

Lemma substring_0_app (p x : string) : substring 0 (String.length p) (p +:+ x) = p.
Proof.
  induction p as [|c p IH]; [by destruct x|].
  change (substring 0 (S (String.length p)) (String c (p +:+ x)) = String c p).
  simpl. by rewrite IH.
Qed.

Lemma substring_skip_app (p x : string) n :
  substring (String.length p) n (p +:+ x) = substring 0 n x.
Proof.
  induction p as [|c p IH]; [done|].
  change (substring (S (String.length p)) n (String c (p +:+ x)) = substring 0 n x).
  simpl. exact IH.
Qed.

Lemma occurs_at_app (p q r : string) : occurs_at q (p +:+ q +:+ r) (String.length p).
Proof. unfold occurs_at. by rewrite substring_skip_app, substring_0_app. Qed.

Lemma substring_0_prefix n : ∀ s : string, ∃ r, s = substring 0 n s +:+ r.
Proof.
  induction n as [|n IH]; intros [|c s]; simpl; try by eexists.
  destruct (IH s) as (r & Hr). exists r. by rewrite string_app_cons, <- Hr.
Qed.

(** X25.  From the URL of the active tab, [getActiveTabOrigin] returns the
    origin followed by the part of the path that comes before the first
    [/csp], and the origin alone when the path has no [/csp]; what it
    returns always begins with the origin and goes no further than the
    path; and without a URL it throws. *)
Theorem getActiveTabOrigin_spec :
  (∀ url p rest,
     pathname url = p +:+ "/csp" +:+ rest →
     (∀ m, m < String.length p → ¬ occurs_at "/csp" (pathname url) m) →
     getActiveTabOrigin (Some url) = Returned (origin url +:+ p))
  ∧ (∀ url, (∀ m, ¬ occurs_at "/csp" (pathname url) m) →
            getActiveTabOrigin (Some url) = Returned (origin url))
  ∧ (∀ url, ∃ p rest, getActiveTabOrigin (Some url) = Returned (origin url +:+ p)
                      ∧ pathname url = p +:+ rest)
  ∧ getActiveTabOrigin None
    = Thrown (mkError "Cannot access the current tab URL." None).
Proof.
  split; [|split; [|split; [|done]]].
  - intros [o s] p rest Hs Hfirst. simpl in *. unfold getActiveTabOrigin, indexOf.
    simpl. destruct (index 0 "/csp" s) as [n|] eqn:En.
    + assert (n = String.length p) as ->.
      { pose proof (index_correct1 _ _ _ _ En) as H1.
        pose proof (index_correct2 _ _ _ _ En) as H2.
        destruct (Nat.lt_trichotomy n (String.length p)) as [Hlt|[?|Hgt]]; [|done|].
        - by destruct (Hfirst n Hlt).
        - destruct (H2 (String.length p)); [lia | done |].
          rewrite Hs. apply occurs_at_app. }
      destruct (0 <? Z.of_nat (String.length p))%Z eqn:E0.
      * by rewrite Nat2Z.id, Hs, substring_0_app.
      * apply Z.ltb_ge in E0. destruct p; [|simpl in E0; lia].
        by rewrite string_app_nil_r.
    + destruct (index_correct3 _ (String.length p) _ _ En); [done | lia |].
      rewrite Hs. apply occurs_at_app.
  - intros [o s] Hno. simpl in *. unfold getActiveTabOrigin, indexOf. simpl.
    destruct (index 0 "/csp" s) as [n|] eqn:En; [|done].
    by destruct (Hno n (index_correct1 _ _ _ _ En)).
  - intros [o s]. unfold getActiveTabOrigin, indexOf. simpl.
    destruct (0 <? _)%Z.
    + destruct (substring_0_prefix
                  (Z.to_nat match index 0 "/csp" s with
                            | Some n => Z.of_nat n | None => (-1)%Z end) s)
        as (r & Hr).
      by eexists _, r.
    + exists "", s. by rewrite string_app_nil_r.
Qed.

(** * The report page *)

Lemma differences_shown_Elem tag className o children :
  differences_shown (Elem tag className o children)
  = (if is_difference_class className then 1 else 0)
    + sum_list_with differences_shown children.
Proof.
  reflexivity.
Qed.

Lemma differences_shown_el tag className children :
  differences_shown (el tag className children)
  = (if is_difference_class className then 1 else 0)
    + sum_list_with differences_shown children.
Proof. apply differences_shown_Elem. Qed.

Lemma shown_textContent s : sum_list_with differences_shown (textContent s) = 0.
Proof. by destruct s. Qed.

Lemma shown_zero (a b : nat) : a = 0 → b = 0 → ∀ c, c + (a + b) = c.
Proof. intros -> ->. lia. Qed.

Lemma shown_cons x l :
  sum_list_with differences_shown (x :: l)
  = differences_shown x + sum_list_with differences_shown l.
Proof. reflexivity. Qed.

Lemma shown_nil : sum_list_with differences_shown [] = 0.
Proof. reflexivity. Qed.

Lemma shown_text s : differences_shown (TextNode s) = 0.
Proof. reflexivity. Qed.

Ltac count_shown :=
  repeat first [ rewrite shown_cons | rewrite shown_nil | rewrite shown_text
               | rewrite differences_shown_el | rewrite shown_textContent ].

Lemma shown_appendValueCell v : sum_list_with differences_shown (appendValueCell v) = 0.
Proof.
  destruct v as [[[|b|n|s|items|props]|name]|]; unfold appendValueCell; simpl;
    try destruct (String.eqb name "__proto__");
    rewrite ?shown_cons, ?differences_shown_el, ?shown_textContent; done.
Qed.

Lemma renderCard_None type idOnly entity :
  renderCard type idOnly entity = None ↔ card_throws entity = true.
Proof.
  destruct entity as [|b|n|t|items|o]; try done.
  unfold renderCard, card_throws. simpl.
  destruct (get_prop o "id") as [i|]; simpl;
    [destruct (truthy i) eqn:Hi; simpl; rewrite ?Hi; simpl|];
    try (by destruct (String_throws i));
    (destruct (get_prop o "name") as [nm|]; simpl;
       [destruct (truthy nm) eqn:Hn; simpl; rewrite ?Hn; simpl|]);
    try done; by destruct (String_throws nm).
Qed.

Lemma renderCard_shown type idOnly entity n :
  renderCard type idOnly entity = Some n →
  differences_shown n = if is_difference_class ("entity-card " +:+ type) then 1 else 0.
Proof.
  unfold renderCard. destruct (read_member entity "id") as [i|]; [|done]. simpl.
  destruct (read_member entity "name") as [nm|]; [|done]. simpl.
  destruct (if truthy_read _ then _ else Some []) as [idEl|] eqn:Eid; [|done]. simpl.
  intros [= <-]. rewrite differences_shown_el, sum_list_with_app.
  apply shown_zero.
  - destruct (truthy_read _); [|by injection Eid as <-].
    destruct (String_throws _); [done|]. injection Eid as <-. simpl.
    rewrite differences_shown_el, shown_textContent. done.
  - destruct idOnly; [done|]. simpl. rewrite differences_shown_el. simpl.
    induction (Object_entries entity) as [|[k v] l IH]; [done|].
    simpl. destruct (String.eqb k "id"); [done|]. simpl.
    rewrite !differences_shown_el, !shown_textContent. simpl in *. lia.
Qed.

Lemma renderEntityList_None title type entities idOnly :
  renderEntityList title type entities idOnly = None
  ↔ ∃ x, x ∈ entities ∧ card_throws x = true.
Proof.
  unfold renderEntityList.
  destruct (mapM _ entities) as [cards|] eqn:E; simpl.
  - split; [done|]. intros (x & Hin & Hx).
    assert (mapM (renderCard type idOnly) entities = None) as E'; [|congruence].
    apply mapM_None, Exists_exists. exists x. split; [done|]. by apply renderCard_None.
  - split; [intros _|done].
    apply mapM_None, Exists_exists in E as (x & Hx & Hc%renderCard_None). by exists x.
Qed.

Lemma renderEntityList_shown title type entities idOnly n :
  renderEntityList title type entities idOnly = Some n →
  differences_shown n
  = if is_difference_class ("entity-card " +:+ type) then length entities else 0.
Proof.
  unfold renderEntityList.
  destruct (mapM _ entities) as [cards|] eqn:E; [|done]. simpl.
  intros [= <-]. rewrite differences_shown_el.
  assert (is_difference_class ("diff-group " +:+ type) = false) as ->.
  { unfold is_difference_class. destruct type as [|c type]; [done|].
    change ("diff-group " +:+ String c type) with
      (String "d" ("iff-group " +:+ String c type)). done. }
  simpl. rewrite !differences_shown_el, shown_textContent. simpl.
  apply mapM_Some in E. clear -E.
  induction E as [|e n es ns He _ IH]; simpl.
  - by destruct (is_difference_class _).
  - rewrite (renderCard_shown _ _ _ _ He).
    destruct (is_difference_class _); simpl in *; lia.
Qed.

Lemma renderPropertyDiffTable_shown m : differences_shown (renderPropertyDiffTable m) = 1.
Proof.
  unfold renderPropertyDiffTable.
  repeat (rewrite ?differences_shown_el, ?shown_textContent; simpl).
  assert (sum_list_with differences_shown
            (map (λ diff,
                    el "tr" ""
                      [ el "td" "prop-name" (textContent (property diff));
                        el "td" "prop-value saved" (appendValueCell (pd_saved diff));
                        el "td" "prop-value current" (appendValueCell (pd_current diff)) ])
               (differences m)) = 0) as ->.
  { induction (differences m) as [|d ds IH]; [done|].
    simpl. rewrite IH.
    repeat (rewrite ?differences_shown_el, ?shown_textContent, ?shown_appendValueCell;
            simpl).
    done. }
  done.
Qed.

Lemma entity_block_None title type (l : list value) idOnly :
  (if 0 <? length l
   then b ← renderEntityList title type l idOnly; Some [b]
   else Some []) = None ↔ ∃ x, x ∈ l ∧ card_throws x = true.
Proof.
  destruct l as [|x l]; simpl; [split; [done | by intros (? & ?%elem_of_nil & _)]|].
  rewrite <- (renderEntityList_None title type (x :: l) idOnly).
  by destruct (renderEntityList _ _ _ _).
Qed.

Lemma entity_block_shown title type (l : list value) idOnly ns :
  is_difference_class ("entity-card " +:+ type) = true →
  (if 0 <? length l
   then b ← renderEntityList title type l idOnly; Some [b]
   else Some []) = Some ns →
  sum_list_with differences_shown ns = length l.
Proof.
  intros Hty. destruct l as [|x l]; simpl; [by intros [= <-]|].
  destruct (renderEntityList _ _ _ _) as [b|] eqn:Eb; [|done]. simpl.
  intros [= <-]. simpl. rewrite (renderEntityList_shown _ _ _ _ _ Eb), Hty.
  simpl. lia.
Qed.

Lemma exists_elem_of_app {A} (P : A → Prop) (l k : list A) :
  (∃ x, x ∈ l ++ k ∧ P x) ↔ (∃ x, x ∈ l ∧ P x) ∨ (∃ x, x ∈ k ∧ P x).
Proof.
  split.
  - intros (x & [?|?]%elem_of_app & ?); [left | right]; by exists x.
  - intros [(x & ? & ?)|(x & ? & ?)]; exists x; rewrite elem_of_app; auto.
Qed.

Lemma renderFlatBody_None r :
  renderFlatBody r = None ↔ ∃ x, x ∈ f_missing r ++ f_extra r ∧ card_throws x = true.
Proof.
  unfold renderFlatBody.
  rewrite exists_elem_of_app,
          <- (entity_block_None "Missing in Current Server" "missing" (f_missing r) false),
          <- (entity_block_None "Extra in Current Server" "extra" (f_extra r) false).
  destruct (if 0 <? length (f_missing r) then _ else _) as [ms|]; simpl;
    [|split; [by left | done]].
  destruct (if 0 <? length (f_extra r) then _ else _) as [es|]; simpl;
    [|split; [by right | done]].
  split; [done | by intros [?|?]].
Qed.

Lemma renderFlatBody_shown r nodes :
  renderFlatBody r = Some nodes →
  sum_list_with differences_shown nodes = length (f_missing r) + length (f_extra r).
Proof.
  unfold renderFlatBody.
  destruct (if 0 <? length (f_missing r) then _ else _) as [ms|] eqn:Em; [|done].
  simpl. destruct (if 0 <? length (f_extra r) then _ else _) as [es|] eqn:Ee; [|done].
  simpl. intros [= <-]. rewrite sum_list_with_app.
  by rewrite (entity_block_shown _ "missing" _ _ _ eq_refl Em),
             (entity_block_shown _ "extra" _ _ _ eq_refl Ee).
Qed.

Lemma child_group_shown (group : list (Section * option Node)) children :
  mapM snd group = Some children →
  sum_list_with differences_shown children
  = sum_list_with (λ p, from_option differences_shown 0 p.2) group
  ∧ Forall (λ p, is_Some p.2) group.
Proof.
  intros H%mapM_Some. induction H as [|[c o] n g ns Hn _ [IH1 IH2]];
    [by split; [|apply List.Forall_nil]|].
  simpl in *. subst o. simpl. rewrite IH1. split; [done|].
  apply List.Forall_cons; [by eexists | done].
Qed.

Lemma renderChildSections_shown rendered nodes :
  renderChildSections rendered = Some nodes →
  sum_list_with differences_shown nodes
  = sum_list_with (λ p, from_option differences_shown 0 p.2) rendered
  ∧ Forall (λ p, is_Some p.2) rendered.
Proof.
  unfold renderChildSections. destruct (0 <? length rendered) eqn:El.
  2:{ intros [= <-]. destruct rendered; [|done]. by split; [|apply List.Forall_nil]. }
  destruct (mapM _ (groupBy _ _)) as [blocks|] eqn:Eb; [|done]. simpl.
  intros [= <-]. simpl. rewrite differences_shown_el. simpl.
  pose proof (groupBy_join_Permutation rendered (λ c, parentId c.1)) as Hp.
  rewrite <- Hp at 1 2. clear Hp El.
  apply mapM_Some in Eb.
  induction Eb as [|[k g] b G bs Hb _ [IH1 IH2]]; [by split; [|apply List.Forall_nil]|].
  simpl in Hb. destruct (mapM snd g) as [children|] eqn:Eg; [|done].
  simpl in Hb. injection Hb as <-.
  destruct (child_group_shown _ _ Eg) as [Hs Hf].
  change (sum_list_with differences_shown (?x :: ?l))
    with (differences_shown x + sum_list_with differences_shown l).
  change (mjoin (map snd ((k, g) :: G))) with (g ++ mjoin (map snd G)).
  rewrite differences_shown_el.
  change (sum_list_with differences_shown (?x :: ?l))
    with (differences_shown x + sum_list_with differences_shown l).
  rewrite differences_shown_el.
  change (sum_list_with differences_shown [TextNode ?t]) with 0.
  rewrite sum_list_with_app. simpl. split.
  - simpl in IH1. lia.
  - by apply Forall_app.
Qed.

Lemma renderChildSections_None rendered :
  renderChildSections rendered = None ↔ Exists (λ p, p.2 = None) rendered.
Proof.
  unfold renderChildSections. destruct (0 <? length rendered) eqn:El.
  2:{ destruct rendered; [|done]. split; [done|]. by intros ?%Exists_nil. }
  pose proof (groupBy_join_Permutation rendered (λ c, parentId c.1)) as Hp.
  rewrite <- Hp at 2. clear Hp El.
  destruct (mapM _ (groupBy _ _)) as [blocks|] eqn:Eb; simpl.
  - split; [done|]. intros Hex. exfalso.
    apply mapM_Some in Eb.
    induction Eb as [|[k g] b G bs Hb _ IH]; [by apply Exists_nil in Hex|].
    simpl in Hb, Hex. apply Exists_app in Hex as [Hex|Hex]; [|by apply IH].
    destruct (mapM snd g) as [children|] eqn:Eg; [|done].
    assert (mapM snd g = None) by by apply mapM_None. congruence.
  - split; [intros _|done].
    apply mapM_None in Eb.
    induction Eb as [[k g] G Hg|[k g] G _ IH]; simpl.
    + apply Exists_app. left. simpl in Hg.
      destruct (mapM snd g) as [children|] eqn:Eg; [done|]. by apply mapM_None.
    + apply Exists_app. by right.
Qed.

Lemma shown_tables (ms : list MatchedEntity) :
  sum_list_with differences_shown (map renderPropertyDiffTable ms) = length ms.
Proof.
  induction ms as [|m ms IH]; [done|].
  change (map renderPropertyDiffTable (m :: ms))
    with (renderPropertyDiffTable m :: map renderPropertyDiffTable ms).
  by rewrite shown_cons, renderPropertyDiffTable_shown, IH.
Qed.

Lemma entity_cards_throw (es : list IdEntity) :
  (∃ x, x ∈ map (λ m, VObj (e_entity m)) es ∧ card_throws x = true)
  ↔ ∃ e, e ∈ es ∧ card_throws (VObj (e_entity e)) = true.
Proof.
  split.
  - intros (x & (e & -> & He)%list_elem_of_fmap & Hx). by exists e.
  - intros (e & He & Hx). exists (VObj (e_entity e)). split; [|done].
    by apply (list_elem_of_fmap_2 (λ m, VObj (e_entity m))).
Qed.

Lemma renderEntityBody_None r rendered :
  renderEntityBody r rendered = None
  ↔ (∃ e, e ∈ r_missing r ++ r_extra r ∧ card_throws (VObj (e_entity e)) = true)
    ∨ Exists (λ p, p.2 = None) rendered.
Proof.
  unfold renderEntityBody. rewrite <- renderChildSections_None.
  rewrite exists_elem_of_app, <- !entity_cards_throw.
  rewrite <- (length_map (λ m, VObj (e_entity m)) (r_missing r)),
          <- (length_map (λ m, VObj (e_entity m)) (r_extra r)).
  rewrite <- (entity_block_None "Missing in Current Server" "missing"
                (map (λ m, VObj (e_entity m)) (r_missing r)) true),
          <- (entity_block_None "Extra in Current Server" "extra"
                (map (λ m, VObj (e_entity m)) (r_extra r)) true).
  destruct (if 0 <? length (map _ (r_missing r)) then _ else _) as [ms|] eqn:Em;
    [|split; [by left; left | done]].
  destruct (if 0 <? length (map _ (r_extra r)) then _ else _) as [es|] eqn:Ee;
    [|split; [by left; right | done]].
  simpl. destruct (renderChildSections rendered); simpl.
  - split; [done|]. by intros [[?|?]|?].
  - split; [by right | done].
Qed.

Lemma renderEntityBody_shown r rendered nodes :
  renderEntityBody r rendered = Some nodes →
  sum_list_with differences_shown nodes
  = length (r_missing r) + length (r_extra r) + count_changed (r_matched r)
    + sum_list_with (λ p, from_option differences_shown 0 p.2) rendered
  ∧ Forall (λ p, is_Some p.2) rendered.
Proof.
  unfold renderEntityBody.
  rewrite <- (length_map (λ m, VObj (e_entity m)) (r_missing r)),
          <- (length_map (λ m, VObj (e_entity m)) (r_extra r)).
  destruct (if 0 <? length (map _ (r_missing r)) then _ else _) as [ms|] eqn:Em; [|done].
  destruct (if 0 <? length (map _ (r_extra r)) then _ else _) as [es|] eqn:Ee; [|done].
  simpl. destruct (renderChildSections rendered) as [children|] eqn:Ec; [|done].
  simpl. intros [= <-].
  destruct (renderChildSections_shown _ _ Ec) as [Hc Hf]. split; [|done].
  rewrite !sum_list_with_app, Hc.
  rewrite (entity_block_shown _ "missing" _ _ _ eq_refl Em),
          (entity_block_shown _ "extra" _ _ _ eq_refl Ee).
  assert (∀ a b c d e f, c = e → d = 0 → a + (b + (c + (d + f))) = a + b + e + f) as Hz
    by (intros; lia).
  apply Hz.
  - unfold count_changed.
    change (List.filter (λ m, 0 <? length (differences m)) (r_matched r))
      with (List.filter is_changed (r_matched r)).
    destruct (List.filter is_changed (r_matched r)) as [|m ms'] eqn:Ef; [done|].
    change (0 <? length (m :: ms')) with true. cbn iota.
    change (textContent "Changed Properties") with [TextNode "Changed Properties"].
    count_shown. rewrite shown_tables. simpl. lia.
  - destruct (0 <? length (List.filter _ _)); [|done]. by count_shown.
Qed.

Lemma renderSection_unfold s :
  renderSection s
  = body ←
      (if totalDifferences s =? 0
       then Some [el "p" "in-sync-msg" (textContent "All items are in sync.")]
       else
         match sec_data s with
         | EntityData r =>
             renderEntityBody r
               (map (λ c, (c, renderSection c)) (default [] (childSections s)))
         | FlatData r => renderFlatBody r
         end);
    Some (el "section" "entity-section"
            [ Elem "details" "" (Some (0 <? totalDifferences s))
                [ el "summary" "" (buildSectionHeader s);
                  el "div" "section-body" body ] ]).
Proof.
  destruct s as [k l d [cs|] t pi pl]; [|reflexivity].
  cbn [default childSections].
  replace (map (λ c, (c, renderSection c)) cs)
    with ((fix go (l : list Section) : list (Section * option Node) :=
             match l with
             | [] => []
             | c :: l' => (c, renderSection c) :: go l'
             end) cs); [reflexivity|].
  induction cs as [|c cs IH]; [done|]. simpl. by rewrite IH.
Qed.

Lemma renderSection_tag_parent s pid plabel :
  renderSection (tag_parent s pid plabel) = renderSection s.
Proof. by rewrite !renderSection_unfold. Qed.

Lemma shown_header s : sum_list_with differences_shown (buildSectionHeader s) = 0.
Proof.
  unfold buildSectionHeader. destruct (0 <? totalDifferences s); by count_shown.
Qed.

Lemma renderSection_body s node :
  renderSection s = Some node →
  ∃ body,
    (if totalDifferences s =? 0
     then Some [el "p" "in-sync-msg" (textContent "All items are in sync.")]
     else
       match sec_data s with
       | EntityData r =>
           renderEntityBody r
             (map (λ c, (c, renderSection c)) (default [] (childSections s)))
       | FlatData r => renderFlatBody r
       end) = Some body
    ∧ differences_shown node = sum_list_with differences_shown body.
Proof.
  rewrite renderSection_unfold.
  destruct (if totalDifferences s =? 0 then _ else _) as [body|]; [|done].
  simpl. intros [= <-]. exists body. split; [done|].
  rewrite differences_shown_el, shown_cons, differences_shown_Elem.
  count_shown. rewrite shown_header. simpl. lia.
Qed.

(** X26.  The page of a section the engine produces shows one element for
    each difference the section counts: one card for each missing and each
    extra item and one table for each changed entity, those of the child
    sections included; their number is the total of the section. *)
Theorem page_shows_every_difference config :
  ∀ savedArr currentArr s node,
    compareSection config savedArr currentArr = Some s →
    renderSection s = Some node →
    differences_shown node = totalDifferences s.
Proof.
  induction config as [k l st i cs IH] using config_nested_ind.
  intros savedArr currentArr s node. destruct st.
  - rewrite compareSection_entity by done. cbn [key label strat idField children].
    destruct (as_records savedArr) as [S|]; [|done].
    destruct (as_records currentArr) as [C|]; [|done]. simpl.
    destruct (indexes_throw S C _); [done|].
    set (R := entityCompare S C _ _).
    destruct (entityCompare_summary S C (default "id" i)
                (getChildKeys (mkConfig k l Entity i cs))) as (Em & Ee & Ec & _).
    fold R in Em, Ee, Ec.
    destruct cs as [|c0 cs'].
    + simpl. intros [= <-] (body & Hb & ->)%renderSection_body.
      cbn [totalDifferences sec_data childSections default map] in *.
      destruct (_ =? 0) eqn:E0.
      * injection Hb as <-. apply Nat.eqb_eq in E0. by rewrite E0.
      * destruct (renderEntityBody_shown _ _ _ Hb) as [-> _]. simpl. lia.
    + rewrite compareChildren_groups.
      destruct (indexes_throw S C _); [done|].
      destruct (mapM _ (r_matched R)) as [groups|] eqn:Eg; [|done].
      simpl. intros [= <-] (body & Hb & ->)%renderSection_body.
      cbn [totalDifferences sec_data childSections default] in *.
      destruct (_ =? 0) eqn:E0.
      * injection Hb as <-. apply Nat.eqb_eq in E0. by rewrite E0.
      * destruct (renderEntityBody_shown _ _ _ Hb) as [-> Hf].
        rewrite Em, Ee, Ec. do 2 f_equal.
        assert (∀ c, c ∈ mjoin groups →
                  ∀ n, renderSection c = Some n → differences_shown n = totalDifferences c)
          as Hkids.
        { intros c Hc n Hn. apply mapM_Some in Eg.
          apply list_elem_of_join in Hc as (g & Hc & Hg).
          destruct (Forall2_elem_of_r _ _ _ _ Eg Hg) as (m & _ & Hm).
          apply mapM_Some in Hm.
          destruct (Forall2_elem_of_r _ _ _ _ Hm Hc) as (c' & Hc' & Hs).
          unfold child_section in Hs. cbv zeta in Hs.
          destruct (compareSection c' _ _) as [s0|] eqn:E1; [|done].
          injection Hs as <-. rewrite renderSection_tag_parent in Hn.
          rewrite Forall_forall in IH. by apply (IH c' Hc' _ _ _ _ E1). }
        clear -Hkids Hf. unfold sum_totals.
        induction (mjoin groups) as [|c cs IH]; [done|].
        simpl in *. apply Forall_cons in Hf as [[n Hn] Hf]. simpl in Hn.
        rewrite Hn. simpl. rewrite (Hkids c (list_elem_of_here _ _) n Hn).
        f_equal. apply IH; [done|]. intros c1 Hc1. apply Hkids. by right.
  - rewrite compareSection_flat by done.
    destruct (as_array savedArr) as [S|]; [|done].
    destruct (as_array currentArr) as [C|]; [|done]. simpl.
    intros [= <-] (body & Hb & ->)%renderSection_body.
    unfold buildFlatSection in *.
    cbn [totalDifferences sec_data childSections default] in *.
    rewrite flatCompare_unfold in *. cbn [f_summary fsum_missing fsum_extra] in *.
    destruct (_ =? 0) eqn:E0.
    + injection Hb as <-. apply Nat.eqb_eq in E0. by rewrite E0.
    + by rewrite (renderFlatBody_shown _ _ Hb).
Qed.

(** A namespace that lost a class and changed its description: the page
    shows two differences, the table of the namespace and the card of the
    class. *)
Lemma page_shows_every_difference_witness :
  let config := entity "namespaces" "Namespaces" [entity "classes" "Classes" []] in
  let savedArr := VArr [VObj [("id", VStr "ns1"); ("description", VStr "old");
                              ("classes", VArr [obj_id "c1"])]] in
  let currentArr := VArr [VObj [("id", VStr "ns1"); ("description", VStr "new");
                                ("classes", VArr [])]] in
  ∃ s node, compareSection config savedArr currentArr = Some s
    ∧ renderSection s = Some node
    ∧ totalDifferences s = 2
    ∧ differences_shown node = 2.
Proof.
  intros config savedArr currentArr.
  destruct (compareSection config savedArr currentArr) as [s|] eqn:E;
    [|by vm_compute in E].
  destruct (renderSection s) as [node|] eqn:Er;
    [|by vm_compute in E; injection E as <-; vm_compute in Er].
  exists s, node. split; [done|]. split; [done|].
  rewrite (page_shows_every_difference config savedArr currentArr s node E Er).
  vm_compute in E. by injection E as <-.
Defined.

Lemma rendering_throws_unfold s :
  rendering_throws s ↔
  totalDifferences s ≠ 0
  ∧ match sec_data s with
    | FlatData r => ∃ x, x ∈ f_missing r ++ f_extra r ∧ card_throws x = true
    | EntityData r =>
        (∃ e, e ∈ r_missing r ++ r_extra r ∧ card_throws (VObj (e_entity e)) = true)
        ∨ Exists rendering_throws (default [] (childSections s))
    end.
Proof.
  destruct s as [k l d [cs|] t pi pl]; simpl.
  - apply and_iff_compat_l. destruct d as [r|r]; [|done].
    apply or_iff_compat_l.
    induction cs as [|c cs IH]; [by rewrite Exists_nil|].
    by rewrite Exists_cons, IH.
  - apply and_iff_compat_l. destruct d as [r|r]; [|done]. by rewrite Exists_nil.
Qed.

(** X27.  Rendering a section fails exactly when the section, or one of its
    child sections at any depth, has differences to show and lists, among
    its missing or its extra items, one whose card cannot be made, every
    section above it having differences to show as well.  The card of an
    item reads the [id] of the item, which [null] does not have, and shows
    the first truthy value among [id] and [name], which an object with a
    [toString] property of its own cannot be. *)
Theorem renderSection_fails_iff s : renderSection s = None ↔ rendering_throws s.
Proof.
  induction s as [k l d cs t pi pl IH] using section_nested_ind.
  rewrite renderSection_unfold, rendering_throws_unfold.
  cbn [totalDifferences sec_data childSections].
  destruct (t =? 0) eqn:E0.
  - apply Nat.eqb_eq in E0. split; [done | by intros [? _]].
  - apply Nat.eqb_neq in E0.
    assert (∀ (body : option (list Node)) (P : Prop),
              (body = None ↔ P) →
              (body ≫= (λ b, Some (el "section" "entity-section"
                  [ Elem "details" "" (Some (0 <? t))
                      [ el "summary" ""
                          (buildSectionHeader (mkSection k l d cs t pi pl));
                        el "div" "section-body" b ] ])) = None) ↔ t ≠ 0 ∧ P) as Hbody.
    { intros [b|] P HP; simpl.
      - split; [done|]. intros [_ HP']. by apply HP in HP'.
      - split; [intros _; split; [done | by apply HP] | done]. }
    apply Hbody. destruct d as [r|r]; [|apply renderFlatBody_None].
    rewrite renderEntityBody_None. apply or_iff_compat_l.
    destruct cs as [cs|]; [|by rewrite !Exists_nil]. cbn [default from_option id] in *.
    induction IH as [|c cs Hc _ IH']; [by rewrite !Exists_nil|].
    cbn [map]. by rewrite !Exists_cons, IH', Hc.
Qed.

Lemma canonicalize_null x : canonicalize x = "null" ↔ x = VNull.
Proof.
  split; [|by intros ->]. intros E. symmetry.
  by apply (canonicalize_prim_inj VNull x).
Qed.

Lemma key_count_null (l : list value) : key_count "null" l = length (List.filter is_null l).
Proof.
  unfold key_count. induction l as [|x l IH]; [done|].
  destruct (is_null x) eqn:Hx.
  - destruct x; try done. rewrite filter_cons_True by done. simpl. by rewrite IH.
  - rewrite filter_cons_False by (rewrite canonicalize_null; by intros ->).
    simpl. by rewrite Hx.
Qed.

Lemma elem_of_null_count (l : list value) : VNull ∈ l ↔ 0 < key_count "null" l.
Proof.
  unfold key_count. split.
  - intros Hin.
    assert (VNull ∈ filter (λ x, canonicalize x = "null") l) as Hf
      by by apply list_elem_of_filter.
    destruct (filter _ l); [by apply elem_of_nil in Hf | simpl; lia].
  - destruct (filter _ l) as [|x xs] eqn:Ef; [simpl; lia|]. intros _.
    assert (x ∈ filter (λ x, canonicalize x = "null") l) as Hx by (rewrite Ef; left).
    apply list_elem_of_filter in Hx as [->%canonicalize_null Hx]. done.
Qed.

(** X28.  When [null] is the only item of two collections whose card cannot
    be made, the page of the flat section the engine produces for them fails
    to render exactly when the two collections do not hold [null] the same
    number of times. *)
Theorem flat_page_fails_iff config (savedItems currentItems : list value) :
  strat config = Flat →
  (∀ x, x ∈ savedItems ++ currentItems → card_throws x = true → x = VNull) →
  ∃ s, compareSection config (VArr savedItems) (VArr currentItems) = Some s
       ∧ (renderSection s = None ↔
          length (List.filter is_null savedItems)
          ≠ length (List.filter is_null currentItems)).
Proof.
  intros Hflat Honly. rewrite compareSection_flat by done. simpl.
  eexists. split; [done|].
  rewrite renderSection_unfold, <- !key_count_null.
  unfold buildFlatSection. cbn [totalDifferences sec_data].
  rewrite flatCompare_unfold. cbn [f_summary fsum_missing fsum_extra].
  set (missing := flat_map _ (buildMultiset savedItems)).
  set (extra := flat_map _ (buildMultiset currentItems)).
  assert (VNull ∈ missing ↔ key_count "null" currentItems < key_count "null" savedItems)
    as Hm.
  { rewrite elem_of_null_count. subst missing. rewrite surplus_key_count. lia. }
  assert (VNull ∈ extra ↔ key_count "null" savedItems < key_count "null" currentItems)
    as He.
  { rewrite elem_of_null_count. subst extra. rewrite surplus_key_count. lia. }
  assert ((∃ x, x ∈ missing ++ extra ∧ card_throws x = true)
          ↔ VNull ∈ missing ∨ VNull ∈ extra) as Hthrow.
  { rewrite <- elem_of_app. split; [|by exists VNull].
    intros (x & Hx & Hc). rewrite (Honly x) in Hx; [done| |done].
    apply elem_of_app in Hx as [Hx|Hx]; apply surplus_elem in Hx;
      apply elem_of_app; auto. }
  destruct (_ =? 0) eqn:E0.
  - apply Nat.eqb_eq in E0. simpl. split; [done|]. intros Hne. exfalso.
    assert (missing = [] ∧ extra = []) as [Em Ee].
    { destruct missing, extra; simpl in E0; try lia. done. }
    rewrite Em in Hm. rewrite Ee in He.
    destruct (Nat.lt_trichotomy (key_count "null" savedItems)
                (key_count "null" currentItems)) as [H|[H|H]]; [|done|].
    + apply He in H. by apply elem_of_nil in H.
    + apply Hm in H. by apply elem_of_nil in H.
  - pose proof (renderFlatBody_None
                  (mkFlatResult missing extra
                     (mkFlatSummary (length missing) (length extra)))) as Hb.
    cbn [f_missing f_extra] in Hb. rewrite Hthrow, Hm, He in Hb.
    destruct (renderFlatBody _) as [body|]; simpl.
    + split; [done|]. intros Hne. exfalso.
      assert (Some body = None) as Hnone by (apply Hb; lia). done.
    + split; [intros _|done]. destruct Hb as [Hb _]. specialize (Hb eq_refl). lia.
Qed.

(** The saved lookups hold a [null], the current ones do not. *)
Lemma flat_page_fails_iff_witness :
  ∃ s, compareSection (mkConfig "lookups" "Lookup Tables" Flat None [])
         (VArr [VNull; VStr "a"]) (VArr [VStr "a"]) = Some s
       ∧ renderSection s = None.
Proof.
  destruct (flat_page_fails_iff (mkConfig "lookups" "Lookup Tables" Flat None [])
              [VNull; VStr "a"] [VStr "a"] eq_refl) as (s & Hs & Hr).
  - intros x Hx. simpl in Hx.
    repeat (apply elem_of_cons in Hx as [->|Hx]; [done|]).
    by apply elem_of_nil in Hx.
  - exists s. split; [done|]. apply Hr. simpl. lia.
Defined.

(** X29.  The page of a report of [compare] is the header followed by the
    banner that the servers are in sync, and nothing else, exactly when no
    section of the report has anything to report, at any depth. *)
Theorem banner_iff_in_sync (toLocaleString : string → string) now saved current rep
    savedServer currentServer savedTimestamp :
  compare now saved current = Some rep →
  ((∃ header,
      renderReport toLocaleString
        (mkStoredReport rep savedServer currentServer savedTimestamp)
      = Some [ header;
               el "p" "success banner"
                 (textContent "No differences found — servers are in sync.") ])
   ↔ Forall no_differences (sections rep)).
Proof.
  unfold compare. rewrite compare_in_sections.
  destruct (mapM _ registry) as [ss|] eqn:Ess; [|done]. simpl. intros [= <-].
  assert (sum_totals ss = 0 ↔ Forall no_differences ss) as <-.
  { rewrite sum_totals_zero, !Forall_forall. apply mapM_Some in Ess.
    split; intros H s Hs;
      destruct (Forall2_elem_of_r _ _ _ _ Ess Hs) as (c & _ & Hc);
      apply compareSection_consistent, total_zero_no_differences in Hc;
      apply Hc; auto. }
  unfold renderReport. cbn [report rep_totalDifferences sections].
  destruct (sum_totals ss =? 0) eqn:E0.
  - apply Nat.eqb_eq in E0. split; [done|]. intros _. by eexists.
  - apply Nat.eqb_neq in E0. split; [|done]. intros (header & H).
    destruct (mapM renderSection ss) as [els|]; [|done]. simpl in H.
    injection H as _ H. destruct els; [|done]. simpl in H. discriminate H.
Qed.

(** Two empty snapshots: the page is the header and the banner. *)
Lemma banner_iff_in_sync_witness :
  ∃ rep, compare "2024-01-01T00:00:00.000Z" [] [] = Some rep
    ∧ ((∃ header,
          renderReport (λ iso, iso) (mkStoredReport rep None None None)
          = Some [ header;
                   el "p" "success banner"
                     (textContent "No differences found — servers are in sync.") ])
       ↔ Forall no_differences (sections rep)).
Proof.
  destruct (compare "2024-01-01T00:00:00.000Z" [] []) as [rep|] eqn:E;
    [|by vm_compute in E].
  exists rep. split; [done|].
  exact (banner_iff_in_sync (λ iso, iso) _ [] [] rep None None None E).
Defined.
